(** * filedestory: a shallow embedding of [main.py]

    The program overwrites a few bytes in every window of a file, leaving
    the first and the last 1024 bytes alone.  This development embeds the
    functions of [main.py] as executable Rocq definitions and proves the
    properties of the placement arithmetic, of the byte substitution, of the
    file walk, of the step-literal parser and of the exit statuses.

    Conventions of the embedding:
    - Python [int] is [Z]; [//] and [%] are [Z.div] and [Z.modulo] (both
      round towards minus infinity, as Python does), with the division by
      zero raised explicitly;
    - a [bytes] object is a [list Z] of values in 0..255;
    - a [str] is a [string]; the model covers ASCII text (the classification
      and the case mapping of characters above 127 are not modelled);
    - the interpreter's random generator, the faults of the file system,
      the lines typed by the user and what [argparse] makes of the command
      line are oracles; the standard input is a finite list of lines, at
      whose end [input] raises [EOFError]; the state that the program
      mutates (the file, its backup, the file position) is threaded through
      a state-and-exception monad;
    - [while True] loops that draw random numbers take a fuel argument and
      yield [Diverge] when it runs out. *)

From Stdlib Require Import String Ascii.
From Stdlib Require Import ZArith List Bool Lia Arith.
Import ListNotations.

Local Open Scope string_scope.
Local Open Scope list_scope.
Local Open Scope Z_scope.

(** ** Exceptions and results *)

Module Py.

(** The exception classes the program can meet.  [OSError] stands for its
    subclasses too ([FileNotFoundError], [IsADirectoryError], ...). *)
Inductive exn : Type :=
| ValueError
| ZeroDivisionError
| OverflowError
| OSError
| EOFError
| KeyboardInterrupt
| SystemExit (code : Z).

(** [isinstance(e, Exception)]: [KeyboardInterrupt] and [SystemExit] derive
    from [BaseException] only. *)
Definition is_Exception (e : exn) : bool :=
  match e with
  | KeyboardInterrupt | SystemExit _ => false
  | _ => true
  end.

Definition is_ValueError (e : exn) : bool :=
  match e with ValueError => true | _ => false end.

Inductive result (A : Type) : Type :=
| Ret (a : A)
| Raise (e : exn)
| Diverge.

Arguments Ret {A} a.
Arguments Raise {A} e.
Arguments Diverge {A}.

Definition rbind {A B} (r : result A) (f : A -> result B) : result B :=
  match r with
  | Ret a => f a
  | Raise e => Raise e
  | Diverge => Diverge
  end.

End Py.
Import Py.

(** ** Strings *)

Module Str.

Definition code (c : ascii) : nat := nat_of_ascii c.

(** [str.isspace] on ASCII: tab..carriage return, the four separators
    28..31 and the blank. *)
Definition isspace (c : ascii) : bool :=
  let n := code c in
  ((9 <=? n) && (n <=? 13) || (28 <=? n) && (n <=? 32))%nat.

Definition isdigit (c : ascii) : bool :=
  let n := code c in ((48 <=? n) && (n <=? 57))%nat.

Definition upper_char (c : ascii) : ascii :=
  let n := code c in
  if ((97 <=? n) && (n <=? 122))%nat then ascii_of_nat (n - 32) else c.

Definition lower_char (c : ascii) : ascii :=
  let n := code c in
  if ((65 <=? n) && (n <=? 90))%nat then ascii_of_nat (n + 32) else c.

Fixpoint map_string (f : ascii -> ascii) (s : string) : string :=
  match s with
  | EmptyString => EmptyString
  | String c s' => String (f c) (map_string f s')
  end.

Definition upper : string -> string := map_string upper_char.
Definition lower : string -> string := map_string lower_char.

Fixpoint rev_append (s acc : string) : string :=
  match s with
  | EmptyString => acc
  | String c s' => rev_append s' (String c acc)
  end.

Definition rev (s : string) : string := rev_append s EmptyString.

Fixpoint lstrip_by (p : ascii -> bool) (s : string) : string :=
  match s with
  | EmptyString => EmptyString
  | String c s' => if p c then lstrip_by p s' else s
  end.

Definition strip_by (p : ascii -> bool) (s : string) : string :=
  rev (lstrip_by p (rev (lstrip_by p s))).

(** [s.strip()] *)
Definition strip : string -> string := strip_by isspace.

(** [s.strip(chars)] where [chars] holds the single quote, the double
    quote and the blank. *)
Definition is_quote_or_blank (c : ascii) : bool :=
  let n := code c in ((n =? 39) || (n =? 34) || (n =? 32))%nat.

Definition strip_quotes : string -> string := strip_by is_quote_or_blank.

(** [s.index(c)] for a character that occurs in [s]; the length of [s]
    otherwise (Python raises there; the parser only asks for characters
    that it has just read from [s]). *)
Fixpoint index (c : ascii) (s : string) : nat :=
  match s with
  | EmptyString => O
  | String d s' => if Ascii.eqb d c then O else S (index c s')
  end.

(** [s[n:]] *)
Fixpoint drop (n : nat) (s : string) : string :=
  match n, s with
  | O, _ => s
  | S n', String _ s' => drop n' s'
  | S _, EmptyString => EmptyString
  end.

Definition is_empty (s : string) : bool :=
  match s with EmptyString => true | _ => false end.

End Str.

(** ** Numbers from text *)

Module Num.

Definition digit_val (c : ascii) : Z := Z.of_nat (Str.code c) - 48.

(** The white space that [int] skips around the number: on ASCII text
    these are the characters of C's [isspace], so the separators 28..31,
    which [str.strip] takes away, are not among them. *)
Definition isspace_c (c : ascii) : bool :=
  let n := Str.code c in
  ((9 <=? n) && (n <=? 13) || (n =? 32))%nat.

(** The digits of a text, counted as [int] counts them against its limit:
    signs, underscores and everything else left out, leading zeros
    included. *)
Fixpoint count_digits (s : string) : Z :=
  match s with
  | EmptyString => 0
  | String c s' =>
      if Str.isdigit c then 1 + count_digits s' else count_digits s'
  end.

(** [sys.get_int_max_str_digits()], as the interpreter starts. *)
Definition max_str_digits : Z := 4300.

(** Digits, with single underscores between them. *)
Fixpoint digits_us (s : string) (acc : Z) (prev_digit : bool) : option Z :=
  match s with
  | EmptyString => if prev_digit then Some acc else None
  | String c s' =>
      if Str.isdigit c then digits_us s' (10 * acc + digit_val c) true
      else if (Str.code c =? 95)%nat && prev_digit then
        match s' with
        | EmptyString => None
        | String d _ => if Str.isdigit d then digits_us s' acc false else None
        end
      else None
  end.

(** [int(s)] for a string: the white space around the number is dropped,
    one sign is allowed, digits may be separated by single underscores,
    and a number of more than [max_str_digits] digits is refused. *)
Definition py_int (s : string) : result Z :=
  let body (t : string) :=
    if max_str_digits <? count_digits t then None
    else digits_us t 0 false in
  let t := Str.strip_by isspace_c s in
  let r :=
    match t with
    | String c t' =>
        if (Str.code c =? 45)%nat then option_map Z.opp (body t')
        else if (Str.code c =? 43)%nat then body t'
        else body t
    | EmptyString => None
    end in
  match r with
  | Some n => Ret n
  | None => Raise ValueError
  end.

(** A decimal literal made of digits and dots, as [float] reads it: at most
    one dot and at least one digit.  The value is [mant / 10 ^ frac]. *)
Fixpoint decimal (s : string) (mant : Z) (frac : option nat) (seen : bool)
  : option (Z * nat) :=
  match s with
  | EmptyString =>
      if seen then Some (mant, match frac with Some k => k | None => O end)
      else None
  | String c s' =>
      if Str.isdigit c then
        decimal s' (10 * mant + digit_val c) (option_map S frac) true
      else if (Str.code c =? 46)%nat then
        match frac with
        | None => decimal s' mant (Some O) seen
        | Some _ => None
        end
      else None
  end.

(** A finite non-negative binary64 number [f_mant * 2 ^ f_exp], or the
    infinity. *)
Inductive float : Type :=
| Finite (f_mant f_exp : Z)
| Infinity.

Definition pow2 (e : Z) : Z := 2 ^ e.

(** [2 ^ e <= p / q], for [q > 0]. *)
Definition ge_pow2 (p q e : Z) : bool :=
  if 0 <=? e then q * pow2 e <=? p else q <=? p * pow2 (- e).

(** The integer nearest to [p / q], ties to the even one. *)
Definition round_half_even (p q : Z) : Z :=
  let f := p / q in
  let r := p mod q in
  if 2 * r <? q then f
  else if q <? 2 * r then f + 1
  else if Z.even f then f else f + 1.

Definition overflows (m e : Z) : bool :=
  (0 <=? e) && (pow2 1024 <=? m * pow2 e).

(** The binary64 number nearest to [p / q] (round to nearest, ties to
    even), for [p >= 0] and [q > 0]: 53 bits of precision, least exponent
    -1074, overflow to the infinity. *)
Definition round64 (p q : Z) : float :=
  if p =? 0 then Finite 0 0
  else
    let e0 := Z.log2 p - Z.log2 q in
    let e := if ge_pow2 p q e0 then e0 else e0 - 1 in
    let u := Z.max (e - 52) (-1074) in
    let m := if 0 <=? u then round_half_even p (q * pow2 u)
             else round_half_even (p * pow2 (- u)) q in
    if overflows m u then Infinity else Finite m u.

(** [float(num)] for a string of digits and dots. *)
Definition py_float (num : string) : result float :=
  match decimal num 0 None false with
  | Some (m, k) => Ret (round64 m (10 ^ Z.of_nat k))
  | None => Raise ValueError
  end.

(** [x * 1024]: exact, unless it overflows. *)
Definition mul1024 (x : float) : float :=
  match x with
  | Finite m e => if overflows m (e + 10) then Infinity else Finite m (e + 10)
  | Infinity => Infinity
  end.

(** [int(x)] for a non-negative float: truncation. *)
Definition int_of_float (x : float) : result Z :=
  match x with
  | Finite m e => Ret (if 0 <=? e then m * pow2 e else m / pow2 (- e))
  | Infinity => Raise OverflowError
  end.

End Num.

(** ** [parse_size_str] *)

(** The loop over the characters of [s]: digits and dots are appended to
    [num]; the first other character [c] ends the loop with
    [unit = s[s.index(c):].upper()]. *)
Fixpoint scan_size (s rest num : string) : string * string :=
  match rest with
  | EmptyString => (num, "KB")
  | String c rest' =>
      if Str.isdigit c || (Str.code c =? 46)%nat
      then scan_size s rest' (String.append num (String c EmptyString))
      else (num, Str.upper (Str.drop (Str.index c s) s))
  end.

Definition size_unit (s : string) : string :=
  let t := Str.upper (Str.strip s) in snd (scan_size t t "").

Definition parse_size_str (s : string) : result Z :=
  let s := Str.upper (Str.strip s) in
  let '(num, unit) := scan_size s s "" in
  let num := if Str.is_empty num then "1" else num in
  rbind (Num.py_float num) (fun num_f =>
  if String.eqb unit "KB" then Num.int_of_float (Num.mul1024 num_f)
  else if String.eqb unit "B" then Num.int_of_float num_f
  else Raise ValueError).

(** ** The world of a run *)

(** What lies at the path given by the user. *)
Inductive node : Type :=
| Absent
| Directory (st_size : Z)
| Regular (content : list Z).

(** What the user does at a prompt: a line of text, or control-C.  The end
    of the list is the end of the standard input. *)
Inductive input_event : Type :=
| Line (s : string)
| CtrlC.

(** What the file system does at an operation: it succeeds, it fails with
    an [OSError] (after [partial] bytes, for a write or a copy), or an
    interrupt signal arrives. *)
Inductive fault : Type :=
| NoFault
| IOFault (partial : nat)
| Signal.

(** Ghost events: the window of every iteration of the walk, the answer of
    every yes/no prompt, the arrival of an interrupt. *)
Inductive event : Type :=
| Window (step_idx current_pos : Z)
| Answered (b : bool)
| Interrupted.

Record world : Type := mkWorld {
  w_target : node;                 (* the file at [file_path] *)
  w_backup : option (list Z);      (* the file at [file_path + .bak] *)
  w_pos : Z;                       (* position of the open handle [f] *)
  w_rng : nat;                     (* random draws made so far *)
  w_io : nat;                      (* file operations made so far *)
  w_stdin : list input_event;      (* what is left of the standard input *)
  w_log : list event               (* ghost events, oldest first *)
}.

Definition set_target (n : node) (w : world) : world :=
  mkWorld n (w_backup w) (w_pos w) (w_rng w) (w_io w) (w_stdin w) (w_log w).
Definition set_backup (b : option (list Z)) (w : world) : world :=
  mkWorld (w_target w) b (w_pos w) (w_rng w) (w_io w) (w_stdin w) (w_log w).
Definition set_pos (p : Z) (w : world) : world :=
  mkWorld (w_target w) (w_backup w) p (w_rng w) (w_io w) (w_stdin w) (w_log w).
Definition bump_rng (w : world) : world :=
  mkWorld (w_target w) (w_backup w) (w_pos w) (S (w_rng w)) (w_io w)
          (w_stdin w) (w_log w).
Definition bump_io (w : world) : world :=
  mkWorld (w_target w) (w_backup w) (w_pos w) (w_rng w) (S (w_io w))
          (w_stdin w) (w_log w).
Definition set_stdin (l : list input_event) (w : world) : world :=
  mkWorld (w_target w) (w_backup w) (w_pos w) (w_rng w) (w_io w) l (w_log w).
Definition add_log (e : event) (w : world) : world :=
  mkWorld (w_target w) (w_backup w) (w_pos w) (w_rng w) (w_io w) (w_stdin w)
          (w_log w ++ [e]).

(** The world at the start of the program. *)
Definition init_world (target : node) (backup : option (list Z))
  (stdin : list input_event) : world :=
  mkWorld target backup 0 O O stdin [].

(** ** The monad: state and exceptions *)

Definition M (A : Type) : Type := world -> result A * world.

Definition ret {A} (a : A) : M A := fun w => (Ret a, w).
Definition raise {A} (e : exn) : M A := fun w => (Raise e, w).
Definition diverge {A} : M A := fun w => (Diverge, w).
Definition lift {A} (r : result A) : M A := fun w => (r, w).

Definition bind {A B} (m : M A) (f : A -> M B) : M B :=
  fun w =>
    match m w with
    | (Ret a, w') => f a w'
    | (Raise e, w') => (Raise e, w')
    | (Diverge, w') => (Diverge, w')
    end.

Notation "x <- m ;; k" := (bind m (fun x => k))
  (at level 61, m at next level, right associativity).
Notation "m ;; k" := (bind m (fun _ => k))
  (at level 61, right associativity).

(** [try: m except ...: h]: the handler [h e] is [None] when no [except]
    clause matches [e]. *)
Definition try_except {A} (m : M A) (h : exn -> option (M A)) : M A :=
  fun w =>
    match m w with
    | (Raise e, w') =>
        match h e with
        | Some k => k w'
        | None => (Raise e, w')
        end
    | rw => rw
    end.

(** [sys.exit(code)] *)
Definition sys_exit {A} (code : Z) : M A := raise (SystemExit code).

Definition log (e : event) : M unit := fun w => (Ret tt, add_log e w).

(** [for x in l: body(x)] *)
Fixpoint for_each {A} (l : list A) (body : A -> M unit) : M unit :=
  match l with
  | [] => ret tt
  | x :: l' => body x ;; for_each l' body
  end.

(** [range(n)] *)
Definition py_range (n : Z) : list Z := map Z.of_nat (seq 0 (Z.to_nat n)).

(** Overwriting [data] at offset [pos] of [content], as a write through a
    handle opened with [r+b] does: nothing is truncated, and a write past
    the end extends the file (a gap is filled with zeros). *)
Definition write_at (pos : nat) (data content : list Z) : list Z :=
  firstn pos content ++ repeat 0 (pos - List.length content)
    ++ data ++ skipn (pos + List.length data) content.

Definition bytes_eqb (a b : list Z) : bool :=
  if list_eq_dec Z.eq_dec a b then true else false.

Section Program.

(** The oracles: the raw value behind the [k]-th random draw, and what the
    file system does at the [k]-th file operation. *)
Variable rand : nat -> Z.
Variable fault_at : nat -> fault.

(** [random.randint(lo, hi)]: some integer of [lo..hi]. *)
Definition randint (lo hi : Z) : M Z :=
  fun w =>
    if hi <? lo then (Raise ValueError, w)
    else (Ret (lo + rand (w_rng w) mod (hi - lo + 1)), bump_rng w).

(** A file operation: it consults the fault oracle, then runs [ok], or
    fails leaving [failed partial] behind, or is interrupted. *)
Definition file_op {A} (ok : M A) (failed : nat -> world -> world) : M A :=
  fun w =>
    let w1 := bump_io w in
    match fault_at (w_io w) with
    | NoFault => ok w1
    | IOFault n => (Raise OSError, failed n w1)
    | Signal => (Raise KeyboardInterrupt, add_log Interrupted w1)
    end.

(** [file_path.exists()], [file_path.is_file()] *)
Definition path_exists : M bool :=
  fun w => (Ret (match w_target w with Absent => false | _ => true end), w).
Definition path_is_file : M bool :=
  fun w => (Ret (match w_target w with Regular _ => true | _ => false end), w).

(** [file_path.stat().st_size] *)
Definition stat_size : M Z :=
  file_op
    (fun w => match w_target w with
              | Absent => (Raise OSError, w)
              | Directory n => (Ret n, w)
              | Regular c => (Ret (Z.of_nat (List.length c)), w)
              end)
    (fun _ w => w).

(** [shutil.copy2(file_path, backup_path)] *)
Definition copy2 : M unit :=
  file_op
    (fun w => match w_target w with
              | Regular c => (Ret tt, set_backup (Some c) w)
              | _ => (Raise OSError, w)
              end)
    (fun n w => match w_target w, n with
                | Regular c, S _ => set_backup (Some (firstn n c)) w
                | _, _ => w
                end).

(** [open(file_path, 'r+b')] *)
Definition open_rw : M unit :=
  file_op
    (fun w => match w_target w with
              | Regular _ => (Ret tt, set_pos 0 w)
              | _ => (Raise OSError, w)
              end)
    (fun _ w => w).

(** [f.seek(p)] *)
Definition f_seek (p : Z) : M unit :=
  file_op
    (fun w => if p <? 0 then (Raise OSError, w) else (Ret tt, set_pos p w))
    (fun _ w => w).

(** [f.read(n)] *)
Definition f_read (n : Z) : M (list Z) :=
  file_op
    (fun w => match w_target w with
              | Regular c =>
                  let rest := skipn (Z.to_nat (w_pos w)) c in
                  let data := if n <? 0 then rest
                              else firstn (Z.to_nat n) rest in
                  (Ret data, set_pos (w_pos w + Z.of_nat (List.length data)) w)
              | _ => (Raise OSError, w)
              end)
    (fun _ w => w).

Definition put_bytes (data : list Z) (w : world) : world :=
  match w_target w with
  | Regular c =>
      set_pos (w_pos w + Z.of_nat (List.length data))
        (set_target (Regular (write_at (Z.to_nat (w_pos w)) data c)) w)
  | _ => w
  end.

(** [f.write(data)] *)
Definition f_write (data : list Z) : M unit :=
  file_op
    (fun w => match w_target w with
              | Regular _ => (Ret tt, put_bytes data w)
              | _ => (Raise OSError, w)
              end)
    (fun n w => put_bytes (firstn n data) w).

(** [input(prompt)] *)
Definition input : M string :=
  fun w =>
    match w_stdin w with
    | [] => (Raise EOFError, w)
    | Line s :: rest => (Ret s, set_stdin rest w)
    | CtrlC :: rest =>
        (Raise KeyboardInterrupt, add_log Interrupted (set_stdin rest w))
    end.

(** ** The functions of [main.py] *)

(** [generate_random_byte_not_equal_to]: the [while True] loop runs at most
    [fuel] times.  [b] is the one-byte object [bytes([random.randint(0,
    255)])] and [b != original] compares two [bytes] objects.  The local
    [original_int] of the source is never read. *)
Fixpoint generate_random_byte_not_equal_to (fuel : nat) (original : list Z)
  : M (list Z) :=
  match fuel with
  | O => diverge
  | S fuel' =>
      r <- randint 0 255 ;;
      let b := [r] in
      if negb (bytes_eqb b original) then ret b
      else generate_random_byte_not_equal_to fuel' original
  end.

(** [[generate_random_byte_not_equal_to(bytes([b])) for b in original_bytes]] *)
Fixpoint mutate_each (fuel : nat) (original_bytes : list Z) : M (list (list Z)) :=
  match original_bytes with
  | [] => ret []
  | b :: rest =>
      x <- generate_random_byte_not_equal_to fuel [b] ;;
      xs <- mutate_each fuel rest ;;
      ret (x :: xs)
  end.

(** [b''.join([... for b in original_bytes])] *)
Definition mutate (fuel : nat) (original_bytes : list Z) : M (list Z) :=
  xs <- mutate_each fuel original_bytes ;;
  ret (List.concat xs).

(** [ask_yes_no]: every turn of its [while True] loop reads one line, so the
    loop is run with as many turns as the standard input has events, plus
    one for the end of the input. *)
Definition is_yes (resp : string) : bool :=
  String.eqb resp "y" || String.eqb resp "yes".
Definition is_no (resp : string) : bool :=
  String.eqb resp "n" || String.eqb resp "no".

Fixpoint ask_yes_no_loop (turns : nat) (default : option bool) : M bool :=
  match turns with
  | O => diverge
  | S turns' =>
      line <- input ;;
      let resp := Str.lower (Str.strip line) in
      if Str.is_empty resp then
        match default with
        | Some true => ret true
        | Some false => ret false
        | None => ask_yes_no_loop turns' default
        end
      else if is_yes resp then ret true
      else if is_no resp then ret false
      else ask_yes_no_loop turns' default
  end.

Definition ask_yes_no (default : option bool) : M bool :=
  fun w =>
    (b <- ask_yes_no_loop (S (List.length (w_stdin w))) default ;;
     log (Answered b) ;;
     ret b) w.

Definition confirm_action : M bool := ask_yes_no (Some true).

(** [protect_region_check] *)
Definition window_end (file_size pos : Z) : Z :=
  Z.min (pos + 1024) (file_size - 1024).

Definition available_range (file_size pos : Z) : Z :=
  window_end file_size pos - pos.

Definition protect_region_check (file_size pos destroy_count : Z)
  : M (Z * Z) :=
  let safe_start := 1024 in
  let safe_end := file_size - 1024 in
  if safe_end <=? safe_start then raise ValueError
  else if (pos <? safe_start) || (safe_end <=? pos) then ret (0, 0)
  else
    let start := pos in
    let available_range := available_range file_size pos in
    if available_range <=? 0 then ret (0, 0)
    else
      let destroy_here := Z.min destroy_count available_range in
      actual_start <-
        (if 0 <? destroy_here
         then r <- randint 0 (available_range - destroy_here) ;;
              ret (start + r)
         else ret start) ;;
      ret (actual_start, destroy_here).

(** The number of windows of [corrupt_file] (lines 127-129); the division
    by [step_bytes] comes first. *)
Definition total_steps (file_size step_bytes : Z) : result Z :=
  if step_bytes =? 0 then Raise ZeroDivisionError
  else
    let total := (file_size - 2048) / step_bytes in
    Ret (if negb ((file_size - 2048) mod step_bytes =? 0)
         then total + 1 else total).

(** One turn of the [for step_idx in range(total_steps)] loop.  The two
    copies of the loop in the source (with and without the progress bar)
    perform the same file operations; [continue] is the early [ret tt].
    The first line records the window in the ghost log. *)
Definition corrupt_step (fuel : nat) (file_size step_bytes destroy_bytes : Z)
  (step_idx : Z) : M unit :=
  let current_pos := 1024 + step_idx * step_bytes in
  log (Window step_idx current_pos) ;;
  plan <- protect_region_check file_size current_pos destroy_bytes ;;
  let '(actual_pos, num_to_corrupt) := plan in
  if num_to_corrupt <=? 0 then ret tt
  else
    f_seek actual_pos ;;
    original_bytes <- f_read num_to_corrupt ;;
    new_bytes <- mutate fuel original_bytes ;;
    f_seek actual_pos ;;
    f_write new_bytes.

(** The backup block of [corrupt_file] (lines 131-146): the copy, and on
    any [Exception] the question whether to go on without a backup.  The
    result tells whether the run goes on ([False]: the [return] of line
    146). *)
Definition backup_step (make_backup : bool) : M bool :=
  if make_backup then
    try_except (copy2 ;; ret true)
      (fun e => if is_Exception e then Some (ask_yes_no (Some false))
                else None)
  else ret true.

(** [corrupt_file].  The path is the one of the target of the world; the
    console only prints, and is left out; the handler around the walk
    ([except Exception: ... raise]) raises again what it caught, and is left
    out too. *)
Definition corrupt_file (fuel : nat) (step_kb destroy_bytes : Z)
  (make_backup : bool) : M unit :=
  file_size <- stat_size ;;
  let step_bytes := step_kb * 1024 in
  total <- lift (total_steps file_size step_bytes) ;;
  go_on <- backup_step make_backup ;;
  if negb go_on then ret tt
  else
    open_rw ;;
    for_each (py_range total)
      (corrupt_step fuel file_size step_bytes destroy_bytes).

(** The step of both front ends: [int(text)], which must be positive, and
    on [ValueError] the size literal divided by 1024; [otherwise] is what
    the front end does when the literal is rejected too. *)
Definition parse_step (text : string) (otherwise : M Z) : M Z :=
  try_except
    (step_kb <- lift (Num.py_int text) ;;
     if step_kb <=? 0 then raise ValueError else ret step_kb)
    (fun e =>
       if is_ValueError e then
         Some (try_except
                 (n <- lift (parse_size_str text) ;; ret (n / 1024))
                 (fun e' => if is_Exception e' then Some otherwise else None))
       else None).

(** [interactive_mode].  The four calls of [input] read the path, the step,
    the destroy count and the answer about the backup; [FileNotFoundError]
    is an [OSError]. *)
Definition interactive_mode (fuel : nat) : M unit :=
  try_except
    (file_path <- input ;;
     if Str.is_empty (Str.strip_quotes file_path) then raise ValueError
     else
       there <- path_exists ;;
       if negb there then raise OSError
       else
         is_file <- path_is_file ;;
         if negb is_file then raise ValueError
         else
           _ <- stat_size ;;
           step_line <- input ;;
           let step_input := Str.strip step_line in
           step_kb <- (if Str.is_empty step_input then ret 1
                       else parse_step step_input (raise ValueError)) ;;
           destroy_line <- input ;;
           let destroy_input := Str.strip destroy_line in
           destroy_bytes <-
             (if Str.is_empty destroy_input then ret 4
              else
                try_except
                  (d <- lift (Num.py_int destroy_input) ;;
                   if d <=? 0 then raise ValueError else ret d)
                  (fun e => if is_ValueError e then Some (raise ValueError)
                            else None)) ;;
           disable_line <- input ;;
           let disable_backup_input := Str.lower (Str.strip disable_line) in
           let make_backup := negb (is_yes disable_backup_input) in
           ok <- confirm_action ;;
           if negb ok then ret tt
           else corrupt_file fuel step_kb destroy_bytes make_backup)
    (fun e => if is_Exception e then Some (sys_exit 1) else None).

(** The arguments of the command line, as [argparse] returns them: the
    namespace of [parser.parse_args()]. *)
Record cli_args : Type := mkArgs {
  a_file : string;
  a_step : string;
  a_destroy : Z;
  a_no_backup : bool
}.

(** What [parser.parse_args()] makes of the command line.  It returns the
    namespace; or it refuses the command line (an option that it does not
    know, an option without its value, no [-f], a value of [-d] that [int]
    refuses), prints the usage and leaves through [sys.exit(2)]; or it
    meets [-h], prints the help and leaves through [sys.exit(0)]. *)
Inductive parsed : Type :=
| Namespace (args : cli_args)
| UsageError
| HelpRequested.

Definition parse_args (line : parsed) : M cli_args :=
  match line with
  | Namespace args => ret args
  | UsageError => sys_exit 2
  | HelpRequested => sys_exit 0
  end.

(** The lines of [cli_main] that follow [args = parser.parse_args()]
    (300-346): the checks of the arguments, the two prompts and the call
    of [corrupt_file]; [a_file] names the target of the world. *)
Definition cli_run (fuel : nat) (args : cli_args) : M unit :=
  there <- path_exists ;;
  if negb there then sys_exit 1
  else
    is_file <- path_is_file ;;
    if negb is_file then sys_exit 1
    else
      step_kb <- parse_step (a_step args) (sys_exit 1) ;;
      let destroy_bytes := a_destroy args in
      if destroy_bytes <=? 0 then sys_exit 1
      else
        let make_backup := negb (a_no_backup args) in
        (if a_no_backup args then
           ok <- ask_yes_no (Some false) ;;
           if negb ok then sys_exit 0 else ret tt
         else ret tt) ;;
        _ <- stat_size ;;
        ok <- confirm_action ;;
        if negb ok then sys_exit 0
        else corrupt_file fuel step_kb destroy_bytes make_backup.

(** [cli_main]: the parser and its four options (lines 292-298), where
    [argparse] can leave the program by itself, then the lines above. *)
Definition cli_main (fuel : nat) (line : parsed) : M unit :=
  args <- parse_args line ;;
  cli_run fuel args.

(** The entry point: which front end runs, and the two handlers around
    it.  [SystemExit] is not an [Exception], so the exits of [argparse]
    and of [cli_main] pass both handlers. *)
Inductive mode : Type :=
| CommandLine (line : parsed)
| Interactive.

Definition main (fuel : nat) (m : mode) : M unit :=
  try_except
    (match m with
     | CommandLine line => cli_main fuel line
     | Interactive => interactive_mode fuel
     end)
    (fun e =>
       match e with
       | KeyboardInterrupt => Some (sys_exit 1)
       | _ => if is_Exception e then Some (sys_exit 1) else None
       end).

End Program.

(** The exit status of the process: 0 when the program runs to its end, the
    code of [sys.exit], 1 for an exception that nothing caught; none when
    the program does not end. *)
Definition exit_status (r : result unit) : option Z :=
  match r with
  | Ret _ => Some 0
  | Raise (SystemExit code) => Some code
  | Raise _ => Some 1
  | Diverge => None
  end.

Definition run (rand : nat -> Z) (fault_at : nat -> fault) (fuel : nat)
  (m : mode) (target : node) (backup : option (list Z))
  (stdin : list input_event) : option Z * world :=
  let (r, w) := main rand fault_at fuel m (init_world target backup stdin) in
  (exit_status r, w).

(** The windows that a log records. *)
Fixpoint windows (l : list event) : list (Z * Z) :=
  match l with
  | [] => []
  | Window i p :: l' => (i, p) :: windows l'
  | _ :: l' => windows l'
  end.

(** A random source is fair when, from any draw on, some later draw gives a
    byte other than a given one. *)
Definition fair (rand : nat -> Z) : Prop :=
  forall (k : nat) (b : Z), exists j : nat, rand (k + j)%nat mod 256 <> b.

(** A file system without faults. *)
Definition fault_free (fault_at : nat -> fault) : Prop :=
  forall k, fault_at k = NoFault.

(** ** The vocabulary of the properties *)

(** A computation that never runs out of fuel. *)
Definition total {A} (m : M A) : Prop :=
  forall w, fst (m w) <> Diverge.

(** A computation with fuel that, from every world, has an amount of fuel
    from which on it ends, always in the same way. *)
Definition converges {A} (m : nat -> M A) : Prop :=
  forall w, exists n,
    fst (m n w) <> Diverge /\
    forall n', (n <= n')%nat -> m n' w = m n w.

(** Two worlds that differ by the number of random draws only. *)
Definition rng_only (w w' : world) : Prop :=
  w' = mkWorld (w_target w) (w_backup w) (w_pos w) (w_rng w') (w_io w)
               (w_stdin w) (w_log w).

(** What a substitute for the byte [b] is: one byte, of 0..255, other than
    [b]. *)
Definition substitute_of (b : Z) (x : list Z) : Prop :=
  exists v, x = [v] /\ v <> b /\ 0 <= v < 256.

(** [kept c w]: the target of [w] is a regular file as long as [c], with
    the bytes of [c] in its first and in its last 1024 places. *)
Definition kept (c : list Z) (w : world) : Prop :=
  exists c',
    w_target w = Regular c' /\
    List.length c' = List.length c /\
    forall i : nat,
      (i < 1024 \/ List.length c - 1024 <= i)%nat ->
      nth i c' 0 = nth i c 0.

(** What the walk leaves alone, and the one thing it may log. *)
Definition walk_frame (w : world) {A} (r : result A) (w' : world) : Prop :=
  w_backup w' = w_backup w /\
  w_stdin w' = w_stdin w /\
  (w_log w' = w_log w \/
   w_log w' = w_log w ++ [Interrupted] /\ r = Raise KeyboardInterrupt).

(** Two concrete oracles for the examples: a random source whose [k]-th raw
    value is [k], and a file system that never fails. *)
Definition counting (k : nat) : Z := Z.of_nat k.
Definition no_fault (k : nat) : fault := NoFault.

(** A file of [size] zero bytes. *)
Definition blank_file (size : Z) : node := Regular (repeat 0 (Z.to_nat size)).

(** A computation that preserves [kept c], and one that leaves the target
    as it is. *)
Definition keeps {A} (m : M A) : Prop :=
  forall c w, kept c w -> kept c (snd (m w)).

Definition fixes_target {A} (m : M A) : Prop :=
  forall w, w_target (snd (m w)) = w_target w.

(** [same_protected c c']: [c'] is as long as [c] and has the bytes of [c]
    at every index of [0, 1024) and of [size - 1024, size). *)
Definition same_protected (c c' : list Z) : Prop :=
  List.length c' = List.length c /\
  forall i : Z,
    0 <= i < 1024 \/
    Z.of_nat (List.length c) - 1024 <= i < Z.of_nat (List.length c) ->
    nth (Z.to_nat i) c' 0 = nth (Z.to_nat i) c 0.

(** The characters that the loop of [parse_size_str] adds to [num]: the
    digits and the dot. *)
Definition numeric (c : ascii) : bool :=
  Str.isdigit c || (Str.code c =? 46)%nat.

(** The text from the first character that is neither a digit nor a dot,
    if there is one. *)
Fixpoint unit_suffix (s : string) : option string :=
  match s with
  | EmptyString => None
  | String c s' => if numeric c then unit_suffix s' else Some s
  end.

Fixpoint all_numeric (s : string) : bool :=
  match s with
  | EmptyString => true
  | String c s' => numeric c && all_numeric s'
  end.

(** The log of a run, sorted by what the user did: nothing yet, an
    interrupt, or a prompt answered with no. *)
Definition clean (w : world) : Prop :=
  ~ In Interrupted (w_log w) /\ ~ In (Answered false) (w_log w).
Definition interrupted (w : world) : Prop :=
  In Interrupted (w_log w) /\ ~ In (Answered false) (w_log w).
Definition declined (w : world) : Prop :=
  In (Answered false) (w_log w) /\ ~ In Interrupted (w_log w).



(** A computation that leaves through [sys.exit(0)] when the user
    declines. *)
Definition strict {A} (m : M A) : Prop :=
  forall w r w', clean w -> m w = (r, w') ->
    clean w' /\ r <> Raise KeyboardInterrupt \/
    r = Raise KeyboardInterrupt /\ interrupted w' \/
    r = Raise (SystemExit 0) /\ declined w'.


(** [same_outside lo hi c c']: [c'] is as long as [c] and has the bytes of
    [c] at every index outside [lo, hi). *)
Definition same_outside (lo hi : Z) (c c' : list Z) : Prop :=
  List.length c' = List.length c /\
  forall i : Z, 0 <= i -> i < lo \/ hi <= i ->
    nth (Z.to_nat i) c' 0 = nth (Z.to_nat i) c 0.

(** [all_differ lo hi c c']: at every index of [lo, hi) the byte of [c'] is
    not the byte of [c]. *)
Definition all_differ (lo hi : Z) (c c' : list Z) : Prop :=
  forall i : Z, lo <= i < hi ->
    nth (Z.to_nat i) c' 0 <> nth (Z.to_nat i) c 0.

(** The number of bytes that the walk rewrites in the window that starts at
    [pos]: none outside the safe region, else the destroy count cut at the
    available length. *)
Definition window_count (file_size pos destroy_bytes : Z) : Z :=
  if (1024 <=? pos) && (pos <? file_size - 1024)
  then Z.max 0 (Z.min destroy_bytes (available_range file_size pos))
  else 0.

(** What a completed walk does to the window of index [idx]: it changes
    every byte of a run of [window_count] bytes that lies in the first 1024
    bytes of the stride, and no other byte of the stride. *)
Definition window_effect (file_size step_bytes destroy_bytes : Z)
  (c c' : list Z) (idx : Z) : Prop :=
  let pos := 1024 + idx * step_bytes in
  let count := window_count file_size pos destroy_bytes in
  exists a,
    pos <= a /\ a + count <= pos + 1024 /\
    all_differ a (a + count) c c' /\
    forall i, pos <= i < pos + step_bytes -> i < a \/ a + count <= i ->
      nth (Z.to_nat i) c' 0 = nth (Z.to_nat i) c 0.

(** The state of the file when the walk has done the windows of the
    indices below [k]: these windows have had their effect, and nothing has
    changed before offset 1024 or from the start of window [k] on. *)
Definition walked (file_size step_bytes destroy_bytes : Z) (c : list Z)
  (k : Z) (cur : list Z) : Prop :=
  List.length cur = List.length c /\
  (forall i, 0 <= i -> i < 1024 \/ 1024 + k * step_bytes <= i ->
     nth (Z.to_nat i) cur 0 = nth (Z.to_nat i) c 0) /\
  (forall idx, 0 <= idx < k ->
     window_effect file_size step_bytes destroy_bytes c cur idx).

(** A computation that leaves the backup, and one that leaves both files,
    as they are. *)
Definition fixes_backup {A} (m : M A) : Prop :=
  forall w, w_backup (snd (m w)) = w_backup w.

Definition harmless {A} (m : M A) : Prop :=
  forall w, w_target (snd (m w)) = w_target w /\
            w_backup (snd (m w)) = w_backup w.

(** A computation that only adds to the log. *)
Definition log_grows {A} (m : M A) : Prop :=
  forall w e, In e (w_log w) -> In e (w_log (snd (m w))).

(** A computation that only adds to the log and never calls [sys.exit]. *)
Definition plain {A} (m : M A) : Prop :=
  log_grows m /\
  forall w code, fst (m w) <> Raise (SystemExit code).

(** [int(text)] gives no positive step. *)
Definition int_rejected (text : string) : Prop :=
  Num.py_int text = Raise ValueError \/
  exists j, Num.py_int text = Ret j /\ j <= 0.

(** A computation of a front end, once [argparse] has let the command
    line through: it only adds to the log, it leaves both files as they
    are unless a prompt has been answered with yes, and when it calls
    [sys.exit] the code is 0 or 1. *)
Definition safe {A} (m : M A) : Prop :=
  log_grows m /\
  (forall w, In (Answered true) (w_log (snd (m w))) \/
             w_target (snd (m w)) = w_target w /\
             w_backup (snd (m w)) = w_backup w) /\
  (forall w code, fst (m w) = Raise (SystemExit code) ->
                  code = 0 \/ code = 1).

(** The step text that both conversions refuse. *)
Definition step_rejected (text : string) : Prop :=
  int_rejected text /\
  (parse_size_str text = Raise ValueError \/
   parse_size_str text = Raise OverflowError).

(** What one turn of the loop of [ask_yes_no] makes of the line it reads:
    an answer, or none when the loop asks again. *)
Definition answer_of (default : option bool) (line : string) : option bool :=
  let resp := Str.lower (Str.strip line) in
  if Str.is_empty resp then default
  else if is_yes resp then Some true
  else if is_no resp then Some false
  else None.

(** A text made of digits only, and the number that it denotes (after the
    digits read so far, [acc]). *)
Fixpoint all_digits (s : string) : bool :=
  match s with
  | EmptyString => true
  | String c s' => Str.isdigit c && all_digits s'
  end.

Fixpoint digits_value (s : string) (acc : Z) : Z :=
  match s with
  | EmptyString => acc
  | String c s' => digits_value s' (10 * acc + Num.digit_val c)
  end.

(** A text made of characters of one class only. *)
Fixpoint all_chars (p : ascii -> bool) (s : string) : bool :=
  match s with
  | EmptyString => true
  | String c s' => p c && all_chars p s'
  end.

(** Two runs agree when they end with the same exit status, and either in
    the same world, or both with the status 1 and with the two files as
    they were at the start. *)
Definition agree (target : node) (backup : option (list Z))
  (x y : option Z * world) : Prop :=
  fst x = fst y /\
  (snd x = snd y \/
   fst y = Some 1 /\
   w_target (snd x) = target /\ w_backup (snd x) = backup /\
   w_target (snd y) = target /\ w_backup (snd y) = backup).

(** [confined c w]: the target of [w] is a regular file as long as [c], and
    every byte of it that is not the byte of [c] lies in a window that the
    log of [w] records: in the first 1024 bytes from the start of the
    window, before the last 1024 bytes of the file. *)
Definition confined (c : list Z) (w : world) : Prop :=
  exists c',
    w_target w = Regular c' /\
    List.length c' = List.length c /\
    forall i, 0 <= i ->
      (forall idx pos, In (Window idx pos) (w_log w) ->
         ~ (pos <= i < window_end (Z.of_nat (List.length c)) pos)) ->
      nth (Z.to_nat i) c' 0 = nth (Z.to_nat i) c 0.

(** A computation that preserves [confined c]. *)
Definition confines (c : list Z) {A} (m : M A) : Prop :=
  forall w, confined c w -> confined c (snd (m w)).

(** A computation that records no window in the log. *)
Definition windowless {A} (m : M A) : Prop :=
  forall w, windows (w_log (snd (m w))) = windows (w_log w).

(** ** [format_size] *)

(** The decimal digits of a number that is not negative, most significant
    first; [fuel] bounds the number of digits. *)
Fixpoint digits_from (fuel : nat) (n : Z) (acc : string) : string :=
  match fuel with
  | O => acc
  | S fuel' =>
      let acc' := String (ascii_of_nat (48 + Z.to_nat (n mod 10))) acc in
      if n <? 10 then acc' else digits_from fuel' (n / 10) acc'
  end.

Definition digits_of (n : Z) : string :=
  digits_from (S (Z.to_nat (Z.log2 n))) n "".

(** The text of [hundredths / 100] with two decimals. *)
Definition two_decimals (hundredths : Z) : string :=
  String.append (digits_of (hundredths / 100))
    (String "."
       (String.append (digits_of (hundredths mod 100 / 10))
          (digits_of (hundredths mod 10)))).

(** [f"{x:.2f}"] for a float that is not negative: the exact value of the
    binary64 number, rounded to two decimals, ties to even. *)
Definition format_float (x : Num.float) : string :=
  match x with
  | Num.Finite m e =>
      two_decimals
        (if 0 <=? e then 100 * m * Num.pow2 e
         else Num.round_half_even (100 * m) (Num.pow2 (- e)))
  | Num.Infinity => "inf"
  end.

(** [float(n)] for an integer that is not negative. *)
Definition float_of_int (n : Z) : result Num.float :=
  match Num.round64 n 1 with
  | Num.Infinity => Raise OverflowError
  | x => Ret x
  end.

(** [f"{n:.2f}"] for an integer: the integer is converted to a float. *)
Definition format_int (n : Z) : result string :=
  if n <? 0
  then rbind (float_of_int (- n))
         (fun x => Ret (String "-" (format_float x)))
  else rbind (float_of_int n) (fun x => Ret (format_float x)).

(** What [size_bytes] holds: the integer argument, and a float after the
    first division. *)
Inductive number : Type :=
| IntNum (n : Z)
| FloatNum (x : Num.float).

(** [size_bytes < 1024] *)
Definition below_1024 (v : number) : bool :=
  match v with
  | IntNum n => n <? 1024
  | FloatNum (Num.Finite m e) =>
      if 0 <=? e then m * Num.pow2 e <? 1024
      else m <? 1024 * Num.pow2 (- e)
  | FloatNum Num.Infinity => false
  end.

(** [size_bytes / 1024]: the quotient, correctly rounded; the division of
    an integer raises [OverflowError] when the quotient is too large.  It is
    reached with [size_bytes >= 1024] only. *)
Definition div_1024 (v : number) : result number :=
  match v with
  | IntNum n =>
      match Num.round64 n 1024 with
      | Num.Infinity => Raise OverflowError
      | x => Ret (FloatNum x)
      end
  | FloatNum (Num.Finite m e) =>
      Ret (FloatNum (if 0 <=? e then Num.round64 (m * Num.pow2 e) 1024
                     else Num.round64 m (Num.pow2 (- e) * 1024)))
  | FloatNum Num.Infinity => Ret (FloatNum Num.Infinity)
  end.

(** [f"{size_bytes:.2f}"] *)
Definition format_number (v : number) : result string :=
  match v with
  | IntNum n => format_int n
  | FloatNum x => Ret (format_float x)
  end.

(** The loop of [format_size] over the units that are left, and the
    [return] after it. *)
Fixpoint format_units (units : list string) (size_bytes : number)
  : result string :=
  match units with
  | [] =>
      rbind (format_number size_bytes)
        (fun s => Ret (String.append s " PB"))
  | unit :: units' =>
      if below_1024 size_bytes
      then rbind (format_number size_bytes)
             (fun s => Ret (String.append s (String " " unit)))
      else rbind (div_1024 size_bytes) (format_units units')
  end.

Definition format_size (size_bytes : Z) : result string :=
  format_units ["B"; "KB"; "MB"; "GB"; "TB"] (IntNum size_bytes).

(** The unit of index [k]: B, KB, MB, GB, TB, and PB from 5 on. *)
Definition unit_of (k : Z) : string :=
  nth (Z.to_nat k) ["B"; "KB"; "MB"; "GB"; "TB"] "PB".

(** What [size_bytes] holds after [j] divisions of the whole number [n]:
    the quotient [n / 1024 ^ j] with its mantissa of 53 bits. *)
Definition scaled (n j : Z) : number :=
  FloatNum (Num.Finite (n * 2 ^ (52 - Z.log2 n)) (Z.log2 n - 10 * j - 52)).

(** The world after [k] more random draws. *)
Definition after_draws (k : nat) (w : world) : world :=
  mkWorld (w_target w) (w_backup w) (w_pos w) (w_rng w + k)%nat (w_io w)
          (w_stdin w) (w_log w).

(** A text of [n] zeros. *)
Fixpoint zeros (n : nat) : string :=
  match n with
  | O => EmptyString
  | S n' => String "0" (zeros n')
  end.






(** * Properties *)

(** ** Running the monad by hand *)

Lemma bind_ret {A B} (m : M A) (f : A -> M B) w a w1 :
  m w = (Ret a, w1) -> bind m f w = f a w1.
Proof. intros E. unfold bind. rewrite E. reflexivity. Qed.

Lemma bind_raise {A B} (m : M A) (f : A -> M B) w e w1 :
  m w = (Raise e, w1) -> bind m f w = (Raise e, w1).
Proof. intros E. unfold bind. rewrite E. reflexivity. Qed.

Lemma bind_diverge {A B} (m : M A) (f : A -> M B) w w1 :
  m w = (Diverge, w1) -> bind m f w = (Diverge, w1).
Proof. intros E. unfold bind. rewrite E. reflexivity. Qed.

Lemma bind_log {B} (e : event) (f : unit -> M B) w :
  bind (log e) f w = f tt (add_log e w).
Proof. reflexivity. Qed.

(** [run_bind m E] splits on the outcome of the first computation [m] of the
    goal's [bind], naming the equation [E]. *)
Ltac run_bind E :=
  match goal with
  | |- context [bind ?m ?f ?w] =>
      let a := fresh "a" in
      let e := fresh "e" in
      let w1 := fresh "w" in
      destruct (m w) as [[a | e |] w1] eqn:E;
      [ rewrite (bind_ret m f w a w1 E)
      | rewrite (bind_raise m f w e w1 E)
      | rewrite (bind_diverge m f w w1 E) ]
  end.

(** On a namespace, [cli_main] is what follows [parse_args]. *)
Lemma cli_main_namespace rand fault_at fuel args :
  cli_main rand fault_at fuel (Namespace args)
  = cli_run rand fault_at fuel args.
Proof. reflexivity. Qed.

(** ** The planner *)

Section Planner.

Variable rand : nat -> Z.

Lemma available_range_pos (file_size pos : Z) :
  1024 <= pos < file_size - 1024 ->
  0 < available_range file_size pos <= 1024.
Proof. unfold available_range, window_end. lia. Qed.

Lemma protect_region_check_outside (file_size pos destroy_count : Z) w :
  file_size > 2048 ->
  pos < 1024 \/ file_size - 1024 <= pos ->
  protect_region_check rand file_size pos destroy_count w = (Ret (0, 0), w).
Proof.
  intros Hfs Hout. unfold protect_region_check.
  destruct (file_size - 1024 <=? 1024) eqn:E1; [apply Z.leb_le in E1; lia|].
  destruct ((pos <? 1024) || (file_size - 1024 <=? pos)) eqn:E2.
  - reflexivity.
  - apply orb_false_iff in E2. destruct E2 as [E2 E3].
    apply Z.ltb_ge in E2. apply Z.leb_gt in E3. lia.
Qed.

(** Inside the safe region the planner returns the count
    [min destroy_count available_range] and a start that keeps the run
    inside the window; it draws one random number when the count is
    positive and none otherwise. *)
Lemma protect_region_check_inside (file_size pos destroy_count : Z) w :
  file_size > 2048 ->
  1024 <= pos < file_size - 1024 ->
  exists actual_start w',
    protect_region_check rand file_size pos destroy_count w
      = (Ret (actual_start,
              Z.min destroy_count (available_range file_size pos)), w')
    /\ pos <= actual_start
    /\ (0 < destroy_count ->
        actual_start - pos
          <= available_range file_size pos
             - Z.min destroy_count (available_range file_size pos))
    /\ (destroy_count <= 0 -> actual_start = pos)
    /\ (w' = w \/ w' = bump_rng w).
Proof.
  intros Hfs Hin. pose proof (available_range_pos file_size pos Hin) as Hav.
  unfold protect_region_check.
  destruct (file_size - 1024 <=? 1024) eqn:E1; [apply Z.leb_le in E1; lia|].
  destruct ((pos <? 1024) || (file_size - 1024 <=? pos)) eqn:E2.
  { apply orb_true_iff in E2. destruct E2 as [E2 | E2];
      [apply Z.ltb_lt in E2 | apply Z.leb_le in E2]; lia. }
  destruct (available_range file_size pos <=? 0) eqn:E3;
    [apply Z.leb_le in E3; lia|].
  set (av := available_range file_size pos) in *.
  destruct (0 <? Z.min destroy_count av) eqn:E4.
  - apply Z.ltb_lt in E4.
    assert (Hhi : (av - Z.min destroy_count av <? 0) = false)
      by (apply Z.ltb_ge; lia).
    unfold bind at 1. unfold bind at 1. unfold randint. rewrite Hhi.
    unfold ret.
    pose proof (Z.mod_pos_bound (rand (w_rng w))
                  (av - Z.min destroy_count av - 0 + 1) ltac:(lia)) as Hr.
    eexists _, _. split; [reflexivity|].
    repeat split; try lia. right. reflexivity.
  - apply Z.ltb_ge in E4.
    unfold bind, ret.
    eexists _, _. split; [reflexivity|].
    repeat split; try lia. left. reflexivity.
Qed.

End Planner.

(** ** Termination: fuel that is enough *)

Lemma total_converges {A} (m : M A) : total m -> converges (fun _ => m).
Proof. intros H w. exists O. split; [apply H | reflexivity]. Qed.

Lemma converges_bind {A B} (m : nat -> M A) (f : nat -> A -> M B) :
  converges m -> (forall a, converges (fun n => f n a)) ->
  converges (fun n => bind (m n) (f n)).
Proof.
  intros Hm Hf w. destruct (Hm w) as [n1 [Hn1 Hs1]].
  destruct (m n1 w) as [[a | e |] w1] eqn:E1.
  - destruct (Hf a w1) as [n2 [Hn2 Hs2]].
    exists (Nat.max n1 n2).
    assert (Hrun : forall n', (Nat.max n1 n2 <= n')%nat ->
                   bind (m n') (f n') w = f n2 a w1).
    { intros n' Hle. unfold bind. rewrite (Hs1 n') by lia.
      apply Hs2. lia. }
    split.
    + rewrite Hrun by lia. exact Hn2.
    + intros n' Hle. rewrite Hrun by lia. rewrite Hrun by lia. reflexivity.
  - exists n1. split.
    + unfold bind. rewrite E1. simpl. discriminate.
    + intros n' Hle. unfold bind. rewrite (Hs1 n' Hle), E1. reflexivity.
  - simpl in Hn1. congruence.
Qed.

Lemma converges_try {A} (m : nat -> M A) (h : exn -> option (M A)) :
  converges m -> (forall e k, h e = Some k -> total k) ->
  converges (fun n => try_except (m n) h).
Proof.
  intros Hm Hh w. destruct (Hm w) as [n [Hn Hs]]. exists n. split.
  - unfold try_except. destruct (m n w) as [[a | e |] w1] eqn:E; simpl in *;
      try congruence.
    destruct (h e) as [k |] eqn:Ek; [apply (Hh e k Ek) | simpl; discriminate].
  - intros n' Hle. unfold try_except. rewrite (Hs n' Hle). reflexivity.
Qed.

Lemma converges_if {A} (b : bool) (m1 m2 : nat -> M A) :
  converges m1 -> converges m2 ->
  converges (fun n => if b then m1 n else m2 n).
Proof. destruct b; auto. Qed.

Lemma converges_for_each {A} (l : list A) (body : nat -> A -> M unit) :
  (forall x, converges (fun n => body n x)) ->
  converges (fun n => for_each l (body n)).
Proof.
  intros Hb. induction l as [| x l IH]; simpl.
  - apply total_converges. intros w. simpl. discriminate.
  - apply (converges_bind (fun n => body n x)
             (fun n _ => for_each l (body n))); auto.
Qed.

Lemma total_ret {A} (a : A) : total (ret a).
Proof. intros w. simpl. discriminate. Qed.

Lemma total_raise {A} (e : exn) : total (@raise A e).
Proof. intros w. simpl. discriminate. Qed.

Lemma total_lift {A} (r : result A) : r <> Diverge -> total (lift r).
Proof. intros H w. exact H. Qed.

Lemma total_bind {A B} (m : M A) (f : A -> M B) :
  total m -> (forall a, total (f a)) -> total (bind m f).
Proof.
  intros Hm Hf w. unfold bind. specialize (Hm w).
  destruct (m w) as [[a | e |] w1]; simpl in *;
    [apply Hf | discriminate | congruence].
Qed.

Lemma total_try {A} (m : M A) (h : exn -> option (M A)) :
  total m -> (forall e k, h e = Some k -> total k) -> total (try_except m h).
Proof.
  intros Hm Hh w. unfold try_except. specialize (Hm w).
  destruct (m w) as [[a | e |] w1]; simpl in *;
    [discriminate | | congruence].
  destruct (h e) as [k |] eqn:Ek; [apply (Hh e k Ek) | simpl; discriminate].
Qed.

Lemma total_log (e : event) : total (log e).
Proof. intros w. simpl. discriminate. Qed.

Section Termination.

Variable rand : nat -> Z.
Variable fault_at : nat -> fault.

Lemma total_file_op {A} (ok : M A) failed :
  total ok -> total (file_op fault_at ok failed).
Proof.
  intros H w. unfold file_op. destruct (fault_at (w_io w)); simpl;
    try discriminate. apply H.
Qed.

Lemma total_randint lo hi : total (randint rand lo hi).
Proof. intros w. unfold randint. destruct (hi <? lo); simpl; discriminate. Qed.

Lemma total_stat_size : total (stat_size fault_at).
Proof.
  apply total_file_op. intros w. destruct (w_target w); simpl; discriminate.
Qed.

Lemma total_copy2 : total (copy2 fault_at).
Proof.
  apply total_file_op. intros w. destruct (w_target w); simpl; discriminate.
Qed.

Lemma total_open_rw : total (open_rw fault_at).
Proof.
  apply total_file_op. intros w. destruct (w_target w); simpl; discriminate.
Qed.

Lemma total_f_seek p : total (f_seek fault_at p).
Proof.
  apply total_file_op. intros w. destruct (p <? 0); simpl; discriminate.
Qed.

Lemma total_f_read n : total (f_read fault_at n).
Proof.
  apply total_file_op. intros w. destruct (w_target w); simpl; discriminate.
Qed.

Lemma total_f_write data : total (f_write fault_at data).
Proof.
  apply total_file_op. intros w. destruct (w_target w); simpl; discriminate.
Qed.

Lemma total_input : total input.
Proof.
  intros w. unfold input. destruct (w_stdin w) as [| [s |] rest]; simpl;
    discriminate.
Qed.

Lemma total_path_exists : total path_exists.
Proof. intros w. simpl. discriminate. Qed.

Lemma total_path_is_file : total path_is_file.
Proof. intros w. simpl. discriminate. Qed.

(** The prompt loop ends when it has one turn more than the standard input
    has events. *)
Lemma ask_yes_no_loop_ends default : forall turns w,
  (List.length (w_stdin w) < turns)%nat ->
  fst (ask_yes_no_loop turns default w) <> Diverge.
Proof.
  induction turns as [| turns IH]; intros w Hlen; [lia|].
  simpl. unfold bind at 1. unfold input.
  destruct (w_stdin w) as [| [s |] rest] eqn:Es; simpl; try discriminate.
  assert (Hrest : fst (ask_yes_no_loop turns default (set_stdin rest w))
                  <> Diverge).
  { apply IH. simpl. simpl in Hlen. lia. }
  destruct (Str.is_empty (Str.lower (Str.strip s))).
  - destruct default as [[|] |]; simpl; try discriminate. exact Hrest.
  - destruct (is_yes _); [simpl; discriminate|].
    destruct (is_no _); [simpl; discriminate|]. exact Hrest.
Qed.

Lemma total_ask_yes_no default : total (ask_yes_no default).
Proof.
  intros w. unfold ask_yes_no.
  pose proof (ask_yes_no_loop_ends default (S (List.length (w_stdin w))) w
                ltac:(lia)) as H.
  unfold bind at 1.
  destruct (ask_yes_no_loop _ default w) as [[b | e |] w1]; simpl in *;
    try congruence; discriminate.
Qed.

Lemma total_protect_region_check file_size pos destroy_count :
  total (protect_region_check rand file_size pos destroy_count).
Proof.
  unfold protect_region_check.
  destruct (_ <=? _); [apply total_raise|].
  destruct (_ || _); [apply total_ret|].
  destruct (_ <=? _); [apply total_ret|].
  apply total_bind; [|intros; apply total_ret].
  destruct (_ <? _); [|apply total_ret].
  apply total_bind; [apply total_randint | intros; apply total_ret].
Qed.

(** Under a fair source some draw differs from [original]. *)
Lemma fair_differs : fair rand -> forall (k : nat) (original : list Z),
  exists j : nat, bytes_eqb [rand (k + j)%nat mod 256] original = false.
Proof.
  intros Hfair k original.
  destruct original as [| b [| b' rest]].
  - exists O. unfold bytes_eqb. destruct (list_eq_dec _ _ _); congruence.
  - destruct (Hfair k b) as [j Hj]. exists j. unfold bytes_eqb.
    destruct (list_eq_dec _ _ _) as [E |]; [|reflexivity].
    inversion E. contradiction.
  - exists O. unfold bytes_eqb. destruct (list_eq_dec _ _ _); congruence.
Qed.

Lemma generate_step fuel original w :
  generate_random_byte_not_equal_to rand (S fuel) original w =
  if bytes_eqb [rand (w_rng w) mod 256] original
  then generate_random_byte_not_equal_to rand fuel original (bump_rng w)
  else (Ret [rand (w_rng w) mod 256], bump_rng w).
Proof.
  simpl. unfold bind, randint. simpl.
  destruct (bytes_eqb _ _); reflexivity.
Qed.

Lemma generate_converges_at original : forall (j : nat) w,
  bytes_eqb [rand (w_rng w + j)%nat mod 256] original = false ->
  exists n,
    fst (generate_random_byte_not_equal_to rand n original w) <> Diverge /\
    forall n', (n <= n')%nat ->
      generate_random_byte_not_equal_to rand n' original w
      = generate_random_byte_not_equal_to rand n original w.
Proof.
  induction j as [| j IH]; intros w Hj.
  - rewrite Nat.add_0_r in Hj. exists 1%nat. split.
    + rewrite generate_step, Hj. simpl. discriminate.
    + intros [| n'] Hle; [lia|]. rewrite !generate_step, Hj. reflexivity.
  - destruct (bytes_eqb [rand (w_rng w) mod 256] original) eqn:E0.
    + destruct (IH (bump_rng w)) as [n [Hn Hs]].
      { assert (E : (w_rng (bump_rng w) + j = w_rng w + S j)%nat)
          by (simpl; lia).
        rewrite E. exact Hj. }
      exists (S n). split.
      * rewrite generate_step, E0. exact Hn.
      * intros [| n'] Hle; [lia|]. rewrite !generate_step, E0.
        apply Hs. lia.
    + exists 1%nat. split.
      * rewrite generate_step, E0. simpl. discriminate.
      * intros [| n'] Hle; [lia|]. rewrite !generate_step, E0. reflexivity.
Qed.

Lemma generate_converges original : fair rand ->
  converges (fun n => generate_random_byte_not_equal_to rand n original).
Proof.
  intros Hfair w. destruct (fair_differs Hfair (w_rng w) original) as [j Hj].
  exact (generate_converges_at original j w Hj).
Qed.

Lemma mutate_each_converges original_bytes : fair rand ->
  converges (fun n => mutate_each rand n original_bytes).
Proof.
  intros Hfair. induction original_bytes as [| b rest IH]; simpl.
  - apply total_converges, total_ret.
  - apply (converges_bind
             (fun n => generate_random_byte_not_equal_to rand n [b])
             (fun n x => xs <- mutate_each rand n rest ;; ret (x :: xs))).
    + apply generate_converges, Hfair.
    + intros x.
      apply (converges_bind (fun n => mutate_each rand n rest)
               (fun _ xs => ret (x :: xs))); [exact IH|].
      intros xs. apply total_converges, total_ret.
Qed.

Lemma mutate_converges original_bytes : fair rand ->
  converges (fun n => mutate rand n original_bytes).
Proof.
  intros Hfair. unfold mutate.
  apply (converges_bind (fun n => mutate_each rand n original_bytes)
           (fun _ xs => ret (List.concat xs))).
  - apply mutate_each_converges, Hfair.
  - intros xs. apply total_converges, total_ret.
Qed.

End Termination.

(** ** The mutator *)

Lemma rng_only_refl w : rng_only w w.
Proof. destruct w; reflexivity. Qed.

Lemma rng_only_trans w1 w2 w3 :
  rng_only w1 w2 -> rng_only w2 w3 -> rng_only w1 w3.
Proof.
  unfold rng_only. intros H12 H23. rewrite H23. rewrite H12. reflexivity.
Qed.

Lemma rng_only_bump w : rng_only w (bump_rng w).
Proof. reflexivity. Qed.

Lemma rng_only_fields w w' :
  rng_only w w' ->
  w_target w' = w_target w /\ w_backup w' = w_backup w /\
  w_pos w' = w_pos w /\ w_io w' = w_io w /\
  w_stdin w' = w_stdin w /\ w_log w' = w_log w.
Proof. unfold rng_only. intros H. rewrite H. simpl. auto 10. Qed.

Section Mutator.

Variable rand : nat -> Z.

Lemma generate_spec original : forall fuel w r w',
  generate_random_byte_not_equal_to rand fuel original w = (r, w') ->
  rng_only w w' /\
  (forall e, r <> Raise e) /\
  (forall b, r = Ret b ->
     exists v, b = [v] /\ b <> original /\ 0 <= v < 256).
Proof.
  induction fuel as [| fuel IH]; intros w r w' E.
  - simpl in E. inversion E; subst. split; [apply rng_only_refl|].
    split; [discriminate|]. discriminate.
  - rewrite generate_step in E.
    destruct (bytes_eqb [rand (w_rng w) mod 256] original) eqn:Eb.
    + destruct (IH _ _ _ E) as [Hf [Hr Hb]]. split; [|split; assumption].
      eapply rng_only_trans; [apply rng_only_bump | exact Hf].
    + inversion E; subst. split; [apply rng_only_bump|].
      split; [discriminate|].
      intros b Hb. inversion Hb; subst. eexists. split; [reflexivity|].
      split.
      * unfold bytes_eqb in Eb.
        destruct (list_eq_dec _ _ _); [discriminate | assumption].
      * apply Z.mod_pos_bound. lia.
Qed.

Lemma mutate_each_spec fuel : forall original_bytes w r w',
  mutate_each rand fuel original_bytes w = (r, w') ->
  rng_only w w' /\
  (forall e, r <> Raise e) /\
  (forall xs, r = Ret xs -> Forall2 substitute_of original_bytes xs).
Proof.
  induction original_bytes as [| b rest IH]; intros w r w' E.
  - simpl in E. inversion E; subst. split; [apply rng_only_refl|].
    split; [discriminate|]. intros xs Hxs. inversion Hxs. constructor.
  - simpl in E. revert E. run_bind E1.
    + destruct (generate_spec _ _ _ _ _ E1) as [Hf1 [_ Hb1]].
      run_bind E2.
      * destruct (IH _ _ _ E2) as [Hf2 [_ Hb2]]. intros E.
        inversion E; subst. split; [eapply rng_only_trans; eassumption|].
        split; [discriminate|].
        intros xs Hxs. inversion Hxs; subst. constructor.
        -- destruct (Hb1 a eq_refl) as [v [Hv [Hne Hrange]]].
           exists v. subst a. repeat split; try lia. congruence.
        -- apply Hb2. reflexivity.
      * destruct (IH _ _ _ E2) as [_ [Hr2 _]]. exfalso. eapply Hr2.
        reflexivity.
      * intros E. inversion E; subst.
        destruct (IH _ _ _ E2) as [Hf2 _].
        split; [eapply rng_only_trans; eassumption|].
        split; discriminate.
    + destruct (generate_spec _ _ _ _ _ E1) as [_ [Hr1 _]]. exfalso.
      eapply Hr1. reflexivity.
    + intros E. inversion E; subst.
      destruct (generate_spec _ _ _ _ _ E1) as [Hf1 _].
      split; [exact Hf1|]. split; discriminate.
Qed.

Lemma concat_substitutes : forall original_bytes xs,
  Forall2 substitute_of original_bytes xs ->
  List.length (List.concat xs) = List.length original_bytes /\
  Forall2 (fun b v => v <> b /\ 0 <= v < 256) original_bytes (List.concat xs).
Proof.
  induction 1 as [| b x l xs [v [Hv [Hne Hr]]] _ IH]; simpl.
  - split; [reflexivity | constructor].
  - subst x. simpl. destruct IH as [IH1 IH2]. split; [lia|].
    constructor; [split; assumption | assumption].
Qed.

Lemma mutate_spec fuel original_bytes w r w' :
  mutate rand fuel original_bytes w = (r, w') ->
  rng_only w w' /\
  (forall e, r <> Raise e) /\
  (forall out, r = Ret out ->
     List.length out = List.length original_bytes /\
     Forall2 (fun b v => v <> b /\ 0 <= v < 256) original_bytes out).
Proof.
  unfold mutate. run_bind E1; intros E; inversion E; subst;
    destruct (mutate_each_spec _ _ _ _ _ E1) as [Hf [Hr Hxs]].
  - split; [exact Hf|]. split; [discriminate|].
    intros out Hout. inversion Hout; subst.
    apply concat_substitutes. apply Hxs. reflexivity.
  - exfalso. eapply Hr. reflexivity.
  - split; [exact Hf|]. split; discriminate.
Qed.

End Mutator.

(** ** The walk *)

Lemma write_at_length pos data content :
  (pos + List.length data <= List.length content)%nat ->
  List.length (write_at pos data content) = List.length content.
Proof.
  intros H. unfold write_at.
  rewrite !length_app, length_firstn, repeat_length, length_skipn. lia.
Qed.

Lemma write_at_nth pos data content i :
  (pos + List.length data <= List.length content)%nat ->
  (i < pos \/ pos + List.length data <= i)%nat ->
  nth i (write_at pos data content) 0 = nth i content 0.
Proof.
  intros H Hi. unfold write_at.
  replace (pos - List.length content)%nat with O by lia. simpl.
  assert (Hl : List.length (firstn pos content) = pos)
    by (rewrite length_firstn; lia).
  destruct Hi as [Hi | Hi].
  - rewrite app_nth1 by lia. rewrite nth_firstn.
    destruct (i <? pos)%nat eqn:E; [reflexivity|].
    apply Nat.ltb_ge in E. lia.
  - rewrite app_nth2 by lia. rewrite app_nth2 by lia.
    rewrite nth_skipn. f_equal. lia.
Qed.

Lemma kept_same c w : w_target w = Regular c -> kept c w.
Proof. intros H. exists c. auto. Qed.

Lemma kept_trans c c' w :
  kept c' w ->
  List.length c' = List.length c ->
  (forall i : nat, (i < 1024 \/ List.length c - 1024 <= i)%nat ->
                   nth i c' 0 = nth i c 0) ->
  kept c w.
Proof.
  intros [c2 [Ht [Hl Hn]]] Hl' Hn'. exists c2. split; [exact Ht|].
  split; [congruence|].
  intros i Hi. rewrite Hn by (rewrite Hl'; exact Hi). apply Hn'. exact Hi.
Qed.

Lemma kept_target c w w' :
  kept c w -> w_target w' = w_target w -> kept c w'.
Proof. intros [c' [Ht H]] E. exists c'. rewrite E. auto. Qed.

Section Walk.

Variable rand : nat -> Z.
Variable fault_at : nat -> fault.

(** Reading, substituting and writing back [n] bytes at [a], inside the
    safe region. *)
Lemma rewrite_spec fuel (a n : Z) w c r w' :
  w_target w = Regular c ->
  1024 <= a -> 0 < n -> a + n <= Z.of_nat (List.length c) - 1024 ->
  (f_seek fault_at a ;;
   original_bytes <- f_read fault_at n ;;
   new_bytes <- mutate rand fuel original_bytes ;;
   f_seek fault_at a ;;
   f_write fault_at new_bytes) w = (r, w') ->
  kept c w' /\ walk_frame w r w' /\
  (fault_free fault_at -> forall e, r <> Raise e).
Proof.
  intros Ht Ha Hn Hfit.
  assert (Ha0 : (a <? 0) = false) by (apply Z.ltb_ge; lia).
  assert (Hn0 : (n <? 0) = false) by (apply Z.ltb_ge; lia).
  (* f.seek(actual_pos) *)
  unfold bind at 1. unfold f_seek at 1, file_op at 1. rewrite Ha0.
  destruct (fault_at (w_io w)) eqn:F1.
  2:{ intros E. inversion E; subst. split; [apply kept_same; exact Ht|].
      split; [unfold walk_frame; simpl; auto|].
      intros Hff. rewrite Hff in F1. discriminate. }
  2:{ intros E. inversion E; subst. split; [apply kept_same; exact Ht|].
      split; [unfold walk_frame; simpl; auto|].
      intros Hff. rewrite Hff in F1. discriminate. }
  (* f.read(num_to_corrupt) *)
  unfold bind at 1. unfold f_read at 1, file_op at 1. simpl.
  rewrite Ht, Hn0.
  destruct (fault_at (S (w_io w))) eqn:F2.
  2:{ intros E. inversion E; subst. split; [apply kept_same; exact Ht|].
      split; [unfold walk_frame; simpl; auto|].
      intros Hff. rewrite Hff in F2. discriminate. }
  2:{ intros E. inversion E; subst. split; [apply kept_same; exact Ht|].
      split; [unfold walk_frame; simpl; auto|].
      intros Hff. rewrite Hff in F2. discriminate. }
  set (data := firstn (Z.to_nat n) (skipn (Z.to_nat a) c)).
  assert (Hdata : (List.length data <= Z.to_nat n)%nat)
    by apply firstn_le_length.
  (* the mutator *)
  unfold bind at 1.
  match goal with
  | |- context [mutate rand fuel data ?w3] =>
      destruct (mutate rand fuel data w3) as [r4 w4] eqn:E4;
      destruct (mutate_spec rand fuel data w3 r4 w4 E4) as [Hf4 [Hr4 Ho4]]
  end.
  destruct (rng_only_fields _ _ Hf4) as [T4 [B4 [P4 [I4 [S4 L4]]]]].
  simpl in T4, B4, P4, I4, S4, L4.
  destruct r4 as [new_bytes | e4 |].
  2:{ exfalso. eapply Hr4. reflexivity. }
  2:{ intros E. inversion E; subst.
      split; [apply kept_same; congruence|].
      split; [unfold walk_frame; auto|]. discriminate. }
  destruct (Ho4 new_bytes eq_refl) as [Hlen _].
  (* f.seek(actual_pos) *)
  unfold bind at 1. unfold f_seek at 1, file_op at 1. rewrite Ha0, I4.
  destruct (fault_at (S (S (w_io w)))) eqn:F3.
  2:{ intros E. inversion E; subst.
      split; [apply kept_same; simpl; congruence|].
      split; [unfold walk_frame; simpl; auto|].
      intros Hff. rewrite Hff in F3. discriminate. }
  2:{ intros E. inversion E; subst.
      split; [apply kept_same; simpl; congruence|].
      split; [unfold walk_frame; simpl; rewrite L4; auto|].
      intros Hff. rewrite Hff in F3. discriminate. }
  (* f.write(new_bytes) *)
  unfold f_write, file_op, put_bytes. simpl. rewrite T4, Ht, I4.
  assert (Hkept : forall d, (List.length d <= List.length new_bytes)%nat ->
            List.length (write_at (Z.to_nat a) d c) = List.length c /\
            forall i : nat, (i < 1024 \/ List.length c - 1024 <= i)%nat ->
                            nth i (write_at (Z.to_nat a) d c) 0 = nth i c 0).
  { intros d Hd. split.
    - apply write_at_length. lia.
    - intros i Hi. apply write_at_nth; lia. }
  destruct (fault_at (S (S (S (w_io w))))) eqn:F4; intros E; inversion E;
    subst; simpl.
  - split.
    + destruct (Hkept new_bytes (Nat.le_refl _)) as [H1 H2].
      eexists. split; [reflexivity|]. split; assumption.
    + split; [unfold walk_frame; simpl; auto|]. discriminate.
  - split.
    + destruct (Hkept (firstn partial new_bytes)) as [H1 H2].
      { rewrite length_firstn. lia. }
      eexists. split; [reflexivity|]. split; assumption.
    + split; [unfold walk_frame; simpl; auto|].
      intros Hff. rewrite Hff in F4. discriminate.
  - split; [apply kept_same; simpl; congruence|].
    split; [unfold walk_frame; simpl; rewrite L4; auto|].
    intros Hff. rewrite Hff in F4. discriminate.
Qed.

(** When the five operations succeed, the file holds, in place of the bytes
    read at [a], as many bytes, each other than the one it replaces. *)
Lemma rewrite_done fuel (a n : Z) w c w' :
  w_target w = Regular c ->
  1024 <= a -> 0 < n -> a + n <= Z.of_nat (List.length c) - 1024 ->
  (f_seek fault_at a ;;
   original_bytes <- f_read fault_at n ;;
   new_bytes <- mutate rand fuel original_bytes ;;
   f_seek fault_at a ;;
   f_write fault_at new_bytes) w = (Ret tt, w') ->
  exists new_bytes,
    w_target w' = Regular (write_at (Z.to_nat a) new_bytes c) /\
    List.length new_bytes = Z.to_nat n /\
    Forall2 (fun b v => v <> b /\ 0 <= v < 256)
      (firstn (Z.to_nat n) (skipn (Z.to_nat a) c)) new_bytes.
Proof.
  intros Ht Ha Hn Hfit.
  assert (Ha0 : (a <? 0) = false) by (apply Z.ltb_ge; lia).
  assert (Hn0 : (n <? 0) = false) by (apply Z.ltb_ge; lia).
  unfold bind at 1. unfold f_seek at 1, file_op at 1. rewrite Ha0.
  destruct (fault_at (w_io w)) eqn:F1; try discriminate.
  unfold bind at 1. unfold f_read at 1, file_op at 1. simpl.
  rewrite Ht, Hn0.
  destruct (fault_at (S (w_io w))) eqn:F2; try discriminate.
  set (data := firstn (Z.to_nat n) (skipn (Z.to_nat a) c)).
  assert (Hdata : List.length data = Z.to_nat n).
  { unfold data. rewrite length_firstn, length_skipn. lia. }
  unfold bind at 1.
  match goal with
  | |- context [mutate rand fuel data ?w3] =>
      destruct (mutate rand fuel data w3) as [r4 w4] eqn:E4;
      destruct (mutate_spec rand fuel data w3 r4 w4 E4) as [Hf4 [Hr4 Ho4]]
  end.
  destruct (rng_only_fields _ _ Hf4) as [T4 [B4 [P4 [I4 [S4 L4]]]]].
  simpl in T4, B4, P4, I4, S4, L4.
  destruct r4 as [new_bytes | e4 |]; try discriminate.
  destruct (Ho4 new_bytes eq_refl) as [Hlen Hall].
  unfold bind at 1. unfold f_seek at 1, file_op at 1. rewrite Ha0, I4.
  destruct (fault_at (S (S (w_io w)))) eqn:F3; try discriminate.
  unfold f_write, file_op, put_bytes. simpl. rewrite T4, Ht, I4.
  destruct (fault_at (S (S (S (w_io w))))) eqn:F4; try discriminate.
  intros E. inversion E; subst. simpl.
  exists new_bytes. split; [reflexivity|]. split; [congruence | exact Hall].
Qed.

(** One window of a file of more than 2048 bytes. *)
Lemma corrupt_step_spec fuel (step_bytes destroy_bytes step_idx : Z) w c r w' :
  w_target w = Regular c ->
  Z.of_nat (List.length c) > 2048 ->
  corrupt_step rand fault_at fuel (Z.of_nat (List.length c)) step_bytes
    destroy_bytes step_idx w = (r, w') ->
  kept c w' /\
  walk_frame (add_log (Window step_idx (1024 + step_idx * step_bytes)) w)
    r w' /\
  (fault_free fault_at -> forall e, r <> Raise e).
Proof.
  intros Ht Hbig. unfold corrupt_step.
  rewrite bind_log.
  set (pos := 1024 + step_idx * step_bytes).
  set (w0 := add_log (Window step_idx pos) w).
  assert (Ht0 : w_target w0 = Regular c) by exact Ht.
  destruct (Z_lt_ge_dec pos 1024) as [Hlo | Hlo];
    [| destruct (Z_le_gt_dec (Z.of_nat (List.length c) - 1024) pos)
         as [Hhi | Hhi]].
  1,2: rewrite (bind_ret _ _ w0 (0, 0) w0)
         by (apply protect_region_check_outside; lia);
       simpl; intros E; inversion E; subst;
       (split; [apply kept_same; exact Ht0|]);
       (split; [unfold walk_frame; auto | discriminate]).
  destruct (protect_region_check_inside rand (Z.of_nat (List.length c)) pos
              destroy_bytes w0 Hbig ltac:(lia))
    as [a [w1 [E1 [Hle [Hfit [_ Hw1]]]]]].
  rewrite (bind_ret _ _ w0 _ w1 E1).
  pose proof (available_range_pos (Z.of_nat (List.length c)) pos ltac:(lia))
    as Hav.
  assert (Hend : pos + available_range (Z.of_nat (List.length c)) pos
                 <= Z.of_nat (List.length c) - 1024)
    by (unfold available_range, window_end; lia).
  assert (Hsame : w_target w1 = Regular c /\ w_backup w1 = w_backup w0 /\
                  w_stdin w1 = w_stdin w0 /\ w_log w1 = w_log w0).
  { destruct Hw1 as [-> | ->]; simpl; auto. }
  destruct Hsame as [Ht1 [Hb1 [Hs1 Hl1]]].
  set (num := Z.min destroy_bytes
                (available_range (Z.of_nat (List.length c)) pos)) in *.
  destruct (num <=? 0) eqn:En.
  - intros E. inversion E; subst.
    split; [apply kept_same; exact Ht1|].
    split; [unfold walk_frame; auto | discriminate].
  - apply Z.leb_gt in En. intros E.
    destruct (rewrite_spec fuel a num w1 c r w' Ht1 ltac:(lia) En
                ltac:(lia) E) as [Hk [[Hb [Hs Hl]] Hr]].
    split; [exact Hk|]. split; [|exact Hr].
    unfold walk_frame. rewrite Hb, Hs, Hb1, Hs1, <- Hl1. auto.
Qed.

(** One window of a file of at most 2048 bytes: the planner refuses. *)
Lemma corrupt_step_small fuel (file_size step_bytes destroy_bytes step_idx : Z)
  w :
  file_size <= 2048 ->
  corrupt_step rand fault_at fuel file_size step_bytes destroy_bytes
    step_idx w
  = (Raise ValueError,
     add_log (Window step_idx (1024 + step_idx * step_bytes)) w).
Proof.
  intros Hsmall. unfold corrupt_step. rewrite bind_log.
  unfold protect_region_check.
  assert (E : (file_size - 1024 <=? 1024) = true) by (apply Z.leb_le; lia).
  rewrite E. reflexivity.
Qed.

(** The whole walk over a file of more than 2048 bytes. *)
Lemma walk_spec fuel (step_bytes destroy_bytes : Z) :
  forall (l : list Z) w c r w',
  w_target w = Regular c ->
  Z.of_nat (List.length c) > 2048 ->
  for_each l (corrupt_step rand fault_at fuel (Z.of_nat (List.length c))
                step_bytes destroy_bytes) w = (r, w') ->
  kept c w' /\
  w_backup w' = w_backup w /\
  w_stdin w' = w_stdin w /\
  (r = Ret tt ->
   w_log w' = w_log w
              ++ map (fun i => Window i (1024 + i * step_bytes)) l) /\
  (fault_free fault_at -> forall e, r <> Raise e).
Proof.
  induction l as [| x l IH]; intros w c r w' Ht Hbig.
  - simpl. intros E. inversion E; subst.
    split; [apply kept_same; exact Ht|].
    repeat split; auto.
    + intros _. rewrite app_nil_r. reflexivity.
    + discriminate.
  - simpl. run_bind E1;
      destruct (corrupt_step_spec _ _ _ _ _ _ _ _ Ht Hbig E1)
        as [Hk [[Hb [Hs Hl]] Hr]]; simpl in Hb, Hs, Hl.
    + destruct Hk as [c1 [Ht1 [Hlen1 Hn1]]].
      rewrite <- Hlen1 in *. intros E.
      destruct (IH _ _ _ _ Ht1 Hbig E) as [Hk' [Hb' [Hs' [Hl' Hr']]]].
      split; [eapply kept_trans; [exact Hk' | auto | ]|].
      { intros i Hi. apply Hn1. rewrite Hlen1. exact Hi. }
      split; [congruence|]. split; [congruence|]. split; [|exact Hr'].
      intros ->. rewrite (Hl' eq_refl).
      destruct Hl as [Hl | [_ Habs]]; [|discriminate].
      rewrite Hl, <- app_assoc. reflexivity.
    + intros E. inversion E; subst.
      split; [exact Hk|]. split; [exact Hb|]. split; [exact Hs|].
      split; [discriminate | exact Hr].
    + intros E. inversion E; subst.
      split; [exact Hk|]. split; [exact Hb|]. split; [exact Hs|].
      split; [discriminate | exact Hr].
Qed.

(** The walk over a file of at most 2048 bytes touches nothing but the
    log. *)
Lemma walk_small fuel (file_size step_bytes destroy_bytes : Z) (l : list Z)
  w r w' :
  file_size <= 2048 ->
  for_each l (corrupt_step rand fault_at fuel file_size step_bytes
                destroy_bytes) w = (r, w') ->
  w_target w' = w_target w /\ w_backup w' = w_backup w /\
  w_stdin w' = w_stdin w /\ (l = [] -> r = Ret tt /\ w' = w).
Proof.
  intros Hsmall. destruct l as [| x l]; simpl.
  - intros E. inversion E; subst. auto.
  - rewrite (bind_raise _ _ w ValueError _
               (corrupt_step_small fuel file_size step_bytes destroy_bytes
                  x w Hsmall)).
    intros E. inversion E; subst. simpl.
    split; [reflexivity|]. split; [reflexivity|]. split; [reflexivity|].
    intros H. discriminate H.
Qed.

(** The prompts do not touch the files; they log one answer, or the
    interrupt that ended them. *)
Lemma ask_yes_no_loop_spec default : forall turns w r w',
  ask_yes_no_loop turns default w = (r, w') ->
  w_target w' = w_target w /\ w_backup w' = w_backup w /\
  (r = Raise KeyboardInterrupt /\ w_log w' = w_log w ++ [Interrupted] \/
   r <> Raise KeyboardInterrupt /\ w_log w' = w_log w).
Proof.
  induction turns as [| turns IH]; intros w r w'.
  - simpl. intros E. inversion E; subst. repeat split; auto.
    right. split; [discriminate | reflexivity].
  - simpl. unfold bind at 1. unfold input.
    destruct (w_stdin w) as [| [s |] rest] eqn:Es.
    + intros E. inversion E; subst. repeat split; auto.
      right. split; [discriminate | reflexivity].
    + assert (Hrest : ask_yes_no_loop turns default (set_stdin rest w)
                      = (r, w') ->
                      w_target w' = w_target w /\ w_backup w' = w_backup w /\
                      (r = Raise KeyboardInterrupt /\
                       w_log w' = w_log w ++ [Interrupted] \/
                       r <> Raise KeyboardInterrupt /\ w_log w' = w_log w)).
      { intros E. apply IH in E. exact E. }
      assert (Hnow : forall b, (Ret b, set_stdin rest w) = (r, w') ->
                      w_target w' = w_target w /\ w_backup w' = w_backup w /\
                      (r = Raise KeyboardInterrupt /\
                       w_log w' = w_log w ++ [Interrupted] \/
                       r <> Raise KeyboardInterrupt /\ w_log w' = w_log w)).
      { intros b E. inversion E; subst. repeat split; auto.
        right. split; [discriminate | reflexivity]. }
      destruct (Str.is_empty (Str.lower (Str.strip s))).
      * destruct default as [[|] |]; [apply Hnow | apply Hnow | exact Hrest].
      * destruct (is_yes _); [apply Hnow|].
        destruct (is_no _); [apply Hnow | exact Hrest].
    + intros E. inversion E; subst. repeat split; auto.
Qed.

Lemma ask_yes_no_spec default w r w' :
  ask_yes_no default w = (r, w') ->
  w_target w' = w_target w /\ w_backup w' = w_backup w /\
  match r with
  | Ret b => w_log w' = w_log w ++ [Answered b]
  | Raise KeyboardInterrupt => w_log w' = w_log w ++ [Interrupted]
  | Raise _ => w_log w' = w_log w
  | Diverge => False
  end.
Proof.
  unfold ask_yes_no. intros E.
  pose proof (total_ask_yes_no default w) as Htot.
  unfold ask_yes_no in Htot. rewrite E in Htot. simpl in Htot.
  revert E. run_bind E1;
    destruct (ask_yes_no_loop_spec _ _ _ _ _ E1) as [Ht [Hb Hl]].
  - rewrite bind_log. intros E. inversion E; subst. simpl.
    destruct Hl as [[Habs _] | [_ Hl]]; [discriminate|].
    rewrite Hl. auto.
  - intros E. inversion E; subst. split; [exact Ht|]. split; [exact Hb|].
    destruct Hl as [[Heq Hl] | [Hne Hl]];
      [inversion Heq; subst; exact Hl|].
    destruct e; try exact Hl. congruence.
  - intros E. inversion E; subst. congruence.
Qed.

Lemma backup_step_spec make_backup w r w' :
  backup_step fault_at make_backup w = (r, w') ->
  w_target w' = w_target w /\
  match r with
  | Ret true => w_log w' = w_log w \/ w_log w' = w_log w ++ [Answered true]
  | Ret false => w_log w' = w_log w ++ [Answered false]
  | _ => True
  end /\
  (fault_free fault_at -> forall c, w_target w = Regular c -> r = Ret true).
Proof.
  unfold backup_step. destruct make_backup.
  2:{ intros E. inversion E; subst. auto. }
  assert (Hask : forall w1, w_target w1 = w_target w ->
            w_log w1 = w_log w ->
            ask_yes_no (Some false) w1 = (r, w') ->
            w_target w' = w_target w /\
            match r with
            | Ret true =>
                w_log w' = w_log w \/ w_log w' = w_log w ++ [Answered true]
            | Ret false => w_log w' = w_log w ++ [Answered false]
            | _ => True
            end).
  { intros w1 Ht1 Hl1 E.
    destruct (ask_yes_no_spec _ _ _ _ E) as [Ht [_ Hl]].
    split; [congruence|].
    destruct r as [[|] | e |]; auto; rewrite Hl, Hl1; auto. }
  unfold try_except, bind, copy2, file_op.
  destruct (fault_at (w_io w)) eqn:F; simpl.
  - destruct (w_target w) as [| sz | c] eqn:Ht; simpl.
    + intros E. apply Hask in E; [|exact Ht | reflexivity].
      destruct E as [E1 E2]. split; [congruence|]. split; [exact E2|].
      intros _ c Hc. discriminate.
    + intros E. apply Hask in E; [|exact Ht | reflexivity].
      destruct E as [E1 E2]. split; [congruence|]. split; [exact E2|].
      intros _ c Hc. discriminate.
    + intros E. inversion E; subst. simpl. auto.
  - intros E. apply Hask in E.
    + destruct E as [E1 E2]. split; [exact E1|]. split; [exact E2|].
      intros Hff. rewrite Hff in F. discriminate.
    + destruct (w_target w) as [| sz | c] eqn:Ht; [| |destruct partial];
        simpl; exact Ht.
    + destruct (w_target w) as [| sz | c] eqn:Ht; [| |destruct partial];
        reflexivity.
  - intros E. inversion E; subst. simpl. repeat split; auto.
    intros Hff. rewrite Hff in F. discriminate.
Qed.

Lemma windows_app l1 l2 : windows (l1 ++ l2) = windows l1 ++ windows l2.
Proof.
  induction l1 as [| [i p | b |] l1 IH]; simpl; rewrite ?IH; reflexivity.
Qed.

Lemma windows_map (f : Z -> Z) (l : list Z) :
  windows (map (fun i => Window i (f i)) l) = map (fun i => (i, f i)) l.
Proof. induction l as [| x l IH]; simpl; rewrite ?IH; reflexivity. Qed.

(** [corrupt_file] on a regular file. *)
Lemma corrupt_file_spec fuel (step_kb destroy_bytes : Z) make_backup
  w c r w' :
  w_target w = Regular c ->
  corrupt_file rand fault_at fuel step_kb destroy_bytes make_backup w
    = (r, w') ->
  kept c w' /\
  (r = Ret tt ->
   w_log w' = w_log w ++ [Answered false] /\ ~ fault_free fault_at \/
   exists total,
     total_steps (Z.of_nat (List.length c)) (step_kb * 1024) = Ret total /\
     windows (w_log w')
     = windows (w_log w)
       ++ map (fun i => (i, 1024 + i * (step_kb * 1024))) (py_range total)) /\
  (fault_free fault_at -> 0 < step_kb -> forall e, r <> Raise e).
Proof.
  intros Ht. unfold corrupt_file.
  (* file_path.stat().st_size *)
  unfold bind at 1. unfold stat_size at 1, file_op at 1. simpl. rewrite Ht.
  destruct (fault_at (w_io w)) eqn:F1.
  2:{ intros E. inversion E; subst. split; [apply kept_same; exact Ht|].
      split; [discriminate|].
      intros Hff. rewrite Hff in F1. discriminate. }
  2:{ intros E. inversion E; subst. split; [apply kept_same; exact Ht|].
      split; [discriminate|].
      intros Hff. rewrite Hff in F1. discriminate. }
  set (file_size := Z.of_nat (List.length c)).
  (* total_steps *)
  unfold bind at 1. unfold lift at 1.
  destruct (total_steps file_size (step_kb * 1024)) as [total | e |] eqn:Et.
  2:{ intros E. inversion E; subst. split; [apply kept_same; exact Ht|].
      split; [discriminate|].
      intros _ Hpos. unfold total_steps in Et.
      destruct (step_kb * 1024 =? 0) eqn:E0; [|discriminate].
      apply Z.eqb_eq in E0. lia. }
  2:{ intros E. inversion E; subst. split; [apply kept_same; exact Ht|].
      split; discriminate. }
  (* the backup *)
  run_bind E2; destruct (backup_step_spec _ _ _ _ E2) as [Ht2 [Hl2 Hr2]];
    simpl in Ht2, Hl2.
  2:{ intros E. inversion E; subst.
      split; [apply kept_same; congruence|]. split; [discriminate|].
      intros Hff _. specialize (Hr2 Hff c Ht). discriminate. }
  2:{ intros E. inversion E; subst.
      split; [apply kept_same; congruence|]. split; discriminate. }
  destruct a as [|]; simpl.
  2:{ intros E. inversion E; subst.
      split; [apply kept_same; congruence|].
      split; [|discriminate].
      intros _. left. split; [exact Hl2|].
      intros Hff. specialize (Hr2 Hff c Ht). discriminate. }
  (* open(file_path, 'r+b') *)
  assert (Ht3 : w_target w0 = Regular c) by congruence.
  unfold bind at 1. unfold open_rw at 1, file_op at 1. simpl. rewrite Ht3.
  destruct (fault_at (w_io w0)) eqn:F3.
  2:{ intros E. inversion E; subst. split; [apply kept_same; exact Ht3|].
      split; [discriminate|].
      intros Hff. rewrite Hff in F3. discriminate. }
  2:{ intros E. inversion E; subst. split; [apply kept_same; exact Ht3|].
      split; [discriminate|].
      intros Hff. rewrite Hff in F3. discriminate. }
  (* the walk *)
  assert (Hlog0 : windows (w_log w0) = windows (w_log w)).
  { destruct Hl2 as [-> | ->]; [reflexivity|].
    rewrite windows_app. simpl. apply app_nil_r. }
  destruct (Z_le_gt_dec file_size 2048) as [Hsmall | Hbig].
  - intros E.
    destruct (walk_small _ _ _ _ _ _ _ _ Hsmall E) as [Ht4 [_ [_ Hnil]]].
    split; [apply kept_same; simpl in Ht4; congruence|].
    destruct (Z_le_gt_dec step_kb 0) as [Hneg | Hpos].
    + split; [|intros _ Hpos; lia].
      intros ->. right. exists total. split; [reflexivity|].
      destruct (py_range total) as [| x l] eqn:El.
      * destruct (Hnil eq_refl) as [_ ->]. simpl.
        rewrite Hlog0, app_nil_r. reflexivity.
      * simpl in E. rewrite (bind_raise _ _ _ ValueError _
                               (corrupt_step_small _ _ _ _ _ _ Hsmall)) in E.
        discriminate.
    + assert (Hrange : py_range total = []).
      { unfold total_steps in Et.
        destruct (step_kb * 1024 =? 0); [discriminate|].
        inversion Et as [Etot]. unfold py_range.
        replace (Z.to_nat _) with O; [reflexivity|].
        pose proof (Z.div_le_upper_bound (file_size - 2048) (step_kb * 1024)
                      0 ltac:(lia) ltac:(lia)) as Hq.
        pose proof (Z.mod_pos_bound (file_size - 2048) (step_kb * 1024)
                      ltac:(lia)) as Hm.
        pose proof (Z.div_mod (file_size - 2048) (step_kb * 1024)
                      ltac:(lia)) as Hdm.
        destruct (_ =? 0) eqn:Em; simpl; [lia|].
        apply Z.eqb_neq in Em.
        assert ((file_size - 2048) / (step_kb * 1024) < 0) by nia. lia. }
      destruct (Hnil Hrange) as [-> ->]. simpl.
      split; [|discriminate].
      intros _. right. exists total. split; [reflexivity|].
      rewrite Hrange, Hlog0, app_nil_r. reflexivity.
  - intros E.
    destruct (walk_spec fuel _ _ _ (set_pos 0 (bump_io w0)) c _ _
                Ht3 Hbig E) as [Hk [_ [_ [Hl Hr]]]].
    split; [exact Hk|]. split.
    + intros ->. right. exists total. split; [reflexivity|].
      rewrite (Hl eq_refl). simpl. rewrite windows_app, Hlog0.
      rewrite (windows_map (fun i => 1024 + i * (step_kb * 1024))).
      reflexivity.
    + intros Hff _. apply Hr. exact Hff.
Qed.

End Walk.

(** ** The walker ends *)

Lemma converges_bind_total {A B} (m : M A) (f : nat -> A -> M B) :
  total m -> (forall a, converges (fun n => f n a)) ->
  converges (fun n => bind m (f n)).
Proof.
  intros Hm Hf.
  apply (converges_bind (fun _ => m) f); [apply total_converges; exact Hm|].
  exact Hf.
Qed.

Section WalkerEnds.

Variable rand : nat -> Z.
Variable fault_at : nat -> fault.
Hypothesis rand_fair : fair rand.

Lemma corrupt_step_converges (file_size step_bytes destroy_bytes idx : Z) :
  converges (fun n => corrupt_step rand fault_at n file_size step_bytes
                        destroy_bytes idx).
Proof.
  unfold corrupt_step.
  apply converges_bind_total; [apply total_log | intros _].
  apply converges_bind_total;
    [apply total_protect_region_check | intros [a num]].
  destruct (num <=? 0); [apply total_converges, total_ret|].
  apply converges_bind_total; [apply total_f_seek | intros _].
  apply converges_bind_total; [apply total_f_read | intros original_bytes].
  apply (converges_bind (fun n => mutate rand n original_bytes)
           (fun _ new_bytes =>
              f_seek fault_at a ;; f_write fault_at new_bytes)).
  - apply mutate_converges, rand_fair.
  - intros new_bytes. apply total_converges.
    apply total_bind; [apply total_f_seek | intros _; apply total_f_write].
Qed.

Lemma total_backup_step make_backup : total (backup_step fault_at make_backup).
Proof.
  unfold backup_step. destruct make_backup; [|apply total_ret].
  apply total_try.
  - apply total_bind; [apply total_copy2 | intros _; apply total_ret].
  - intros e k. destruct (is_Exception e); [|discriminate].
    intros E. inversion E; subst. apply total_ask_yes_no.
Qed.

Lemma total_steps_ends file_size step_bytes :
  total_steps file_size step_bytes <> Diverge.
Proof. unfold total_steps. destruct (_ =? _); discriminate. Qed.

Lemma corrupt_file_converges (step_kb destroy_bytes : Z) make_backup :
  converges (fun n => corrupt_file rand fault_at n step_kb destroy_bytes
                        make_backup).
Proof.
  unfold corrupt_file.
  apply converges_bind_total; [apply total_stat_size | intros file_size].
  apply converges_bind_total;
    [apply total_lift, total_steps_ends | intros total].
  apply converges_bind_total; [apply total_backup_step | intros go_on].
  destruct (negb go_on); [apply total_converges, total_ret|].
  apply converges_bind_total; [apply total_open_rw | intros _].
  apply (converges_for_each (py_range total)
           (fun n => corrupt_step rand fault_at n file_size
                       (step_kb * 1024) destroy_bytes)).
  intros idx. apply corrupt_step_converges.
Qed.

(** Without faults the walker runs a regular file to its end. *)
Lemma corrupt_file_completes (step_kb destroy_bytes : Z) make_backup w c :
  fault_free fault_at ->
  w_target w = Regular c ->
  0 < step_kb ->
  exists fuel w',
    corrupt_file rand fault_at fuel step_kb destroy_bytes make_backup w
    = (Ret tt, w').
Proof.
  intros Hff Ht Hpos.
  destruct (corrupt_file_converges step_kb destroy_bytes make_backup w)
    as [fuel [Hend _]].
  exists fuel.
  destruct (corrupt_file rand fault_at fuel step_kb destroy_bytes
              make_backup w) as [r w'] eqn:E.
  exists w'. destruct (corrupt_file_spec _ _ _ _ _ _ _ _ _ _ Ht E)
    as [_ [_ Hr]].
  destruct r as [[] | e |].
  - reflexivity.
  - exfalso. exact (Hr Hff Hpos e eq_refl).
  - exfalso. apply Hend. reflexivity.
Qed.

End WalkerEnds.

(** ** Concrete oracles, for the examples *)

Lemma counting_fair : fair counting.
Proof.
  intros k b. unfold counting.
  destruct (Z.eq_dec (Z.of_nat (k + 0) mod 256) b) as [E | E];
    [exists 1%nat | exists O; exact E].
  rewrite Nat.add_0_r in E. intros E1.
  replace (Z.of_nat (k + 1)) with (Z.of_nat k + 1) in E1 by lia.
  pose proof (Z.div_mod (Z.of_nat k) 256 ltac:(lia)) as H0.
  pose proof (Z.div_mod (Z.of_nat k + 1) 256 ltac:(lia)) as H1.
  rewrite E in H0. rewrite E1 in H1. lia.
Qed.

Lemma no_fault_free : fault_free no_fault.
Proof. intros k. reflexivity. Qed.

(** ** The planner's window and count *)

(** C4: for a file of more than 2048 bytes and a positive destroy count,
    the planner answers (0, 0) for a window that starts outside the safe
    region [1024, file_size - 1024); for a window that starts inside it, it
    answers a start and a count with: window start <= start, start + count
    <= end of the safe region, count <= destroy count, and the offset of the
    start in the window between 0 and the available length minus the count.
    The available length is the planner's own, which any step size of
    1024 bytes or more bounds from above. *)
Theorem planner_stays_in_safe_region
  (rand : nat -> Z) (file_size pos destroy_count : Z) (w : world) :
  file_size > 2048 -> destroy_count > 0 ->
  (pos < 1024 \/ file_size - 1024 <= pos ->
   protect_region_check rand file_size pos destroy_count w
   = (Ret (0, 0), w)) /\
  (1024 <= pos < file_size - 1024 ->
   exists actual_start actual_count w',
     protect_region_check rand file_size pos destroy_count w
     = (Ret (actual_start, actual_count), w') /\
     pos <= actual_start /\
     1024 <= actual_start /\
     actual_start + actual_count <= file_size - 1024 /\
     0 < actual_count <= destroy_count /\
     0 <= actual_start - pos
       <= available_range file_size pos - actual_count /\
     (forall step_bytes, 1024 <= step_bytes ->
        actual_start - pos
        <= Z.min (pos + step_bytes) (file_size - 1024) - pos - actual_count)).
Proof.
  intros Hfs Hd. split.
  - intros Hout. apply protect_region_check_outside; assumption.
  - intros Hin.
    destruct (protect_region_check_inside rand file_size pos destroy_count w
                Hfs Hin) as [a [w' [E [Hle [Hfit _]]]]].
    pose proof (available_range_pos file_size pos Hin) as Hav.
    specialize (Hfit ltac:(lia)).
    exists a, (Z.min destroy_count (available_range file_size pos)), w'.
    split; [exact E|].
    assert (Hend : pos + available_range file_size pos <= file_size - 1024)
      by (unfold available_range, window_end; lia).
    unfold available_range, window_end in *.
    repeat split; try lia.
Qed.

Lemma planner_stays_in_safe_region_witness :
  3000 > 2048 /\ 4 > 0 /\
  (1024 < 1024 \/ 3000 - 1024 <= 1024 ->
   protect_region_check counting 3000 1024 4
     (init_world (blank_file 3000) None [])
   = (Ret (0, 0), init_world (blank_file 3000) None [])) /\
  (1024 <= 1024 < 3000 - 1024 ->
   exists actual_start actual_count w',
     protect_region_check counting 3000 1024 4
       (init_world (blank_file 3000) None [])
     = (Ret (actual_start, actual_count), w') /\
     1024 <= actual_start /\
     1024 <= actual_start /\
     actual_start + actual_count <= 3000 - 1024 /\
     0 < actual_count <= 4 /\
     0 <= actual_start - 1024
       <= available_range 3000 1024 - actual_count /\
     (forall step_bytes, 1024 <= step_bytes ->
        actual_start - 1024
        <= Z.min (1024 + step_bytes) (3000 - 1024) - 1024 - actual_count)).
Proof.
  split; [lia|]. split; [lia|].
  apply (planner_stays_in_safe_region counting 3000 1024 4
           (init_world (blank_file 3000) None [])); lia.
Defined.

(** C3, as the code has it: for a file of more than 2048 bytes and a window
    that starts inside the safe region, the planner's available length is
    min(window start + 1024, end of the safe region) - window start, a
    window of 1024 bytes whatever the step size is, and the count it returns
    is min(destroy count, that available length).  For a step size of 1024
    bytes or more this is the step-size window cut at 1024 bytes. *)
Theorem planner_window_is_1024
  (rand : nat -> Z) (file_size pos destroy_count : Z) (w : world) :
  file_size > 2048 ->
  1024 <= pos < file_size - 1024 ->
  available_range file_size pos
  = Z.min (pos + 1024) (file_size - 1024) - pos /\
  (exists actual_start w',
     protect_region_check rand file_size pos destroy_count w
     = (Ret (actual_start,
             Z.min destroy_count (available_range file_size pos)), w')) /\
  (forall step_bytes, 1024 <= step_bytes ->
     available_range file_size pos
     = Z.min 1024 (Z.min (pos + step_bytes) (file_size - 1024) - pos)).
Proof.
  intros Hfs Hin. split; [reflexivity|]. split.
  - destruct (protect_region_check_inside rand file_size pos destroy_count w
                Hfs Hin) as [a [w' [E _]]].
    exists a, w'. exact E.
  - intros step_bytes Hstep. unfold available_range, window_end. lia.
Qed.

Lemma planner_window_is_1024_witness :
  10000 > 2048 /\ 1024 <= 1024 < 10000 - 1024 /\
  available_range 10000 1024 = Z.min (1024 + 1024) (10000 - 1024) - 1024 /\
  (exists actual_start w',
     protect_region_check counting 10000 1024 2000
       (init_world (blank_file 10000) None [])
     = (Ret (actual_start, Z.min 2000 (available_range 10000 1024)), w')) /\
  (forall step_bytes, 1024 <= step_bytes ->
     available_range 10000 1024
     = Z.min 1024 (Z.min (1024 + step_bytes) (10000 - 1024) - 1024)).
Proof.
  split; [lia|]. split; [lia|].
  apply (planner_window_is_1024 counting 10000 1024 2000
           (init_world (blank_file 10000) None [])); lia.
Defined.

(** C3, as the claim states it, fails: with a step of 2048 bytes in a file
    of 10000 bytes, the window at 1024 has the available length 1024, not
    min(1024 + 2048, 8976) - 1024 = 2048, and a destroy count of 2000 gives
    the count 1024, not 2000. *)
Lemma planner_window_is_not_the_step :
  ~ (forall (rand : nat -> Z) (file_size step_bytes pos destroy_count : Z)
            (w : world),
       file_size > 2048 -> step_bytes > 0 ->
       1024 <= pos < file_size - 1024 ->
       available_range file_size pos
       = Z.min (pos + step_bytes) (file_size - 1024) - pos /\
       exists actual_start w',
         protect_region_check rand file_size pos destroy_count w
         = (Ret (actual_start,
                 Z.min destroy_count
                   (Z.min (pos + step_bytes) (file_size - 1024) - pos)),
            w')).
Proof.
  intros H.
  destruct (H counting 10000 2048 1024 2000
              (init_world (blank_file 10000) None [])
              ltac:(lia) ltac:(lia) ltac:(lia)) as [Hav _].
  vm_compute in Hav. discriminate Hav.
Qed.

(** ** The whole program keeps the file's size and protected bytes *)

Lemma fixes_keeps {A} (m : M A) : fixes_target m -> keeps m.
Proof. intros H c w Hk. eapply kept_target; [exact Hk | apply H]. Qed.

Lemma keeps_bind {A B} (m : M A) (f : A -> M B) :
  keeps m -> (forall a, keeps (f a)) -> keeps (bind m f).
Proof.
  intros Hm Hf c w Hk. unfold bind. specialize (Hm c w Hk).
  destruct (m w) as [[a | e |] w1]; simpl in *; try apply Hf; assumption.
Qed.

Lemma keeps_try {A} (m : M A) (h : exn -> option (M A)) :
  keeps m -> (forall e k, h e = Some k -> keeps k) -> keeps (try_except m h).
Proof.
  intros Hm Hh c w Hk. unfold try_except. specialize (Hm c w Hk).
  destruct (m w) as [[a | e |] w1]; simpl in *; try assumption.
  destruct (h e) as [k |] eqn:Ek; [apply (Hh e k Ek)|]; assumption.
Qed.

Lemma keeps_ret {A} (a : A) : keeps (ret a).
Proof. apply fixes_keeps. intros w. reflexivity. Qed.

Lemma keeps_raise {A} (e : exn) : keeps (@raise A e).
Proof. apply fixes_keeps. intros w. reflexivity. Qed.

Lemma keeps_lift {A} (r : result A) : keeps (lift r).
Proof. apply fixes_keeps. intros w. reflexivity. Qed.

Lemma keeps_input : keeps input.
Proof.
  apply fixes_keeps. intros w. unfold input.
  destruct (w_stdin w) as [| [s |] rest]; reflexivity.
Qed.

Lemma keeps_ask_yes_no default : keeps (ask_yes_no default).
Proof.
  apply fixes_keeps. intros w.
  destruct (ask_yes_no default w) as [r w'] eqn:E.
  apply (ask_yes_no_spec _ _ _ _ E).
Qed.

Section ProgramKeeps.

Variable rand : nat -> Z.
Variable fault_at : nat -> fault.

Lemma keeps_stat_size : keeps (stat_size fault_at).
Proof.
  apply fixes_keeps. intros w. unfold stat_size, file_op.
  destruct (fault_at (w_io w)); simpl; try reflexivity.
  destruct (w_target w) eqn:Ht; simpl; exact Ht.
Qed.

Lemma keeps_corrupt_file fuel step_kb destroy_bytes make_backup :
  keeps (corrupt_file rand fault_at fuel step_kb destroy_bytes make_backup).
Proof.
  intros c w [c1 [Ht [Hlen Hn]]].
  destruct (corrupt_file rand fault_at fuel step_kb destroy_bytes
              make_backup w) as [r w'] eqn:E.
  destruct (corrupt_file_spec _ _ _ _ _ _ _ _ _ _ Ht E) as [Hk _].
  simpl. eapply kept_trans; [exact Hk | exact Hlen | exact Hn].
Qed.

Lemma keeps_parse_step text (otherwise : M Z) :
  keeps otherwise -> keeps (parse_step text otherwise).
Proof.
  intros Ho. unfold parse_step. apply keeps_try.
  - apply keeps_bind; [apply keeps_lift|].
    intros k. destruct (k <=? 0); [apply keeps_raise | apply keeps_ret].
  - intros e k. destruct (is_ValueError e); [|discriminate].
    intros E. inversion E; subst. apply keeps_try.
    + apply keeps_bind; [apply keeps_lift | intros n; apply keeps_ret].
    + intros e' k'. destruct (is_Exception e'); [|discriminate].
      intros E'. inversion E'; subst. exact Ho.
Qed.

Lemma keeps_cli_run fuel args : keeps (cli_run rand fault_at fuel args).
Proof.
  unfold cli_run.
  apply keeps_bind; [apply fixes_keeps; intros w; reflexivity|].
  intros there. destruct (negb there); [apply keeps_raise|].
  apply keeps_bind; [apply fixes_keeps; intros w; reflexivity|].
  intros is_file. destruct (negb is_file); [apply keeps_raise|].
  apply keeps_bind; [apply keeps_parse_step, keeps_raise|].
  intros step_kb. destruct (a_destroy args <=? 0); [apply keeps_raise|].
  apply keeps_bind.
  { destruct (a_no_backup args); [|apply keeps_ret].
    apply keeps_bind; [apply keeps_ask_yes_no|].
    intros ok. destruct (negb ok); [apply keeps_raise | apply keeps_ret]. }
  intros _. apply keeps_bind; [apply keeps_stat_size|].
  intros _. apply keeps_bind; [apply keeps_ask_yes_no|].
  intros ok. destruct (negb ok); [apply keeps_raise|].
  apply keeps_corrupt_file.
Qed.

Lemma keeps_parse_args line : keeps (parse_args line).
Proof. destruct line; [apply keeps_ret | apply keeps_raise ..]. Qed.

Lemma keeps_cli_main fuel line : keeps (cli_main rand fault_at fuel line).
Proof.
  unfold cli_main. apply keeps_bind; [apply keeps_parse_args|].
  intros args. apply keeps_cli_run.
Qed.

Lemma keeps_interactive_mode fuel :
  keeps (interactive_mode rand fault_at fuel).
Proof.
  unfold interactive_mode. apply keeps_try.
  2:{ intros e k. destruct (is_Exception e); [|discriminate].
      intros E. inversion E; subst. apply keeps_raise. }
  apply keeps_bind; [apply keeps_input|].
  intros file_path. destruct (Str.is_empty _); [apply keeps_raise|].
  apply keeps_bind; [apply fixes_keeps; intros w; reflexivity|].
  intros there. destruct (negb there); [apply keeps_raise|].
  apply keeps_bind; [apply fixes_keeps; intros w; reflexivity|].
  intros is_file. destruct (negb is_file); [apply keeps_raise|].
  apply keeps_bind; [apply keeps_stat_size|].
  intros _. apply keeps_bind; [apply keeps_input|].
  intros step_line. apply keeps_bind.
  { destruct (Str.is_empty _); [apply keeps_ret|].
    apply keeps_parse_step, keeps_raise. }
  intros step_kb. apply keeps_bind; [apply keeps_input|].
  intros destroy_line. apply keeps_bind.
  { destruct (Str.is_empty _); [apply keeps_ret|].
    apply keeps_try.
    - apply keeps_bind; [apply keeps_lift|].
      intros d. destruct (d <=? 0); [apply keeps_raise | apply keeps_ret].
    - intros e k. destruct (is_ValueError e); [|discriminate].
      intros E. inversion E; subst. apply keeps_raise. }
  intros destroy_bytes. apply keeps_bind; [apply keeps_input|].
  intros disable_line. apply keeps_bind; [apply keeps_ask_yes_no|].
  intros ok. destruct (negb ok); [apply keeps_ret|].
  apply keeps_corrupt_file.
Qed.

Lemma keeps_main fuel m : keeps (main rand fault_at fuel m).
Proof.
  unfold main. apply keeps_try.
  - destruct m; [apply keeps_cli_main | apply keeps_interactive_mode].
  - intros e k E.
    assert (Hk : k = sys_exit 1).
    { destruct e; simpl in E; inversion E; reflexivity. }
    subst k. apply keeps_raise.
Qed.

End ProgramKeeps.

(** ** The claims about the walker and the mutator *)

Lemma kept_same_protected c w :
  kept c w -> exists c', w_target w = Regular c' /\ same_protected c c'.
Proof.
  intros [c' [Ht [Hlen Hn]]]. exists c'. split; [exact Ht|].
  split; [exact Hlen|]. intros i Hi. apply Hn. lia.
Qed.

(** C1: in a run on a regular file of more than 2048 bytes, with a positive
    step and a positive destroy count, every byte at an index of [0, 1024)
    or of [size - 1024, size) has after the run the value it had before,
    however the run ends; and with a fair random source and no fault the
    run does end.  The same holds for the whole program, in both front
    ends. *)
Theorem protected_bytes_unchanged
  (rand : nat -> Z) (fault_at : nat -> fault)
  (step_kb destroy_bytes : Z) (make_backup : bool) (w : world) (c : list Z) :
  w_target w = Regular c ->
  Z.of_nat (List.length c) > 2048 ->
  step_kb > 0 -> destroy_bytes > 0 ->
  (forall fuel r w',
     corrupt_file rand fault_at fuel step_kb destroy_bytes make_backup w
     = (r, w') ->
     exists c', w_target w' = Regular c' /\ same_protected c c') /\
  (fair rand -> fault_free fault_at ->
   exists fuel w',
     corrupt_file rand fault_at fuel step_kb destroy_bytes make_backup w
     = (Ret tt, w')) /\
  (forall fuel m backup stdin,
     exists c',
       w_target (snd (run rand fault_at fuel m (Regular c) backup stdin))
       = Regular c' /\ same_protected c c').
Proof.
  intros Ht Hbig Hstep Hd. split; [|split].
  - intros fuel r w' E. apply kept_same_protected.
    apply (corrupt_file_spec _ _ _ _ _ _ _ _ _ _ Ht E).
  - intros Hfair Hff.
    apply (corrupt_file_completes rand fault_at Hfair step_kb destroy_bytes
             make_backup w c Hff Ht). lia.
  - intros fuel m backup stdin. apply kept_same_protected.
    unfold run.
    pose proof (keeps_main rand fault_at fuel m c
                  (init_world (Regular c) backup stdin)
                  (kept_same c (init_world (Regular c) backup stdin)
                     eq_refl)) as Hk.
    destruct (main rand fault_at fuel m _) as [r w']. exact Hk.
Qed.

Lemma protected_bytes_unchanged_witness :
  w_target (init_world (blank_file 3000) None []) = blank_file 3000 /\
  Z.of_nat (List.length (repeat 0 (Z.to_nat 3000))) > 2048 /\
  1 > 0 /\ 4 > 0 /\
  (forall fuel r w',
     corrupt_file counting no_fault fuel 1 4 true
       (init_world (blank_file 3000) None []) = (r, w') ->
     exists c', w_target w' = Regular c' /\
                same_protected (repeat 0 (Z.to_nat 3000)) c').
Proof.
  split; [reflexivity|]. split; [vm_compute; reflexivity|].
  split; [lia|]. split; [lia|].
  apply (protected_bytes_unchanged counting no_fault 1 4 true
           (init_world (blank_file 3000) None [])
           (repeat 0 (Z.to_nat 3000)));
    [reflexivity | vm_compute; reflexivity | lia | lia].
Defined.

(** C2: for every sequence of bytes the mutator gives, whenever it returns,
    a sequence of the same length whose every byte is a byte other than the
    one at the same place of the input; it raises nothing, and with a fair
    random source it does return. *)
Theorem mutator_changes_every_byte
  (rand : nat -> Z) (original_bytes : list Z) (w : world) :
  fair rand ->
  (forall fuel r w',
     mutate rand fuel original_bytes w = (r, w') ->
     (forall e, r <> Raise e) /\
     forall out, r = Ret out ->
       List.length out = List.length original_bytes /\
       Forall2 (fun b v => v <> b /\ 0 <= v < 256) original_bytes out) /\
  (exists fuel out w',
     mutate rand fuel original_bytes w = (Ret out, w') /\
     List.length out = List.length original_bytes /\
     Forall2 (fun b v => v <> b /\ 0 <= v < 256) original_bytes out).
Proof.
  intros Hfair. split.
  - intros fuel r w' E.
    destruct (mutate_spec rand fuel original_bytes w r w' E) as [_ H].
    exact H.
  - destruct (mutate_converges rand original_bytes Hfair w)
      as [fuel [Hend _]].
    destruct (mutate rand fuel original_bytes w) as [r w'] eqn:E.
    destruct (mutate_spec rand fuel original_bytes w r w' E)
      as [_ [Hr Hout]].
    destruct r as [out | e |].
    + exists fuel, out, w'. split; [exact E|]. apply Hout. reflexivity.
    + exfalso. exact (Hr e eq_refl).
    + exfalso. apply Hend. reflexivity.
Qed.

Lemma mutator_changes_every_byte_witness :
  fair counting /\
  (forall fuel r w',
     mutate counting fuel [0; 1; 255; 3]
       (init_world (blank_file 0) None []) = (r, w') ->
     (forall e, r <> Raise e) /\
     forall out, r = Ret out ->
       List.length out = List.length [0; 1; 255; 3] /\
       Forall2 (fun b v => v <> b /\ 0 <= v < 256) [0; 1; 255; 3] out) /\
  (exists fuel out w',
     mutate counting fuel [0; 1; 255; 3]
       (init_world (blank_file 0) None []) = (Ret out, w') /\
     List.length out = List.length [0; 1; 255; 3] /\
     Forall2 (fun b v => v <> b /\ 0 <= v < 256) [0; 1; 255; 3] out).
Proof.
  split; [exact counting_fair|].
  exact (mutator_changes_every_byte counting [0; 1; 255; 3]
           (init_world (blank_file 0) None []) counting_fair).
Defined.



(** C9: the target is as long after a run as before it, however the run
    ends (completion, I/O fault, interrupt, or a loop that does not end):
    for the walker and for the whole program.  A window that is rewritten
    gets, at the offset that was read, as many bytes as were read there,
    and such a write keeps the length of the file. *)
Theorem file_size_invariant
  (rand : nat -> Z) (fault_at : nat -> fault) (fuel : nat) (c : list Z) :
  (forall step_kb destroy_bytes make_backup w r w',
     w_target w = Regular c ->
     corrupt_file rand fault_at fuel step_kb destroy_bytes make_backup w
     = (r, w') ->
     exists c', w_target w' = Regular c' /\
                List.length c' = List.length c) /\
  (forall m backup stdin,
     exists c',
       w_target (snd (run rand fault_at fuel m (Regular c) backup stdin))
       = Regular c' /\
       List.length c' = List.length c) /\
  (forall (a n : Z) w w',
     w_target w = Regular c ->
     1024 <= a -> 0 < n -> a + n <= Z.of_nat (List.length c) - 1024 ->
     (f_seek fault_at a ;;
      original_bytes <- f_read fault_at n ;;
      new_bytes <- mutate rand fuel original_bytes ;;
      f_seek fault_at a ;;
      f_write fault_at new_bytes) w = (Ret tt, w') ->
     exists new_bytes,
       w_target w' = Regular (write_at (Z.to_nat a) new_bytes c) /\
       List.length new_bytes = Z.to_nat n /\
       List.length (write_at (Z.to_nat a) new_bytes c) = List.length c).
Proof.
  split; [|split].
  - intros step_kb destroy_bytes make_backup w r w' Ht E.
    destruct (corrupt_file_spec _ _ _ _ _ _ _ _ _ _ Ht E)
      as [[c' [Ht' [Hlen _]]] _].
    exists c'. split; assumption.
  - intros m backup stdin. unfold run.
    pose proof (keeps_main rand fault_at fuel m c
                  (init_world (Regular c) backup stdin)
                  (kept_same c (init_world (Regular c) backup stdin)
                     eq_refl)) as [c' [Ht' [Hlen _]]].
    destruct (main rand fault_at fuel m _) as [r w'].
    exists c'. split; assumption.
  - intros a n w w' Ht Ha Hn Hfit E.
    destruct (rewrite_done rand fault_at fuel a n w c w' Ht Ha Hn Hfit E)
      as [new_bytes [Ht' [Hlen _]]].
    exists new_bytes. split; [exact Ht'|]. split; [exact Hlen|].
    apply write_at_length. lia.
Qed.

(** ** The size literal *)

Lemma drop_index_after_numeric (c : ascii) (rest : string) :
  numeric c = false ->
  forall pre, all_numeric pre = true ->
    Str.drop (Str.index c (String.append pre (String c rest)))
             (String.append pre (String c rest))
    = String c rest.
Proof.
  intros Hc. induction pre as [| d pre IH]; simpl; intros Hpre.
  - rewrite Ascii.eqb_refl. reflexivity.
  - apply andb_true_iff in Hpre. destruct Hpre as [Hd Hpre].
    destruct (Ascii.eqb d c) eqn:E.
    + apply Ascii.eqb_eq in E. subst d. congruence.
    + simpl. apply IH. exact Hpre.
Qed.

Lemma upper_idempotent s : Str.upper (Str.upper s) = Str.upper s.
Proof.
  unfold Str.upper.
  induction s as [| c s IH]; simpl; [reflexivity|]. rewrite IH.
  assert (Hc : Str.upper_char (Str.upper_char c) = Str.upper_char c).
  { destruct c as [b0 b1 b2 b3 b4 b5 b6 b7].
    destruct b0, b1, b2, b3, b4, b5, b6, b7; reflexivity. }
  rewrite Hc. reflexivity.
Qed.

Lemma append_assoc_char pre c rest :
  String.append (String.append pre (String c EmptyString)) rest
  = String.append pre (String c rest).
Proof. induction pre as [| d pre IH]; simpl; [|rewrite IH]; reflexivity. Qed.

Lemma all_numeric_snoc pre c :
  all_numeric pre = true -> numeric c = true ->
  all_numeric (String.append pre (String c EmptyString)) = true.
Proof.
  induction pre as [| d pre IH]; simpl; intros Hpre Hc.
  - rewrite Hc. reflexivity.
  - apply andb_true_iff in Hpre. destruct Hpre as [Hd Hpre].
    rewrite Hd. simpl. apply IH; assumption.
Qed.

(** The unit that the loop of [parse_size_str] finds is the suffix from the
    first character that is neither a digit nor a dot: [s.index(c)] is the
    place of that character, since none before it is equal to it. *)
Lemma scan_size_unit : forall rest pre num,
  all_numeric pre = true ->
  snd (scan_size (String.append pre rest) rest num)
  = match unit_suffix rest with
    | None => "KB"
    | Some u => Str.upper u
    end.
Proof.
  induction rest as [| c rest IH]; intros pre num Hpre; simpl.
  - reflexivity.
  - fold (numeric c). destruct (numeric c) eqn:Hc.
    + rewrite <- (append_assoc_char pre c rest).
      apply IH. apply all_numeric_snoc; assumption.
    + simpl. rewrite drop_index_after_numeric by assumption. reflexivity.
Qed.

Lemma size_unit_spec s :
  size_unit s
  = match unit_suffix (Str.upper (Str.strip s)) with
    | None => "KB"
    | Some u => u
    end.
Proof.
  unfold size_unit.
  pose proof (scan_size_unit (Str.upper (Str.strip s)) "" "" eq_refl) as Hu.
  change (String.append "" (Str.upper (Str.strip s)))
    with (Str.upper (Str.strip s)) in Hu.
  rewrite Hu. clear Hu.
  destruct (unit_suffix (Str.upper (Str.strip s))) as [u |] eqn:E;
    [|reflexivity].
  assert (H : forall t v, unit_suffix (Str.upper t) = Some v ->
                          Str.upper v = v).
  { induction t as [| c t IH]; simpl; intros v Hv; [discriminate|].
    destruct (numeric (Str.upper_char c)).
    - apply IH. exact Hv.
    - inversion Hv; subst.
      change (Str.upper (Str.upper (String c t)) = Str.upper (String c t)).
      apply upper_idempotent. }
  apply (H _ _ E).
Qed.

Lemma py_float_raises num e :
  Num.py_float num = Raise e -> e = ValueError.
Proof.
  unfold Num.py_float. destruct (Num.decimal num 0 None false) as [[m k] |];
    intros H; inversion H; reflexivity.
Qed.

Lemma py_float_ends num : Num.py_float num <> Diverge.
Proof.
  unfold Num.py_float. destruct (Num.decimal num 0 None false) as [[m k] |];
    discriminate.
Qed.

Lemma parse_size_str_unit s :
  (size_unit s <> "KB" -> size_unit s <> "B" ->
   parse_size_str s = Raise ValueError) /\
  (forall n, parse_size_str s = Ret n ->
             size_unit s = "KB" \/ size_unit s = "B").
Proof.
  unfold parse_size_str, size_unit.
  destruct (scan_size (Str.upper (Str.strip s)) (Str.upper (Str.strip s)) "")
    as [num unit]. simpl.
  destruct (Num.py_float (if Str.is_empty num then "1" else num))
    as [x | e |] eqn:Ef; simpl.
  - destruct (String.eqb unit "KB") eqn:E1.
    + apply String.eqb_eq in E1. split; [congruence | auto].
    + destruct (String.eqb unit "B") eqn:E2.
      * apply String.eqb_eq in E2. split; [congruence | auto].
      * split; [reflexivity | discriminate].
  - apply py_float_raises in Ef. subst e. split; [reflexivity | discriminate].
  - exfalso. exact (py_float_ends _ Ef).
Qed.

(** The parser on some literals.  The value goes through a binary64
    number, as in the source: 0.1 KB is 102 bytes. *)
Example parse_size_str_2KB : parse_size_str "2KB" = Ret 2048.
Proof. vm_compute. reflexivity. Qed.

Example parse_size_str_bare : parse_size_str "512" = Ret 524288.
Proof. vm_compute. reflexivity. Qed.

Example parse_size_str_bytes : parse_size_str " 512b " = Ret 512.
Proof. vm_compute. reflexivity. Qed.

Example parse_size_str_tenth : parse_size_str "0.1" = Ret 102.
Proof. vm_compute. reflexivity. Qed.

Example parse_size_str_fraction : parse_size_str "1.5kb" = Ret 1536.
Proof. vm_compute. reflexivity. Qed.

Example parse_size_str_rounds :
  parse_size_str "0.99999999999999999999B" = Ret 1.
Proof. vm_compute. reflexivity. Qed.

Example parse_size_str_megabytes : parse_size_str "5MB" = Raise ValueError.
Proof. vm_compute. reflexivity. Qed.

Example parse_size_str_two_dots : parse_size_str "1.2.3" = Raise ValueError.
Proof. vm_compute. reflexivity. Qed.

Example parse_size_str_unit_only : parse_size_str "KB" = Ret 1024.
Proof. vm_compute. reflexivity. Qed.

Lemma parse_step_literals (otherwise : M Z) w :
  parse_step "1KB" otherwise w = (Ret 1, w) /\
  parse_step "2KB" otherwise w = (Ret 2, w) /\
  parse_step "512" otherwise w = (Ret 512, w).
Proof. repeat split; reflexivity. Qed.

(** ** Small files and the step of zero kilobytes *)

(** A file of at most 2048 bytes has no window, for any positive step. *)
Lemma no_window_in_small_file (file_size step_bytes total : Z) :
  file_size <= 2048 -> 0 < step_bytes ->
  total_steps file_size step_bytes = Ret total ->
  py_range total = [].
Proof.
  intros Hsmall Hsb. unfold total_steps.
  destruct (step_bytes =? 0) eqn:E0; [discriminate|].
  intros Et. inversion Et as [Etot]. unfold py_range.
  replace (Z.to_nat _) with O; [reflexivity|].
  pose proof (Z.mod_pos_bound (file_size - 2048) step_bytes Hsb) as Hm.
  pose proof (Z.div_mod (file_size - 2048) step_bytes ltac:(lia)) as Hdm.
  destruct ((file_size - 2048) mod step_bytes =? 0) eqn:Em; simpl.
  - apply Z.eqb_eq in Em.
    assert ((file_size - 2048) / step_bytes <= 0) by nia. lia.
  - apply Z.eqb_neq in Em.
    assert ((file_size - 2048) / step_bytes < 0) by nia. lia.
Qed.

(** Without faults, the walker on a regular file of at most 2048 bytes makes
    the backup, opens the file and returns. *)
Lemma corrupt_file_small (rand : nat -> Z) (fault_at : nat -> fault)
  fuel (step_kb destroy_bytes : Z) w c :
  fault_free fault_at ->
  w_target w = Regular c ->
  Z.of_nat (List.length c) <= 2048 ->
  0 < step_kb ->
  corrupt_file rand fault_at fuel step_kb destroy_bytes true w
  = (Ret tt,
     set_pos 0 (bump_io (set_backup (Some c) (bump_io (bump_io w))))).
Proof.
  intros Hff Ht Hsmall Hpos. unfold corrupt_file.
  unfold bind at 1. unfold stat_size at 1, file_op at 1.
  rewrite Hff. simpl. rewrite Ht.
  unfold bind at 1. unfold lift at 1.
  destruct (total_steps (Z.of_nat (List.length c)) (step_kb * 1024))
    as [total | e |] eqn:Et.
  2,3: unfold total_steps in Et;
       destruct (step_kb * 1024 =? 0) eqn:E0;
       [apply Z.eqb_eq in E0; lia | discriminate].
  rewrite (no_window_in_small_file (Z.of_nat (List.length c))
             (step_kb * 1024) total Hsmall ltac:(lia) Et).
  unfold bind at 1. unfold backup_step, try_except.
  unfold bind at 1. unfold copy2 at 1, file_op at 1.
  rewrite Hff. simpl. rewrite Ht. simpl.
  unfold bind at 1. unfold open_rw at 1, file_op at 1.
  rewrite Hff. simpl. rewrite Ht. reflexivity.
Qed.

(** C5: what the code does on a file of exactly 2048 bytes.  The number of
    windows is 0, so the loop never calls the planner and its refusal of
    small files is never reached: the walker makes the backup, opens the
    file, walks nothing and returns normally; from the command line the
    program ends with the exit status 0.  No byte of the target changes.
    The same holds for every regular file of at most 2048 bytes and every
    positive step, when the file system does not fail. *)
Theorem small_file_is_not_rejected :
  total_steps 2048 (1 * 1024) = Ret 0 /\
  (let '(r, w') :=
     corrupt_file counting no_fault 0 1 4 true
       (init_world (blank_file 2048) None []) in
   r = Ret tt /\
   w_backup w' = Some (repeat 0 (Z.to_nat 2048)) /\
   w_target w' = blank_file 2048 /\
   w_io w' = 3%nat) /\
  (let '(status, w') :=
     run counting no_fault 0
       (CommandLine (Namespace (mkArgs "target.bin" "1KB" 4 false)))
       (blank_file 2048) None [Line ""] in
   status = Some 0 /\
   w_backup w' = Some (repeat 0 (Z.to_nat 2048)) /\
   w_target w' = blank_file 2048) /\
  protect_region_check counting 2048 1024 4
    (init_world (blank_file 2048) None [])
  = (Raise ValueError, init_world (blank_file 2048) None []) /\
  (forall rand fault_at fuel step_kb destroy_bytes w c,
     fault_free fault_at ->
     w_target w = Regular c ->
     Z.of_nat (List.length c) <= 2048 ->
     0 < step_kb ->
     exists w',
       corrupt_file rand fault_at fuel step_kb destroy_bytes true w
       = (Ret tt, w') /\
       w_backup w' = Some c /\ w_target w' = Regular c).
Proof.
  split; [reflexivity|].
  split; [vm_compute; auto|].
  split; [vm_compute; auto|].
  split; [reflexivity|].
  intros rand fault_at fuel step_kb d w c Hff Ht Hsmall Hpos.
  eexists. split; [apply corrupt_file_small; eassumption|].
  simpl. split; [reflexivity | exact Ht].
Qed.

(** The walker with a step of zero kilobytes: the division fails right
    after the size is read, before the backup and before the file is
    opened. *)
Lemma corrupt_file_zero_step (rand : nat -> Z) (fault_at : nat -> fault)
  fuel destroy_bytes make_backup w r w' :
  corrupt_file rand fault_at fuel 0 destroy_bytes make_backup w = (r, w') ->
  w_backup w' = w_backup w /\
  w_target w' = w_target w /\
  w_pos w' = w_pos w /\
  w_io w' = S (w_io w) /\
  r <> Ret tt /\
  (forall c, w_target w = Regular c -> fault_at (w_io w) = NoFault ->
             r = Raise ZeroDivisionError).
Proof.
  unfold corrupt_file, bind, stat_size, file_op, lift, total_steps. simpl.
  destruct (fault_at (w_io w)) eqn:F.
  - destruct (w_target w) as [| sz | c] eqn:Ht; simpl;
      intros E; inversion E; subst; simpl;
      repeat split; auto; discriminate.
  - intros E. inversion E; subst. simpl.
    repeat split; auto; discriminate.
  - intros E. inversion E; subst. simpl.
    repeat split; auto; discriminate.
Qed.

Lemma parse_step_small_literal (text : string) (n : Z) (otherwise : M Z) w :
  Num.py_int text = Raise ValueError ->
  parse_size_str text = Ret n ->
  0 <= n < 1024 ->
  parse_step text otherwise w = (Ret 0, w).
Proof.
  intros Hint Hsize Hn. unfold parse_step, try_except, bind, lift.
  rewrite Hint. simpl. rewrite Hsize. unfold ret.
  rewrite Z.div_small by lia. reflexivity.
Qed.

(** C6, as the claim states it, fails: no step input that is accepted as a
    step of zero kilobytes makes the walker fail with the division by zero
    after it has made a backup; the backup is as it was before the run. *)
Lemma zero_step_never_fails_after_the_backup :
  ~ (exists (text : string) (rand : nat -> Z) (fault_at : nat -> fault)
            (fuel : nat) (destroy_bytes : Z) (make_backup : bool)
            (w0 w w' : world),
       parse_step text (sys_exit 1) w0 = (Ret 0, w) /\
       corrupt_file rand fault_at fuel 0 destroy_bytes make_backup w
       = (Raise ZeroDivisionError, w') /\
       w_backup w' <> w_backup w).
Proof.
  intros [text [rand [fault_at [fuel [d [mb [w0 [w [w' [_ [E Hb]]]]]]]]]]].
  apply Hb. apply (corrupt_file_zero_step _ _ _ _ _ _ _ _ E).
Qed.

(** C6, as the code has it: a size literal that [int] refuses and that
    stands for fewer than 1024 bytes, such as 512B, is accepted by both
    front ends as a step of zero kilobytes; the walker then divides by zero
    right after it has read the size of the file, before it makes the
    backup and before it opens the target, so that the backup and the
    target are as they were; from the command line the program ends with
    the exit status 1. *)
Theorem zero_step_divides_before_the_backup :
  Num.py_int "512B" = Raise ValueError /\
  parse_size_str "512B" = Ret 512 /\
  (forall text n otherwise w,
     Num.py_int text = Raise ValueError ->
     parse_size_str text = Ret n ->
     0 <= n < 1024 ->
     parse_step text otherwise w = (Ret 0, w)) /\
  (forall rand fault_at fuel destroy_bytes make_backup w r w',
     corrupt_file rand fault_at fuel 0 destroy_bytes make_backup w
     = (r, w') ->
     w_backup w' = w_backup w /\
     w_target w' = w_target w /\
     w_pos w' = w_pos w /\
     w_io w' = S (w_io w) /\
     r <> Ret tt /\
     (forall c, w_target w = Regular c -> fault_at (w_io w) = NoFault ->
                r = Raise ZeroDivisionError)) /\
  (forall rand fuel destroy_bytes c,
     destroy_bytes > 0 ->
     exists w',
       run rand no_fault fuel
         (CommandLine
            (Namespace (mkArgs "target.bin" "512B" destroy_bytes false)))
         (Regular c) None [Line ""]
       = (Some 1, w') /\
       w_backup w' = None /\ w_target w' = Regular c).
Proof.
  split; [vm_compute; reflexivity|].
  split; [vm_compute; reflexivity|].
  split; [intros; eapply parse_step_small_literal; eassumption|].
  split; [intros; eapply corrupt_file_zero_step; eassumption|].
  intros rand fuel d c Hd.
  assert (Hd' : (d <=? 0) = false) by (apply Z.leb_gt; lia).
  unfold run, main, try_except. rewrite cli_main_namespace.
  unfold cli_run. simpl a_step. simpl a_destroy. simpl a_no_backup.
  unfold bind at 1. simpl.
  unfold bind at 1. simpl.
  unfold bind at 1.
  rewrite (parse_step_small_literal "512B" 512 _ _
             ltac:(vm_compute; reflexivity) ltac:(vm_compute; reflexivity)
             ltac:(lia)).
  rewrite Hd'.
  unfold bind at 1. unfold ret at 1.
  unfold bind at 1. unfold stat_size at 1, file_op at 1, no_fault at 1.
  simpl.
  eexists. split; [reflexivity|]. split; reflexivity.
Qed.

(** ** Cancelling *)






(** [same_raise] closes a goal about [Raise e] from a hypothesis that says
    the same at another result type. *)
Ltac same_raise :=
  first
    [ assumption
    | reflexivity
    | discriminate
    | match goal with
      | H : Raise _ = Raise _ |- _ => inversion H; subst; reflexivity
      end
    | congruence ].











Lemma strict_bind {A B} (m : M A) (f : A -> M B) :
  strict m -> (forall a, strict (f a)) -> strict (bind m f).
Proof.
  intros Hm Hf w r w' Hc. unfold bind.
  destruct (m w) as [[a | e |] w1] eqn:E1; intros E;
    destruct (Hm _ _ _ Hc E1) as [[Hc1 Hr1] | [[Hr1 Hi1] | [Hr1 Hd1]]];
    try discriminate.
  - exact (Hf a _ _ _ Hc1 E).
  - inversion E; subst. left. split; same_raise.
  - inversion E; subst. right. left. split; same_raise.
  - inversion E; subst. right. right. split; same_raise.
  - inversion E; subst. left. split; [assumption | discriminate].
Qed.








Section Cancelling.

Variable rand : nat -> Z.
Variable fault_at : nat -> fault.


























End Cancelling.

(** * More properties of the program *)

Lemma same_outside_refl lo hi c : same_outside lo hi c c.
Proof. split; auto. Qed.

Lemma write_at_nth_inside pos data content k :
  (pos + List.length data <= List.length content)%nat ->
  (k < List.length data)%nat ->
  nth (pos + k) (write_at pos data content) 0 = nth k data 0.
Proof.
  intros H Hk. unfold write_at.
  replace (pos - List.length content)%nat with O by lia. simpl.
  assert (Hl : List.length (firstn pos content) = pos)
    by (rewrite length_firstn; lia).
  rewrite app_nth2 by lia. rewrite Hl.
  replace (pos + k - pos)%nat with k by lia.
  apply app_nth1. exact Hk.
Qed.

Lemma Forall2_nth {A B} (R : A -> B -> Prop) (da : A) (db : B) :
  forall l1 l2, Forall2 R l1 l2 ->
  forall k, (k < List.length l1)%nat -> R (nth k l1 da) (nth k l2 db).
Proof.
  induction 1 as [| x y l1 l2 Hxy _ IH]; intros k Hk; simpl in Hk; [lia|].
  destruct k as [| k]; simpl; [exact Hxy | apply IH; lia].
Qed.

Lemma write_at_same_outside (a n : Z) data c :
  0 <= a -> 0 <= n ->
  a + n <= Z.of_nat (List.length c) ->
  (List.length data <= Z.to_nat n)%nat ->
  same_outside a (a + n) c (write_at (Z.to_nat a) data c).
Proof.
  intros Ha Hn Hfit Hd. split.
  - apply write_at_length. lia.
  - intros i Hi Hout. apply write_at_nth; lia.
Qed.

Lemma write_at_all_differ (a n : Z) data c :
  0 <= a -> 0 <= n ->
  a + n <= Z.of_nat (List.length c) ->
  List.length data = Z.to_nat n ->
  Forall2 (fun b v => v <> b /\ 0 <= v < 256)
    (firstn (Z.to_nat n) (skipn (Z.to_nat a) c)) data ->
  all_differ a (a + n) c (write_at (Z.to_nat a) data c).
Proof.
  intros Ha Hn Hfit Hlen Hall i Hi.
  replace (Z.to_nat i) with (Z.to_nat a + Z.to_nat (i - a))%nat by lia.
  rewrite write_at_nth_inside by lia.
  assert (Hk : (Z.to_nat (i - a)
                < List.length (firstn (Z.to_nat n) (skipn (Z.to_nat a) c)))%nat).
  { rewrite length_firstn, length_skipn. lia. }
  pose proof (Forall2_nth _ 0 0 _ _ Hall _ Hk) as [Hne _].
  rewrite nth_firstn in Hne.
  destruct (Z.to_nat (i - a) <? Z.to_nat n)%nat eqn:E;
    [|apply Nat.ltb_ge in E; lia].
  rewrite nth_skipn in Hne. exact Hne.
Qed.

Section Precise.

Variable rand : nat -> Z.
Variable fault_at : nat -> fault.

(** Reading, substituting and writing back [n] bytes at [a]: however the
    five operations end, nothing changes outside [a, a + n); when they all
    succeed, every byte of [a, a + n) changes. *)
Lemma rewrite_precise fuel (a n : Z) w c r w' :
  w_target w = Regular c ->
  0 <= a -> 0 < n -> a + n <= Z.of_nat (List.length c) ->
  (f_seek fault_at a ;;
   original_bytes <- f_read fault_at n ;;
   new_bytes <- mutate rand fuel original_bytes ;;
   f_seek fault_at a ;;
   f_write fault_at new_bytes) w = (r, w') ->
  exists c',
    w_target w' = Regular c' /\
    same_outside a (a + n) c c' /\
    (r = Ret tt -> all_differ a (a + n) c c').
Proof.
  intros Ht Ha Hn Hfit.
  assert (Hsame : forall w1 r1, w_target w1 = Regular c -> r1 <> Ret tt ->
            exists c', w_target w1 = Regular c' /\
                       same_outside a (a + n) c c' /\
                       (r1 = Ret tt -> all_differ a (a + n) c c')).
  { intros w1 r1 H1 H2. exists c. split; [exact H1|].
    split; [apply same_outside_refl | intros; contradiction]. }
  assert (Ha0 : (a <? 0) = false) by (apply Z.ltb_ge; lia).
  assert (Hn0 : (n <? 0) = false) by (apply Z.ltb_ge; lia).
  unfold bind at 1. unfold f_seek at 1, file_op at 1. rewrite Ha0.
  destruct (fault_at (w_io w)) eqn:F1;
    try (intros E; inversion E; subst; apply Hsame;
         [exact Ht | discriminate]).
  unfold bind at 1. unfold f_read at 1, file_op at 1. simpl.
  rewrite Ht, Hn0.
  destruct (fault_at (S (w_io w))) eqn:F2;
    try (intros E; inversion E; subst; apply Hsame;
         [exact Ht | discriminate]).
  set (data := firstn (Z.to_nat n) (skipn (Z.to_nat a) c)).
  assert (Hdata : List.length data = Z.to_nat n).
  { unfold data. rewrite length_firstn, length_skipn. lia. }
  unfold bind at 1.
  match goal with
  | |- context [mutate rand fuel data ?w3] =>
      destruct (mutate rand fuel data w3) as [r4 w4] eqn:E4;
      destruct (mutate_spec rand fuel data w3 r4 w4 E4) as [Hf4 [Hr4 Ho4]]
  end.
  destruct (rng_only_fields _ _ Hf4) as [T4 [B4 [P4 [I4 [S4 L4]]]]].
  simpl in T4, B4, P4, I4, S4, L4.
  destruct r4 as [new_bytes | e4 |].
  2:{ exfalso. eapply Hr4. reflexivity. }
  2:{ intros E. inversion E; subst. apply Hsame;
        [congruence | discriminate]. }
  destruct (Ho4 new_bytes eq_refl) as [Hlen Hall].
  unfold bind at 1. unfold f_seek at 1, file_op at 1. rewrite Ha0, I4.
  destruct (fault_at (S (S (w_io w)))) eqn:F3;
    try (intros E; inversion E; subst; apply Hsame;
         [simpl; congruence | discriminate]).
  unfold f_write, file_op, put_bytes. simpl. rewrite T4, Ht, I4.
  destruct (fault_at (S (S (S (w_io w))))) eqn:F4; intros E; inversion E;
    subst; simpl.
  - eexists. split; [reflexivity|]. split.
    + apply write_at_same_outside; lia.
    + intros _. apply write_at_all_differ; try lia; try congruence.
      exact Hall.
  - eexists. split; [reflexivity|]. split.
    + apply write_at_same_outside; try lia. rewrite length_firstn. lia.
    + discriminate.
  - exists c. split; [simpl; congruence|].
    split; [apply same_outside_refl | discriminate].
Qed.

(** One window, precisely: the bytes that change lie in a run of
    [window_count] bytes inside the first 1024 bytes of the stride and
    inside the safe region; when the turn succeeds all of them change. *)
Lemma corrupt_step_precise fuel (step_bytes destroy_bytes idx : Z) w c r w' :
  w_target w = Regular c ->
  Z.of_nat (List.length c) > 2048 ->
  corrupt_step rand fault_at fuel (Z.of_nat (List.length c)) step_bytes
    destroy_bytes idx w = (r, w') ->
  let pos := 1024 + idx * step_bytes in
  let count := window_count (Z.of_nat (List.length c)) pos destroy_bytes in
  exists a c',
    w_target w' = Regular c' /\
    pos <= a /\ a + count <= pos + 1024 /\ 0 <= count /\
    (0 < count -> 1024 <= a /\ a + count <= Z.of_nat (List.length c) - 1024) /\
    same_outside a (a + count) c c' /\
    (r = Ret tt -> all_differ a (a + count) c c').
Proof.
  intros Ht Hbig. unfold corrupt_step. rewrite bind_log.
  set (pos := 1024 + idx * step_bytes).
  set (w0 := add_log (Window idx pos) w).
  assert (Ht0 : w_target w0 = Regular c) by exact Ht.
  assert (Hnone : forall w1 r1, w_target w1 = Regular c ->
            window_count (Z.of_nat (List.length c)) pos destroy_bytes = 0 ->
            (Ret tt, w1) = (r1, w') ->
            exists a c',
              w_target w' = Regular c' /\
              pos <= a /\
              a + window_count (Z.of_nat (List.length c)) pos destroy_bytes
                <= pos + 1024 /\
              0 <= window_count (Z.of_nat (List.length c)) pos destroy_bytes /\
              (0 < window_count (Z.of_nat (List.length c)) pos destroy_bytes ->
               1024 <= a /\
               a + window_count (Z.of_nat (List.length c)) pos destroy_bytes
                 <= Z.of_nat (List.length c) - 1024) /\
              same_outside a
                (a + window_count (Z.of_nat (List.length c)) pos destroy_bytes)
                c c' /\
              (r1 = Ret tt ->
               all_differ a
                 (a + window_count (Z.of_nat (List.length c)) pos
                        destroy_bytes) c c')).
  { intros w1 r1 H1 Hc E. inversion E; subst. exists pos, c.
    rewrite Hc. split; [exact H1|]. split; [lia|]. split; [lia|].
    split; [lia|]. split; [lia|]. split; [apply same_outside_refl|].
    intros _ i Hi. lia. }
  destruct (Z_lt_ge_dec pos 1024) as [Hlo | Hlo];
    [| destruct (Z_le_gt_dec (Z.of_nat (List.length c) - 1024) pos)
         as [Hhi | Hhi]].
  1,2: rewrite (bind_ret _ _ w0 (0, 0) w0)
         by (apply protect_region_check_outside; lia);
       simpl; apply Hnone; [exact Ht0|];
       unfold window_count;
       destruct ((1024 <=? pos) && (pos <? Z.of_nat (List.length c) - 1024))
         eqn:E; [|reflexivity];
       apply andb_true_iff in E; destruct E as [E1 E2];
       apply Z.leb_le in E1; apply Z.ltb_lt in E2; lia.
  destruct (protect_region_check_inside rand (Z.of_nat (List.length c)) pos
              destroy_bytes w0 Hbig ltac:(lia))
    as [a [w1 [E1 [Hle [Hfit [Hzero Hw1]]]]]].
  rewrite (bind_ret _ _ w0 _ w1 E1).
  pose proof (available_range_pos (Z.of_nat (List.length c)) pos ltac:(lia))
    as Hav.
  assert (Hend : pos + available_range (Z.of_nat (List.length c)) pos
                 <= Z.of_nat (List.length c) - 1024)
    by (unfold available_range, window_end; lia).
  assert (Ht1 : w_target w1 = Regular c)
    by (destruct Hw1 as [-> | ->]; exact Ht0).
  assert (Hcount : window_count (Z.of_nat (List.length c)) pos destroy_bytes
                   = Z.max 0 (Z.min destroy_bytes
                        (available_range (Z.of_nat (List.length c)) pos))).
  { unfold window_count.
    assert (E : (1024 <=? pos) && (pos <? Z.of_nat (List.length c) - 1024)
                = true).
    { apply andb_true_iff. split; [apply Z.leb_le | apply Z.ltb_lt]; lia. }
    rewrite E. reflexivity. }
  set (num := Z.min destroy_bytes
                (available_range (Z.of_nat (List.length c)) pos)) in *.
  destruct (num <=? 0) eqn:En.
  - apply Z.leb_le in En. apply Hnone; [exact Ht1 | lia].
  - apply Z.leb_gt in En. intros E.
    assert (Hd : 0 < destroy_bytes) by (unfold num in En; lia).
    specialize (Hfit Hd).
    destruct (rewrite_precise fuel a num w1 c r w' Ht1 ltac:(lia) En
                ltac:(lia) E) as [c' [Ht' [Hso Had]]].
    exists a, c'. rewrite Hcount.
    replace (Z.max 0 num) with num by lia.
    split; [exact Ht'|]. split; [lia|]. split; [lia|]. split; [lia|].
    split; [lia|]. split; [exact Hso | exact Had].
Qed.

(** The walk changes nothing outside the windows it visits, however it
    ends: the window of index [idx] is [pos, window_end), the first 1024
    bytes of the stride cut at the end of the safe region. *)
Lemma walk_gaps fuel (step_bytes destroy_bytes : Z) :
  forall (l : list Z) w c r w',
  w_target w = Regular c ->
  Z.of_nat (List.length c) > 2048 ->
  for_each l (corrupt_step rand fault_at fuel (Z.of_nat (List.length c))
                step_bytes destroy_bytes) w = (r, w') ->
  exists c',
    w_target w' = Regular c' /\
    List.length c' = List.length c /\
    forall i, 0 <= i ->
      (forall idx, In idx l ->
         ~ (1024 + idx * step_bytes <= i
            < window_end (Z.of_nat (List.length c))
                (1024 + idx * step_bytes))) ->
      nth (Z.to_nat i) c' 0 = nth (Z.to_nat i) c 0.
Proof.
  induction l as [| x l IH]; intros w c r w' Ht Hbig.
  - cbn [for_each]. intros E. inversion E; subst. exists c. auto.
  - cbn [for_each].
    assert (Hstep : forall r1 w1,
              corrupt_step rand fault_at fuel (Z.of_nat (List.length c))
                step_bytes destroy_bytes x w = (r1, w1) ->
              exists c1, w_target w1 = Regular c1 /\
                List.length c1 = List.length c /\
                forall i, 0 <= i ->
                  ~ (1024 + x * step_bytes <= i
                     < window_end (Z.of_nat (List.length c))
                         (1024 + x * step_bytes)) ->
                  nth (Z.to_nat i) c1 0 = nth (Z.to_nat i) c 0).
    { intros r1 w1 E1.
      destruct (corrupt_step_precise _ _ _ _ _ _ _ _ Ht Hbig E1)
        as [st [c1 [Ht1 [Hlo [Hhi [Hc0 [Hin [[Hlen1 Hso] _]]]]]]]].
      exists c1. split; [exact Ht1|]. split; [exact Hlen1|].
      intros i Hi Hout. apply Hso; [exact Hi|].
      unfold window_end in Hout.
      destruct (Z.eq_dec
                  (window_count (Z.of_nat (List.length c))
                     (1024 + x * step_bytes) destroy_bytes) 0) as [E0 | E0].
      - rewrite E0. lia.
      - specialize (Hin ltac:(lia)). lia. }
    run_bind E1; destruct (Hstep _ _ eq_refl) as [c1 [Ht1 [Hlen1 Hso]]].
    + rewrite <- Hlen1 in *. intros E.
      destruct (IH _ _ _ _ Ht1 Hbig E) as [c' [Ht' [Hlen' Hn']]].
      exists c'. split; [exact Ht'|]. split; [exact Hlen'|].
      intros i Hi Hout. rewrite Hn'; [|exact Hi|].
      * apply Hso; [exact Hi|]. apply Hout. left. reflexivity.
      * intros idx Hin. apply Hout. right. exact Hin.
    + intros E. inversion E; subst. exists c1.
      split; [exact Ht1|]. split; [exact Hlen1|].
      intros i Hi Hout. apply Hso; [exact Hi|]. apply Hout. left. reflexivity.
    + intros E. inversion E; subst. exists c1.
      split; [exact Ht1|]. split; [exact Hlen1|].
      intros i Hi Hout. apply Hso; [exact Hi|]. apply Hout. left. reflexivity.
Qed.

Lemma walked_start file_size step_bytes destroy_bytes c :
  walked file_size step_bytes destroy_bytes c 0 c.
Proof. split; [reflexivity|]. split; [reflexivity|]. intros idx Hi. lia. Qed.

(** A walk that succeeds does one window after the other. *)
Lemma walk_effect fuel (step_bytes destroy_bytes : Z) (c : list Z) :
  1024 <= step_bytes ->
  Z.of_nat (List.length c) > 2048 ->
  forall (m k : nat) w cur w',
  w_target w = Regular cur ->
  walked (Z.of_nat (List.length c)) step_bytes destroy_bytes c
    (Z.of_nat k) cur ->
  for_each (map Z.of_nat (seq k m))
    (corrupt_step rand fault_at fuel (Z.of_nat (List.length c))
       step_bytes destroy_bytes) w = (Ret tt, w') ->
  exists c',
    w_target w' = Regular c' /\
    walked (Z.of_nat (List.length c)) step_bytes destroy_bytes c
      (Z.of_nat (k + m)) c'.
Proof.
  intros Hsb Hbig.
  induction m as [| m IH]; intros k w cur w' Ht Hw.
  - cbn [seq map for_each]. intros E. inversion E; subst.
    exists cur. rewrite Nat.add_0_r. auto.
  - cbn [seq map for_each]. destruct Hw as [Hlen [Hsame Hdone]].
    run_bind E1; try discriminate. destruct a.
    rewrite <- Hlen in E1.
    assert (Hbig' : Z.of_nat (List.length cur) > 2048) by (rewrite Hlen; lia).
    destruct (corrupt_step_precise _ _ _ _ _ _ _ _ Ht Hbig' E1)
      as [st [c1 [Ht1 [Hlo [Hhi [Hc0 [_ [[Hlen1 Hso] Had]]]]]]]].
    specialize (Had eq_refl). rewrite Hlen in *.
    set (pos := 1024 + Z.of_nat k * step_bytes) in *.
    set (count := window_count (Z.of_nat (List.length c)) pos destroy_bytes)
      in *.
    assert (Hpos : 1024 <= pos) by (unfold pos; nia).
    intros E.
    destruct (IH (S k) w0 c1 w' Ht1) as [c' [Ht' Hw']]; [|exact E|].
    + split; [congruence|]. split.
      * intros i Hi Hout. rewrite Hso; [|exact Hi|].
        -- apply Hsame; [exact Hi|]. fold pos. nia.
        -- destruct Hout as [Hout | Hout]; [left; lia|]. right.
           assert (pos + step_bytes <= i) by (unfold pos; nia). lia.
      * intros idx Hidx.
        destruct (Z.eq_dec idx (Z.of_nat k)) as [-> | Hne].
        -- exists st. fold pos count.
           split; [exact Hlo|]. split; [exact Hhi|]. split.
           ++ intros i Hi. rewrite <- (Hsame i); [apply Had; exact Hi | lia|].
              right. fold pos. lia.
           ++ intros i Hi Hout. rewrite Hso; [|lia | exact Hout].
              apply Hsame; [lia|]. right. fold pos. lia.
        -- destruct (Hdone idx ltac:(lia)) as [a' [Hlo' [Hhi' [Had' Hsm']]]].
           assert (Hbefore : 1024 + idx * step_bytes + step_bytes <= pos)
             by (unfold pos; nia).
           assert (Hidx0 : 1024 <= 1024 + idx * step_bytes) by nia.
           exists a'. split; [exact Hlo'|]. split; [exact Hhi'|]. split.
           ++ intros i Hi. rewrite Hso; [apply Had'; exact Hi | lia|].
              left. lia.
           ++ intros i Hi Hout. rewrite Hso; [|lia | left; lia].
              apply Hsm'; assumption.
    + exists c'. split; [exact Ht'|].
      replace (k + S m)%nat with (S k + m)%nat by lia. exact Hw'.
Qed.

(** [corrupt_file] on a regular file either stops before the walk, leaving
    the target as it was, or walks the windows of [range(total_steps)]. *)
Lemma corrupt_file_walks fuel (step_kb destroy_bytes : Z) make_backup
  w c r w' :
  w_target w = Regular c ->
  corrupt_file rand fault_at fuel step_kb destroy_bytes make_backup w
    = (r, w') ->
  w_target w' = Regular c /\
  (r = Ret tt ->
   w_log w' = w_log w ++ [Answered false] /\ ~ fault_free fault_at) \/
  exists total w0,
    total_steps (Z.of_nat (List.length c)) (step_kb * 1024) = Ret total /\
    w_target w0 = Regular c /\
    for_each (py_range total)
      (corrupt_step rand fault_at fuel (Z.of_nat (List.length c))
         (step_kb * 1024) destroy_bytes) w0 = (r, w').
Proof.
  intros Ht. unfold corrupt_file.
  unfold bind at 1. unfold stat_size at 1, file_op at 1. simpl. rewrite Ht.
  destruct (fault_at (w_io w)) eqn:F1;
    try (intros E; inversion E; subst; left;
         split; [exact Ht | discriminate]).
  unfold bind at 1. unfold lift at 1.
  destruct (total_steps (Z.of_nat (List.length c)) (step_kb * 1024))
    as [total | e |] eqn:Et;
    try (intros E; inversion E; subst; left;
         split; [exact Ht | discriminate]).
  run_bind E2;
    destruct (backup_step_spec fault_at _ _ _ _ E2) as [Ht2 [Hl2 Hr2]];
    simpl in Ht2, Hl2;
    try (intros E; inversion E; subst; left;
         split; [congruence | discriminate]).
  destruct a as [|]; simpl.
  2:{ intros E. inversion E; subst. left.
      split; [congruence|]. intros _. split; [exact Hl2|].
      intros Hff. specialize (Hr2 Hff c Ht). discriminate. }
  assert (Ht3 : w_target w0 = Regular c) by congruence.
  unfold bind at 1. unfold open_rw at 1, file_op at 1. simpl. rewrite Ht3.
  destruct (fault_at (w_io w0)) eqn:F3;
    try (intros E; inversion E; subst; left;
         split; [exact Ht3 | discriminate]).
  intros E. right. exists total, (set_pos 0 (bump_io w0)).
  split; [reflexivity|]. split; [exact Ht3 | exact E].
Qed.

End Precise.

Lemma py_range_bounds total idx :
  In idx (py_range total) <-> 0 <= idx < total.
Proof.
  unfold py_range. rewrite in_map_iff. split.
  - intros [k [<- Hk]]. apply in_seq in Hk. lia.
  - intros H. exists (Z.to_nat idx). split; [lia|]. apply in_seq. lia.
Qed.

Lemma total_steps_ceiling file_size step_bytes total :
  0 < step_bytes -> file_size > 2048 ->
  total_steps file_size step_bytes = Ret total ->
  (total - 1) * step_bytes < file_size - 2048 <= total * step_bytes /\
  0 < total.
Proof.
  intros Hsb Hbig. unfold total_steps.
  destruct (step_bytes =? 0) eqn:E0; [apply Z.eqb_eq in E0; lia|].
  intros Et. inversion Et as [Etot]. clear Et.
  pose proof (Z.div_mod (file_size - 2048) step_bytes ltac:(lia)) as Hdm.
  pose proof (Z.mod_pos_bound (file_size - 2048) step_bytes Hsb) as Hm.
  assert (Hq : 0 <= (file_size - 2048) / step_bytes)
    by (apply Z.div_pos; lia).
  destruct ((file_size - 2048) mod step_bytes =? 0) eqn:Em; simpl.
  - apply Z.eqb_eq in Em. nia.
  - apply Z.eqb_neq in Em. nia.
Qed.

(** X1: whatever the step, the destroy count and the way the run ends
    (completion, fault, interrupt, a loop that does not end), [corrupt_file]
    leaves the target as long as it was and changes no byte outside the
    planner's windows: a byte at offset [i] can only differ when some window
    start [1024 + idx * step_bytes] has [i] in its first 1024 bytes and
    before [file_size - 1024].  With a step of more than 1 KB the bytes
    between the end of a window and the next stride are never touched. *)
Theorem only_window_bytes_change
  (rand : nat -> Z) (fault_at : nat -> fault) (fuel : nat)
  (step_kb destroy_bytes : Z) (make_backup : bool) (w : world) (c : list Z) :
  w_target w = Regular c ->
  exists c',
    w_target (snd (corrupt_file rand fault_at fuel step_kb destroy_bytes
                     make_backup w)) = Regular c' /\
    List.length c' = List.length c /\
    forall i, 0 <= i ->
      (forall idx, 0 <= idx ->
         ~ (1024 + idx * (step_kb * 1024) <= i
            < window_end (Z.of_nat (List.length c))
                (1024 + idx * (step_kb * 1024)))) ->
      nth (Z.to_nat i) c' 0 = nth (Z.to_nat i) c 0.
Proof.
  intros Ht.
  destruct (corrupt_file rand fault_at fuel step_kb destroy_bytes
              make_backup w) as [r w'] eqn:E. simpl.
  destruct (corrupt_file_walks _ _ _ _ _ _ _ _ _ _ Ht E)
    as [[Ht' _] | [total [w0 [Et [Ht0 Ew]]]]].
  - exists c. auto.
  - destruct (Z_le_gt_dec (Z.of_nat (List.length c)) 2048) as [Hs | Hbig].
    + destruct (walk_small _ _ _ _ _ _ _ _ _ _ Hs Ew) as [Ht' _].
      exists c. split; [congruence | auto].
    + destruct (walk_gaps _ _ _ _ _ _ _ _ _ _ Ht0 Hbig Ew)
        as [c' [Ht' [Hlen Hn]]].
      exists c'. split; [exact Ht'|]. split; [exact Hlen|].
      intros i Hi Hout. apply Hn; [exact Hi|].
      intros idx Hin. apply Hout. apply py_range_bounds in Hin. lia.
Qed.

Lemma only_window_bytes_change_witness :
  w_target (init_world (blank_file 5000) None []) = blank_file 5000 /\
  exists c',
    w_target (snd (corrupt_file counting no_fault 4 2 4 true
                     (init_world (blank_file 5000) None []))) = Regular c' /\
    List.length c' = List.length (repeat 0 (Z.to_nat 5000)) /\
    forall i, 0 <= i ->
      (forall idx, 0 <= idx ->
         ~ (1024 + idx * (2 * 1024) <= i
            < window_end (Z.of_nat (List.length (repeat 0 (Z.to_nat 5000))))
                (1024 + idx * (2 * 1024)))) ->
      nth (Z.to_nat i) c' 0 = nth (Z.to_nat i) (repeat 0 (Z.to_nat 5000)) 0.
Proof.
  split; [reflexivity|].
  exact (only_window_bytes_change counting no_fault 4 2 4 true
           (init_world (blank_file 5000) None [])
           (repeat 0 (Z.to_nat 5000)) eq_refl).
Defined.

(** X2: on a regular file of more than 2048 bytes, with a positive step
    and a positive destroy count, every window of the walk holds a positive
    number of bytes to rewrite, [min destroy_bytes available]; a run of
    [corrupt_file] that returns has (unless it returned at the declined
    prompt after a failed backup) changed, in every stride, every byte of
    one run of that many consecutive bytes, placed in the first 1024 bytes
    of the stride, and no other byte of the stride; nothing has changed
    before offset 1024 or after the last stride.  With a fair random source
    and no fault such a run exists. *)
Theorem completed_walk_effect
  (rand : nat -> Z) (fault_at : nat -> fault)
  (step_kb destroy_bytes : Z) (make_backup : bool) (w : world) (c : list Z) :
  w_target w = Regular c ->
  Z.of_nat (List.length c) > 2048 ->
  step_kb > 0 -> destroy_bytes > 0 ->
  exists total,
    total_steps (Z.of_nat (List.length c)) (step_kb * 1024) = Ret total /\
    0 < total /\
    (forall idx, 0 <= idx < total ->
       window_count (Z.of_nat (List.length c))
         (1024 + idx * (step_kb * 1024)) destroy_bytes
       = Z.min destroy_bytes
           (available_range (Z.of_nat (List.length c))
              (1024 + idx * (step_kb * 1024))) /\
       0 < window_count (Z.of_nat (List.length c))
             (1024 + idx * (step_kb * 1024)) destroy_bytes) /\
    (forall fuel w',
       corrupt_file rand fault_at fuel step_kb destroy_bytes make_backup w
       = (Ret tt, w') ->
       w_target w' = Regular c /\
       w_log w' = w_log w ++ [Answered false] /\ ~ fault_free fault_at \/
       exists c',
         w_target w' = Regular c' /\
         walked (Z.of_nat (List.length c)) (step_kb * 1024) destroy_bytes
           c total c') /\
    (fair rand -> fault_free fault_at ->
     exists fuel w' c',
       corrupt_file rand fault_at fuel step_kb destroy_bytes make_backup w
       = (Ret tt, w') /\
       w_target w' = Regular c' /\
       walked (Z.of_nat (List.length c)) (step_kb * 1024) destroy_bytes
         c total c').
Proof.
  intros Ht Hbig Hstep Hd.
  set (file_size := Z.of_nat (List.length c)) in *.
  set (step_bytes := step_kb * 1024).
  assert (Hsb : 1024 <= step_bytes) by (unfold step_bytes; lia).
  destruct (total_steps file_size step_bytes) as [total | e |] eqn:Et;
    try (unfold total_steps in Et;
         destruct (step_bytes =? 0) eqn:E0;
         [apply Z.eqb_eq in E0; lia | discriminate]).
  destruct (total_steps_ceiling file_size step_bytes total ltac:(lia) Hbig Et)
    as [Hceil Htot].
  exists total. split; [reflexivity|]. split; [exact Htot|].
  assert (Hcomplete : forall fuel w',
            corrupt_file rand fault_at fuel step_kb destroy_bytes
              make_backup w = (Ret tt, w') ->
            w_target w' = Regular c /\
            w_log w' = w_log w ++ [Answered false] /\
            ~ fault_free fault_at \/
            exists c',
              w_target w' = Regular c' /\
              walked file_size step_bytes destroy_bytes c total c').
  { intros fuel w' E.
    destruct (corrupt_file_walks _ _ _ _ _ _ _ _ _ _ Ht E)
      as [[Ht' Hl] | [total' [w0 [Et' [Ht0 Ew]]]]].
    - left. split; [exact Ht'|]. apply Hl. reflexivity.
    - right. fold file_size step_bytes in Et', Ew. rewrite Et in Et'.
      inversion Et'; subst total'.
      unfold py_range in Ew.
      destruct (walk_effect rand fault_at fuel step_bytes destroy_bytes c
                  Hsb Hbig (Z.to_nat total) O w0 c w' Ht0
                  (walked_start _ _ _ _) Ew) as [c' [Ht' Hw]].
      exists c'. split; [exact Ht'|].
      replace (Z.of_nat (0 + Z.to_nat total)) with total in Hw by lia.
      exact Hw. }
  split; [|split; [exact Hcomplete|]].
  - intros idx Hidx.
    assert (Hin : 1024 <= 1024 + idx * step_bytes < file_size - 1024) by nia.
    pose proof (available_range_pos file_size _ Hin) as Hav.
    unfold window_count.
    assert (E : (1024 <=? 1024 + idx * step_bytes)
                && (1024 + idx * step_bytes <? file_size - 1024) = true).
    { apply andb_true_iff. split; [apply Z.leb_le | apply Z.ltb_lt]; lia. }
    rewrite E. lia.
  - intros Hfair Hff.
    destruct (corrupt_file_completes rand fault_at Hfair step_kb
                destroy_bytes make_backup w c Hff Ht ltac:(lia))
      as [fuel [w' E]].
    destruct (Hcomplete fuel w' E) as [[_ [_ Habs]] | [c' [Ht' Hw]]];
      [contradiction|].
    exists fuel, w', c'. auto.
Qed.

Lemma completed_walk_effect_witness :
  w_target (init_world (blank_file 5000) None []) = blank_file 5000 /\
  Z.of_nat (List.length (repeat 0 (Z.to_nat 5000))) > 2048 /\
  2 > 0 /\ 4 > 0 /\
  exists total,
    total_steps (Z.of_nat (List.length (repeat 0 (Z.to_nat 5000)))) (2 * 1024)
    = Ret total /\
    0 < total /\
    (fair counting -> fault_free no_fault ->
     exists fuel w' c',
       corrupt_file counting no_fault fuel 2 4 true
         (init_world (blank_file 5000) None []) = (Ret tt, w') /\
       w_target w' = Regular c' /\
       walked (Z.of_nat (List.length (repeat 0 (Z.to_nat 5000)))) (2 * 1024) 4
         (repeat 0 (Z.to_nat 5000)) total c').
Proof.
  split; [reflexivity|]. split; [vm_compute; reflexivity|].
  split; [lia|]. split; [lia|].
  destruct (completed_walk_effect counting no_fault 2 4 true
              (init_world (blank_file 5000) None [])
              (repeat 0 (Z.to_nat 5000)))
    as [total [H1 [H2 [_ [_ H5]]]]];
    [reflexivity | vm_compute; reflexivity | lia | lia |].
  exists total. split; [exact H1|]. split; [exact H2 | exact H5].
Defined.

(** ** What leaves the backup alone *)

Lemma fixes_backup_ret {A} (a : A) : fixes_backup (ret a).
Proof. intros w. reflexivity. Qed.

Lemma fixes_backup_raise {A} (e : exn) : fixes_backup (@raise A e).
Proof. intros w. reflexivity. Qed.

Lemma fixes_backup_lift {A} (r : result A) : fixes_backup (lift r).
Proof. intros w. reflexivity. Qed.

Lemma fixes_backup_log (e : event) : fixes_backup (log e).
Proof. intros w. reflexivity. Qed.

Lemma fixes_backup_bind {A B} (m : M A) (f : A -> M B) :
  fixes_backup m -> (forall a, fixes_backup (f a)) ->
  fixes_backup (bind m f).
Proof.
  intros Hm Hf w. unfold bind. specialize (Hm w).
  destruct (m w) as [[a | e |] w1]; simpl in *; try exact Hm.
  rewrite Hf. exact Hm.
Qed.

Lemma fixes_backup_try {A} (m : M A) (h : exn -> option (M A)) :
  fixes_backup m -> (forall e k, h e = Some k -> fixes_backup k) ->
  fixes_backup (try_except m h).
Proof.
  intros Hm Hh w. unfold try_except. specialize (Hm w).
  destruct (m w) as [[a | e |] w1]; simpl in *; try exact Hm.
  destruct (h e) as [k |] eqn:Ek; [|exact Hm].
  rewrite (Hh e k Ek). exact Hm.
Qed.

Lemma fixes_backup_for_each {A} (l : list A) (body : A -> M unit) :
  (forall x, fixes_backup (body x)) -> fixes_backup (for_each l body).
Proof.
  intros Hb. induction l as [| x l IH]; cbn [for_each].
  - apply fixes_backup_ret.
  - apply fixes_backup_bind; [apply Hb | intros _; exact IH].
Qed.

Lemma fixes_backup_input : fixes_backup input.
Proof.
  intros w. unfold input. destruct (w_stdin w) as [| [s |] rest]; reflexivity.
Qed.

Lemma fixes_backup_ask_yes_no default : fixes_backup (ask_yes_no default).
Proof.
  intros w. destruct (ask_yes_no default w) as [r w'] eqn:E.
  apply (ask_yes_no_spec _ _ _ _ E).
Qed.

Section BackupAlone.

Variable rand : nat -> Z.
Variable fault_at : nat -> fault.

Lemma fixes_backup_file_op {A} (ok : M A) failed :
  fixes_backup ok ->
  (forall n w, w_backup (failed n w) = w_backup w) ->
  fixes_backup (file_op fault_at ok failed).
Proof.
  intros Hok Hfail w. unfold file_op.
  destruct (fault_at (w_io w)); simpl.
  - rewrite Hok. reflexivity.
  - rewrite Hfail. reflexivity.
  - reflexivity.
Qed.

Lemma fixes_backup_stat_size : fixes_backup (stat_size fault_at).
Proof.
  apply fixes_backup_file_op; [|reflexivity].
  intros w. destruct (w_target w); reflexivity.
Qed.

Lemma fixes_backup_open_rw : fixes_backup (open_rw fault_at).
Proof.
  apply fixes_backup_file_op; [|reflexivity].
  intros w. destruct (w_target w); reflexivity.
Qed.

Lemma fixes_backup_f_seek p : fixes_backup (f_seek fault_at p).
Proof.
  apply fixes_backup_file_op; [|reflexivity].
  intros w. destruct (p <? 0); reflexivity.
Qed.

Lemma fixes_backup_f_read n : fixes_backup (f_read fault_at n).
Proof.
  apply fixes_backup_file_op; [|reflexivity].
  intros w. destruct (w_target w); reflexivity.
Qed.

Lemma fixes_backup_f_write data : fixes_backup (f_write fault_at data).
Proof.
  apply fixes_backup_file_op.
  - intros w. unfold put_bytes. destruct (w_target w); reflexivity.
  - intros n w. unfold put_bytes. destruct (w_target w); reflexivity.
Qed.

Lemma fixes_backup_randint lo hi : fixes_backup (randint rand lo hi).
Proof. intros w. unfold randint. destruct (hi <? lo); reflexivity. Qed.

Lemma fixes_backup_mutate fuel original_bytes :
  fixes_backup (mutate rand fuel original_bytes).
Proof.
  intros w. destruct (mutate rand fuel original_bytes w) as [r w'] eqn:E.
  destruct (mutate_spec rand fuel original_bytes w r w' E) as [Hf _].
  apply (rng_only_fields _ _ Hf).
Qed.

Lemma fixes_backup_protect_region_check file_size pos destroy_count :
  fixes_backup (protect_region_check rand file_size pos destroy_count).
Proof.
  unfold protect_region_check.
  destruct (_ <=? _); [apply fixes_backup_raise|].
  destruct (_ || _); [apply fixes_backup_ret|].
  destruct (_ <=? _); [apply fixes_backup_ret|].
  apply fixes_backup_bind; [|intros; apply fixes_backup_ret].
  destruct (_ <? _); [|apply fixes_backup_ret].
  apply fixes_backup_bind;
    [apply fixes_backup_randint | intros; apply fixes_backup_ret].
Qed.

Lemma fixes_backup_corrupt_step fuel file_size step_bytes destroy_bytes idx :
  fixes_backup (corrupt_step rand fault_at fuel file_size step_bytes
                  destroy_bytes idx).
Proof.
  unfold corrupt_step.
  apply fixes_backup_bind; [apply fixes_backup_log | intros _].
  apply fixes_backup_bind;
    [apply fixes_backup_protect_region_check | intros [a num]].
  destruct (num <=? 0); [apply fixes_backup_ret|].
  apply fixes_backup_bind; [apply fixes_backup_f_seek | intros _].
  apply fixes_backup_bind; [apply fixes_backup_f_read | intros ob].
  apply fixes_backup_bind; [apply fixes_backup_mutate | intros nb].
  apply fixes_backup_bind;
    [apply fixes_backup_f_seek | intros _; apply fixes_backup_f_write].
Qed.

(** What comes after the backup block of [corrupt_file]. *)
Lemma fixes_backup_walk fuel file_size step_bytes destroy_bytes total :
  fixes_backup
    (open_rw fault_at ;;
     for_each (py_range total)
       (corrupt_step rand fault_at fuel file_size step_bytes destroy_bytes)).
Proof.
  apply fixes_backup_bind; [apply fixes_backup_open_rw | intros _].
  apply fixes_backup_for_each. intros idx. apply fixes_backup_corrupt_step.
Qed.

Lemma fixes_backup_corrupt_file_without fuel step_kb destroy_bytes :
  fixes_backup (corrupt_file rand fault_at fuel step_kb destroy_bytes false).
Proof.
  unfold corrupt_file.
  apply fixes_backup_bind; [apply fixes_backup_stat_size | intros file_size].
  apply fixes_backup_bind; [apply fixes_backup_lift | intros total].
  apply fixes_backup_bind; [apply fixes_backup_ret | intros go_on].
  destruct (negb go_on); [apply fixes_backup_ret|].
  apply fixes_backup_walk.
Qed.

(** Once the copy has succeeded, the backup holds the content that the
    target had, whatever happens next. *)
Lemma backup_after_copy fuel (step_kb destroy_bytes : Z) w c :
  w_target w = Regular c ->
  step_kb <> 0 ->
  fault_at (w_io w) = NoFault ->
  fault_at (S (w_io w)) = NoFault ->
  w_backup (snd (corrupt_file rand fault_at fuel step_kb destroy_bytes true w))
  = Some c.
Proof.
  intros Ht Hstep F1 F2. unfold corrupt_file.
  unfold bind at 1. unfold stat_size at 1, file_op at 1. rewrite F1.
  simpl. rewrite Ht.
  unfold bind at 1. unfold lift at 1, total_steps.
  destruct (step_kb * 1024 =? 0) eqn:E0; [apply Z.eqb_eq in E0; lia|].
  unfold bind at 1. unfold backup_step, try_except.
  unfold bind at 1. unfold copy2 at 1, file_op at 1. simpl. rewrite F2.
  rewrite Ht. simpl.
  match goal with
  | |- w_backup (snd (?m ?w2)) = _ =>
      change (w_backup (snd (m w2)) = w_backup w2)
  end.
  apply fixes_backup_walk.
Qed.

End BackupAlone.

(** X3: when [corrupt_file] is asked for a backup, the step is not zero and
    the first two file operations (the [stat] and the copy) succeed, the
    backup holds the content that the target had before the run, however
    the run goes on: completion, a fault or an interrupt during the walk, a
    partial write, or a loop that does not end. *)
Theorem backup_is_the_original
  (rand : nat -> Z) (fault_at : nat -> fault) (fuel : nat)
  (step_kb destroy_bytes : Z) (w : world) (c : list Z) :
  w_target w = Regular c ->
  step_kb <> 0 ->
  fault_at (w_io w) = NoFault ->
  fault_at (S (w_io w)) = NoFault ->
  w_backup (snd (corrupt_file rand fault_at fuel step_kb destroy_bytes true w))
  = Some c.
Proof. apply backup_after_copy. Qed.

Lemma backup_is_the_original_witness :
  w_target (init_world (blank_file 3000) (Some [1; 2; 3]) [])
  = blank_file 3000 /\
  1 <> 0 /\
  (fun k => if (k =? 7)%nat then IOFault 2 else NoFault)
    (w_io (init_world (blank_file 3000) (Some [1; 2; 3]) [])) = NoFault /\
  (fun k => if (k =? 7)%nat then IOFault 2 else NoFault)
    (S (w_io (init_world (blank_file 3000) (Some [1; 2; 3]) []))) = NoFault /\
  w_backup
    (snd (corrupt_file counting
            (fun k => if (k =? 7)%nat then IOFault 2 else NoFault)
            4 1 4 true (init_world (blank_file 3000) (Some [1; 2; 3]) [])))
  = Some (repeat 0 (Z.to_nat 3000)).
Proof.
  split; [reflexivity|]. split; [discriminate|].
  split; [reflexivity|]. split; [reflexivity|].
  apply (backup_is_the_original counting
           (fun k => if (k =? 7)%nat then IOFault 2 else NoFault)
           4 1 4 (init_world (blank_file 3000) (Some [1; 2; 3]) [])
           (repeat 0 (Z.to_nat 3000)));
    [reflexivity | discriminate | reflexivity | reflexivity].
Defined.

Lemma fixes_backup_parse_step text (otherwise : M Z) :
  fixes_backup otherwise -> fixes_backup (parse_step text otherwise).
Proof.
  intros Ho. unfold parse_step. apply fixes_backup_try.
  - apply fixes_backup_bind; [apply fixes_backup_lift|].
    intros k. destruct (k <=? 0);
      [apply fixes_backup_raise | apply fixes_backup_ret].
  - intros e k. destruct (is_ValueError e); [|discriminate].
    intros E. inversion E; subst. apply fixes_backup_try.
    + apply fixes_backup_bind;
        [apply fixes_backup_lift | intros n; apply fixes_backup_ret].
    + intros e' k'. destruct (is_Exception e'); [|discriminate].
      intros E'. inversion E'; subst. exact Ho.
Qed.

Lemma fixes_backup_cli_without rand fault_at fuel args :
  a_no_backup args = true ->
  fixes_backup (main rand fault_at fuel (CommandLine (Namespace args))).
Proof.
  intros Hnb. unfold main. apply fixes_backup_try.
  2:{ intros e k E.
      assert (Hk : k = sys_exit 1).
      { destruct e; simpl in E; inversion E; reflexivity. }
      subst k. apply fixes_backup_raise. }
  rewrite cli_main_namespace. unfold cli_run. rewrite Hnb.
  apply fixes_backup_bind; [intros w; reflexivity|].
  intros there. destruct (negb there); [apply fixes_backup_raise|].
  apply fixes_backup_bind; [intros w; reflexivity|].
  intros is_file. destruct (negb is_file); [apply fixes_backup_raise|].
  apply fixes_backup_bind;
    [apply fixes_backup_parse_step, fixes_backup_raise|].
  intros step_kb.
  destruct (a_destroy args <=? 0); [apply fixes_backup_raise|].
  apply fixes_backup_bind.
  { apply fixes_backup_bind; [apply fixes_backup_ask_yes_no|].
    intros ok. destruct (negb ok);
      [apply fixes_backup_raise | apply fixes_backup_ret]. }
  intros _. apply fixes_backup_bind; [apply fixes_backup_stat_size|].
  intros _. apply fixes_backup_bind; [apply fixes_backup_ask_yes_no|].
  intros ok. destruct (negb ok); [apply fixes_backup_raise|].
  apply fixes_backup_corrupt_file_without.
Qed.

(** X4: without a backup ([make_backup = False]) [corrupt_file] never
    creates, changes or removes the backup file, however the run ends; and
    neither does the program when it is started from the command line with
    [--no-backup]. *)
Theorem no_backup_leaves_the_backup
  (rand : nat -> Z) (fault_at : nat -> fault) (fuel : nat) :
  (forall (step_kb destroy_bytes : Z) (w : world),
     w_backup (snd (corrupt_file rand fault_at fuel step_kb destroy_bytes
                      false w))
     = w_backup w) /\
  (forall args target backup stdin,
     a_no_backup args = true ->
     w_backup (snd (run rand fault_at fuel (CommandLine (Namespace args)) target backup
                      stdin))
     = backup).
Proof.
  split.
  - intros step_kb destroy_bytes w.
    apply fixes_backup_corrupt_file_without.
  - intros args target backup stdin Hnb. unfold run.
    pose proof (fixes_backup_cli_without rand fault_at fuel args Hnb
                  (init_world target backup stdin)) as H.
    destruct (main rand fault_at fuel (CommandLine (Namespace args))
                (init_world target backup stdin)) as [r w']. exact H.
Qed.

(** ** A destroy count that is not positive *)

Section Idle.

Variable rand : nat -> Z.
Variable fault_at : nat -> fault.

(** With a destroy count of zero or less the planner plans no byte and
    draws nothing, and the turn of the loop does no file operation. *)
Lemma corrupt_step_idle fuel (file_size step_bytes destroy_bytes idx : Z) w :
  file_size > 2048 -> destroy_bytes <= 0 ->
  corrupt_step rand fault_at fuel file_size step_bytes destroy_bytes idx w
  = (Ret tt, add_log (Window idx (1024 + idx * step_bytes)) w).
Proof.
  intros Hbig Hd. unfold corrupt_step. rewrite bind_log.
  set (pos := 1024 + idx * step_bytes).
  set (w0 := add_log (Window idx pos) w).
  unfold protect_region_check.
  destruct (file_size - 1024 <=? 1024) eqn:E1; [apply Z.leb_le in E1; lia|].
  destruct ((pos <? 1024) || (file_size - 1024 <=? pos)) eqn:E2;
    [reflexivity|].
  apply orb_false_iff in E2. destruct E2 as [E2 E3].
  apply Z.ltb_ge in E2. apply Z.leb_gt in E3.
  destruct (available_range file_size pos <=? 0) eqn:E4; [reflexivity|].
  assert (E5 : (0 <? Z.min destroy_bytes (available_range file_size pos))
               = false) by (apply Z.ltb_ge; lia).
  rewrite E5. unfold bind at 1. unfold bind at 1. unfold ret at 1.
  unfold ret at 1.
  assert (E6 : (Z.min destroy_bytes (available_range file_size pos) <=? 0)
               = true) by (apply Z.leb_le; lia).
  rewrite E6. reflexivity.
Qed.

Lemma walk_idle fuel (file_size step_bytes destroy_bytes : Z) :
  file_size > 2048 -> destroy_bytes <= 0 ->
  forall (l : list Z) w,
  exists w',
    for_each l (corrupt_step rand fault_at fuel file_size step_bytes
                  destroy_bytes) w = (Ret tt, w') /\
    w_target w' = w_target w /\ w_rng w' = w_rng w /\ w_io w' = w_io w.
Proof.
  intros Hbig Hd. induction l as [| x l IH]; intros w; cbn [for_each].
  - exists w. auto.
  - rewrite (bind_ret _ _ w tt _
               (corrupt_step_idle fuel file_size step_bytes destroy_bytes
                  x w Hbig Hd)).
    destruct (IH (add_log (Window x (1024 + x * step_bytes)) w))
      as [w' [E [H1 [H2 H3]]]].
    exists w'. auto.
Qed.

End Idle.

(** X5: with a destroy count of zero or less [corrupt_file] leaves the
    content of a regular target as it was, whatever the step and however
    the run ends: the planner plans no byte, and the loop skips every
    window. *)
Theorem nothing_destroyed_without_a_count
  (rand : nat -> Z) (fault_at : nat -> fault) (fuel : nat)
  (step_kb destroy_bytes : Z) (make_backup : bool) (w : world) (c : list Z) :
  w_target w = Regular c ->
  destroy_bytes <= 0 ->
  w_target (snd (corrupt_file rand fault_at fuel step_kb destroy_bytes
                   make_backup w)) = Regular c.
Proof.
  intros Ht Hd.
  destruct (corrupt_file rand fault_at fuel step_kb destroy_bytes
              make_backup w) as [r w'] eqn:E. simpl.
  destruct (corrupt_file_walks _ _ _ _ _ _ _ _ _ _ Ht E)
    as [[Ht' _] | [total [w0 [Et [Ht0 Ew]]]]]; [exact Ht'|].
  destruct (Z_le_gt_dec (Z.of_nat (List.length c)) 2048) as [Hs | Hbig].
  - destruct (walk_small _ _ _ _ _ _ _ _ _ _ Hs Ew) as [Ht' _]. congruence.
  - destruct (walk_idle rand fault_at fuel _ (step_kb * 1024) destroy_bytes
                Hbig Hd (py_range total) w0) as [w1 [E1 [Ht1 _]]].
    rewrite E1 in Ew. inversion Ew; subst. congruence.
Qed.

Lemma nothing_destroyed_without_a_count_witness :
  w_target (init_world (blank_file 5000) None []) = blank_file 5000 /\
  0 <= 0 /\
  w_target (snd (corrupt_file counting no_fault 4 1 0 true
                   (init_world (blank_file 5000) None [])))
  = Regular (repeat 0 (Z.to_nat 5000)).
Proof.
  split; [reflexivity|]. split; [lia|].
  apply (nothing_destroyed_without_a_count counting no_fault 4 1 0 true
           (init_world (blank_file 5000) None [])
           (repeat 0 (Z.to_nat 5000))); [reflexivity | lia].
Defined.

(** ** Plain and safe computations *)

Lemma plain_ret {A} (a : A) : plain (ret a).
Proof. split; [intros w e H; exact H | intros w code; discriminate]. Qed.

Lemma plain_raise {A} (e : exn) :
  (forall code, e <> SystemExit code) -> plain (@raise A e).
Proof.
  intros He. split; [intros w e' H; exact H|].
  intros w code H. inversion H. exact (He code H1).
Qed.

Lemma plain_lift {A} (r : result A) :
  (forall code, r <> Raise (SystemExit code)) -> plain (lift r).
Proof. intros Hr. split; [intros w e H; exact H | intros w; apply Hr]. Qed.

Lemma plain_log (e : event) : plain (log e).
Proof.
  split; [|intros w code; discriminate].
  intros w e' H. simpl. apply in_or_app. left. exact H.
Qed.

Lemma plain_bind {A B} (m : M A) (f : A -> M B) :
  plain m -> (forall a, plain (f a)) -> plain (bind m f).
Proof.
  intros [Hl Hx] Hf. split.
  - intros w e H. unfold bind. specialize (Hl w e H).
    destruct (m w) as [[a | e' |] w1]; simpl in *; try exact Hl.
    apply (proj1 (Hf a)). exact Hl.
  - intros w code. unfold bind. specialize (Hx w code).
    destruct (m w) as [[a | e' |] w1]; simpl in *.
    + apply (proj2 (Hf a)).
    + intros H. apply Hx. inversion H. reflexivity.
    + discriminate.
Qed.

Lemma plain_try {A} (m : M A) (h : exn -> option (M A)) :
  plain m -> (forall e k, h e = Some k -> plain k) -> plain (try_except m h).
Proof.
  intros [Hl Hx] Hh. split.
  - intros w e H. unfold try_except. specialize (Hl w e H).
    destruct (m w) as [[a | e' |] w1]; simpl in *; try exact Hl.
    destruct (h e') as [k |] eqn:Ek; [|exact Hl].
    apply (proj1 (Hh e' k Ek)). exact Hl.
  - intros w code. unfold try_except. specialize (Hx w code).
    destruct (m w) as [[a | e' |] w1]; simpl in *; try discriminate.
    destruct (h e') as [k |] eqn:Ek; [apply (proj2 (Hh e' k Ek)) | exact Hx].
Qed.

Lemma plain_for_each {A} (l : list A) (body : A -> M unit) :
  (forall x, plain (body x)) -> plain (for_each l body).
Proof.
  intros Hb. induction l as [| x l IH]; cbn [for_each].
  - apply plain_ret.
  - apply plain_bind; [apply Hb | intros _; exact IH].
Qed.

Lemma plain_input : plain input.
Proof.
  split.
  - intros w e H. unfold input.
    destruct (w_stdin w) as [| [s |] rest]; simpl; try exact H.
    apply in_or_app. left. exact H.
  - intros w code. unfold input.
    destruct (w_stdin w) as [| [s |] rest]; discriminate.
Qed.

Lemma ask_yes_no_loop_no_exit default : forall turns w code,
  fst (ask_yes_no_loop turns default w) <> Raise (SystemExit code).
Proof.
  induction turns as [| turns IH]; intros w code; cbn [ask_yes_no_loop];
    [discriminate|].
  unfold bind at 1. unfold input.
  destruct (w_stdin w) as [| [s |] rest]; try discriminate.
  destruct (Str.is_empty _).
  - destruct default as [[|] |]; try discriminate. apply IH.
  - destruct (is_yes _); [discriminate|].
    destruct (is_no _); [discriminate | apply IH].
Qed.

Lemma plain_ask_yes_no default : plain (ask_yes_no default).
Proof.
  split.
  - intros w e H. destruct (ask_yes_no default w) as [r w'] eqn:E.
    destruct (ask_yes_no_spec _ _ _ _ E) as [_ [_ Hl]]. simpl.
    destruct r as [b | e' |]; [| |contradiction].
    + rewrite Hl. apply in_or_app. left. exact H.
    + destruct e'; rewrite Hl; try exact H. apply in_or_app. left. exact H.
  - intros w code. unfold ask_yes_no, bind.
    pose proof (ask_yes_no_loop_no_exit default
                  (S (List.length (w_stdin w))) w code) as Hn.
    destruct (ask_yes_no_loop _ default w) as [[b | e' |] w1]; simpl in *;
      try discriminate.
    intros H. apply Hn. inversion H. reflexivity.
Qed.

Section PlainProgram.

Variable rand : nat -> Z.
Variable fault_at : nat -> fault.

Lemma plain_file_op {A} (ok : M A) failed :
  plain ok ->
  (forall n w, w_log (failed n w) = w_log w) ->
  plain (file_op fault_at ok failed).
Proof.
  intros [Hl Hx] Hfail. split.
  - intros w e H. unfold file_op. destruct (fault_at (w_io w)); simpl.
    + apply (Hl (bump_io w)). exact H.
    + rewrite Hfail. exact H.
    + apply in_or_app. left. exact H.
  - intros w code. unfold file_op.
    destruct (fault_at (w_io w)); simpl; try discriminate. apply Hx.
Qed.

Lemma plain_of_result {A} (m : M A) :
  (forall w, w_log (snd (m w)) = w_log w /\
             forall code, fst (m w) <> Raise (SystemExit code)) ->
  plain m.
Proof.
  intros H. split.
  - intros w e Hin. rewrite (proj1 (H w)). exact Hin.
  - intros w code. apply (proj2 (H w)).
Qed.

Lemma plain_stat_size : plain (stat_size fault_at).
Proof.
  apply plain_file_op; [|reflexivity]. apply plain_of_result.
  intros w. destruct (w_target w); simpl; split; try reflexivity;
    discriminate.
Qed.

Lemma plain_copy2 : plain (copy2 fault_at).
Proof.
  apply plain_file_op.
  - apply plain_of_result.
    intros w. destruct (w_target w); simpl; split; try reflexivity;
      discriminate.
  - intros n w. destruct (w_target w); [| |destruct n]; reflexivity.
Qed.

Lemma plain_open_rw : plain (open_rw fault_at).
Proof.
  apply plain_file_op; [|reflexivity]. apply plain_of_result.
  intros w. destruct (w_target w); simpl; split; try reflexivity;
    discriminate.
Qed.

Lemma plain_f_seek p : plain (f_seek fault_at p).
Proof.
  apply plain_file_op; [|reflexivity]. apply plain_of_result.
  intros w. destruct (p <? 0); simpl; split; try reflexivity; discriminate.
Qed.

Lemma plain_f_read n : plain (f_read fault_at n).
Proof.
  apply plain_file_op; [|reflexivity]. apply plain_of_result.
  intros w. destruct (w_target w); simpl; split; try reflexivity;
    discriminate.
Qed.

Lemma plain_f_write data : plain (f_write fault_at data).
Proof.
  apply plain_file_op.
  - apply plain_of_result. intros w. unfold put_bytes.
    destruct (w_target w); simpl; split; try reflexivity; discriminate.
  - intros n w. unfold put_bytes. destruct (w_target w); reflexivity.
Qed.

Lemma plain_randint lo hi : plain (randint rand lo hi).
Proof.
  apply plain_of_result. intros w. unfold randint.
  destruct (hi <? lo); simpl; split; try reflexivity; discriminate.
Qed.

Lemma plain_mutate fuel original_bytes :
  plain (mutate rand fuel original_bytes).
Proof.
  apply plain_of_result. intros w.
  destruct (mutate rand fuel original_bytes w) as [r w'] eqn:E.
  destruct (mutate_spec rand fuel original_bytes w r w' E) as [Hf [Hr _]].
  simpl. split; [apply (rng_only_fields _ _ Hf) | intros code; apply Hr].
Qed.

Lemma plain_protect_region_check file_size pos destroy_count :
  plain (protect_region_check rand file_size pos destroy_count).
Proof.
  unfold protect_region_check.
  destruct (_ <=? _); [apply plain_raise; discriminate|].
  destruct (_ || _); [apply plain_ret|].
  destruct (_ <=? _); [apply plain_ret|].
  apply plain_bind; [|intros; apply plain_ret].
  destruct (_ <? _); [|apply plain_ret].
  apply plain_bind; [apply plain_randint | intros; apply plain_ret].
Qed.

Lemma plain_corrupt_step fuel file_size step_bytes destroy_bytes idx :
  plain (corrupt_step rand fault_at fuel file_size step_bytes destroy_bytes
           idx).
Proof.
  unfold corrupt_step.
  apply plain_bind; [apply plain_log | intros _].
  apply plain_bind; [apply plain_protect_region_check | intros [a num]].
  destruct (num <=? 0); [apply plain_ret|].
  apply plain_bind; [apply plain_f_seek | intros _].
  apply plain_bind; [apply plain_f_read | intros ob].
  apply plain_bind; [apply plain_mutate | intros nb].
  apply plain_bind; [apply plain_f_seek | intros _; apply plain_f_write].
Qed.

Lemma plain_backup_step make_backup : plain (backup_step fault_at make_backup).
Proof.
  unfold backup_step. destruct make_backup; [|apply plain_ret].
  apply plain_try.
  - apply plain_bind; [apply plain_copy2 | intros _; apply plain_ret].
  - intros e k. destruct (is_Exception e); [|discriminate].
    intros E. inversion E; subst. apply plain_ask_yes_no.
Qed.

Lemma total_steps_no_exit file_size step_bytes code :
  total_steps file_size step_bytes <> Raise (SystemExit code).
Proof. unfold total_steps. destruct (_ =? _); discriminate. Qed.

Lemma plain_corrupt_file fuel step_kb destroy_bytes make_backup :
  plain (corrupt_file rand fault_at fuel step_kb destroy_bytes make_backup).
Proof.
  unfold corrupt_file.
  apply plain_bind; [apply plain_stat_size | intros file_size].
  apply plain_bind;
    [apply plain_lift; intros code; apply total_steps_no_exit
    | intros total].
  apply plain_bind; [apply plain_backup_step | intros go_on].
  destruct (negb go_on); [apply plain_ret|].
  apply plain_bind; [apply plain_open_rw | intros _].
  apply plain_for_each. intros idx. apply plain_corrupt_step.
Qed.

End PlainProgram.

Lemma py_int_no_exit text code : Num.py_int text <> Raise (SystemExit code).
Proof.
  unfold Num.py_int.
  match goal with |- match ?x with _ => _ end <> _ => destruct x end;
    discriminate.
Qed.

Lemma parse_size_str_raises text e :
  parse_size_str text = Raise e -> e = ValueError \/ e = OverflowError.
Proof.
  unfold parse_size_str.
  destruct (scan_size _ _ _) as [num unit].
  destruct (Num.py_float _) as [x | e' |] eqn:Ef; simpl.
  - destruct (String.eqb unit "KB").
    + destruct (Num.mul1024 x); simpl; intros H; inversion H. auto.
    + destruct (String.eqb unit "B").
      * destruct x; simpl; intros H; inversion H. auto.
      * intros H; inversion H. auto.
  - apply py_float_raises in Ef. subst e'. intros H. inversion H. auto.
  - discriminate.
Qed.

Lemma parse_size_str_ends text : parse_size_str text <> Diverge.
Proof.
  unfold parse_size_str.
  destruct (scan_size _ _ _) as [num unit].
  destruct (Num.py_float _) as [x | e' |] eqn:Ef; simpl.
  - destruct (String.eqb unit "KB"); [destruct (Num.mul1024 x); discriminate|].
    destruct (String.eqb unit "B"); [destruct x; discriminate | discriminate].
  - discriminate.
  - exfalso. exact (py_float_ends _ Ef).
Qed.

Lemma py_int_ends text : Num.py_int text <> Diverge.
Proof.
  unfold Num.py_int.
  match goal with |- match ?x with _ => _ end <> _ => destruct x end;
    discriminate.
Qed.

Lemma py_int_raises text e : Num.py_int text = Raise e -> e = ValueError.
Proof.
  unfold Num.py_int.
  match goal with |- match ?x with _ => _ end = _ -> _ => destruct x end;
    intros H; inversion H; reflexivity.
Qed.

(** ** The size literal: what it can return *)

Lemma digit_val_nonneg c : Str.isdigit c = true -> 0 <= Num.digit_val c.
Proof.
  unfold Str.isdigit, Num.digit_val. intros H.
  apply andb_true_iff in H. destruct H as [H _].
  apply Nat.leb_le in H. lia.
Qed.

Lemma decimal_nonneg : forall s mant frac seen m k,
  0 <= mant -> Num.decimal s mant frac seen = Some (m, k) -> 0 <= m.
Proof.
  induction s as [| c s IH]; intros mant frac seen m k Hm;
    cbn [Num.decimal].
  - destruct seen; [|discriminate]. intros H. inversion H; subst. exact Hm.
  - destruct (Str.isdigit c) eqn:Ed.
    + apply IH. pose proof (digit_val_nonneg c Ed). lia.
    + destruct (Str.code c =? 46)%nat; [|discriminate].
      destruct frac; [discriminate|]. apply IH. exact Hm.
Qed.

Lemma pow2_pos e : 0 < Num.pow2 e \/ Num.pow2 e = 0.
Proof.
  unfold Num.pow2. destruct (Z_le_gt_dec 0 e) as [H | H].
  - left. apply Z.pow_pos_nonneg; lia.
  - right. apply Z.pow_neg_r. lia.
Qed.

Lemma round_half_even_nonneg p q :
  0 <= p -> 0 <= q -> 0 <= Num.round_half_even p q.
Proof.
  intros Hp Hq. unfold Num.round_half_even.
  assert (H : 0 <= p / q).
  { destruct (Z.eq_dec q 0) as [-> | Hne].
    - rewrite Z.div_0_r. lia.
    - apply Z.div_pos; lia. }
  destruct (2 * (p mod q) <? q); [exact H|].
  destruct (q <? 2 * (p mod q)); [lia|].
  destruct (Z.even (p / q)); lia.
Qed.

Lemma round64_nonneg p q m e :
  0 <= p -> 0 < q -> Num.round64 p q = Num.Finite m e -> 0 <= m.
Proof.
  intros Hp Hq. unfold Num.round64.
  destruct (p =? 0); [intros H; inversion H; lia|].
  match goal with
  | |- (if Num.overflows ?mm ?u then _ else _) = _ -> _ =>
      assert (Hmm : 0 <= mm); [|destruct (Num.overflows mm u);
                                 [discriminate|];
                                 intros H; inversion H; subst; exact Hmm]
  end.
  match goal with
  | |- 0 <= (if ?b then _ else _) => destruct b
  end.
  - apply round_half_even_nonneg; [exact Hp|].
    destruct (pow2_pos (Z.max
                (((if Num.ge_pow2 p q (Z.log2 p - Z.log2 q)
                   then Z.log2 p - Z.log2 q
                   else Z.log2 p - Z.log2 q - 1)) - 52) (-1074))); nia.
  - apply round_half_even_nonneg; [|lia].
    match goal with |- 0 <= p * Num.pow2 ?x => destruct (pow2_pos x) end; nia.
Qed.

Lemma int_of_float_nonneg m e n :
  0 <= m -> Num.int_of_float (Num.Finite m e) = Ret n -> 0 <= n.
Proof.
  intros Hm. simpl. intros H. inversion H; subst. clear H.
  destruct (0 <=? e).
  - destruct (pow2_pos e); nia.
  - destruct (pow2_pos (- e)) as [Hp | Hp].
    + apply Z.div_pos; lia.
    + rewrite Hp, Z.div_0_r. lia.
Qed.

Lemma parse_size_str_nonneg text n : parse_size_str text = Ret n -> 0 <= n.
Proof.
  unfold parse_size_str.
  destruct (scan_size _ _ _) as [num unit].
  unfold Num.py_float.
  destruct (Num.decimal _ 0 None false) as [[m k] |] eqn:Ed; simpl;
    [|discriminate].
  pose proof (decimal_nonneg _ _ _ _ _ _ (Z.le_refl 0) Ed) as Hm.
  assert (Hq : 0 < 10 ^ Z.of_nat k) by (apply Z.pow_pos_nonneg; lia).
  destruct (Num.round64 m (10 ^ Z.of_nat k)) as [fm fe |] eqn:Er.
  - pose proof (round64_nonneg _ _ _ _ Hm Hq Er) as Hfm.
    destruct (String.eqb unit "KB").
    + unfold Num.mul1024. destruct (Num.overflows fm (fe + 10));
        [discriminate|]. apply int_of_float_nonneg. exact Hfm.
    + destruct (String.eqb unit "B"); [|discriminate].
      apply int_of_float_nonneg. exact Hfm.
  - destruct (String.eqb unit "KB"); [discriminate|].
    destruct (String.eqb unit "B"); discriminate.
Qed.

(** The step of the front ends is computed without any effect: it is the
    positive integer that the text denotes, or the size literal divided by
    1024; when neither is accepted, what [otherwise] does. *)
Lemma parse_step_cases text (otherwise : M Z) w :
  (exists k, 0 < k /\ Num.py_int text = Ret k /\
             parse_step text otherwise w = (Ret k, w)) \/
  (exists n, int_rejected text /\ parse_size_str text = Ret n /\
             parse_step text otherwise w = (Ret (n / 1024), w)) \/
  (int_rejected text /\
   (parse_size_str text = Raise ValueError \/
    parse_size_str text = Raise OverflowError) /\
   parse_step text otherwise w = otherwise w).
Proof.
  assert (Hsize : int_rejected text ->
            try_except (n <- lift (parse_size_str text) ;; ret (n / 1024))
              (fun e' => if is_Exception e' then Some otherwise else None) w
            = match parse_size_str text with
              | Ret n => (Ret (n / 1024), w)
              | _ => otherwise w
              end).
  { intros _. unfold try_except, bind, lift, ret.
    destruct (parse_size_str text) as [n | e |] eqn:Es; [reflexivity | |].
    - destruct (parse_size_str_raises _ _ Es) as [-> | ->]; reflexivity.
    - exfalso. exact (parse_size_str_ends _ Es). }
  assert (Hrest : int_rejected text ->
            try_except (n <- lift (parse_size_str text) ;; ret (n / 1024))
              (fun e' => if is_Exception e' then Some otherwise else None) w
            = parse_step text otherwise w ->
            (exists n, int_rejected text /\ parse_size_str text = Ret n /\
               parse_step text otherwise w = (Ret (n / 1024), w)) \/
            (int_rejected text /\
             (parse_size_str text = Raise ValueError \/
              parse_size_str text = Raise OverflowError) /\
             parse_step text otherwise w = otherwise w)).
  { intros Hrej Heq. rewrite <- Heq, (Hsize Hrej).
    destruct (parse_size_str text) as [n | e |] eqn:Es.
    - left. exists n. auto.
    - right. split; [exact Hrej|]. split; [|reflexivity].
      destruct (parse_size_str_raises _ _ Es) as [-> | ->]; auto.
    - exfalso. exact (parse_size_str_ends _ Es). }
  destruct (Num.py_int text) as [k | e |] eqn:Ei.
  - destruct (Z_le_gt_dec k 0) as [Hk | Hk].
    + right. apply Hrest; [right; exists k; auto|].
      unfold parse_step. unfold try_except at 2. unfold bind at 2.
      unfold lift at 2. rewrite Ei.
      assert (E : (k <=? 0) = true) by (apply Z.leb_le; lia).
      rewrite E. reflexivity.
    + left. exists k. split; [lia|]. split; [reflexivity|].
      unfold parse_step, try_except, bind, lift. rewrite Ei.
      assert (E : (k <=? 0) = false) by (apply Z.leb_gt; lia).
      rewrite E. reflexivity.
  - pose proof (py_int_raises _ _ Ei) as ->.
    right. apply Hrest; [left; exact Ei|].
    unfold parse_step. unfold try_except at 2. unfold bind at 2.
    unfold lift at 2. rewrite Ei. reflexivity.
  - exfalso. exact (py_int_ends _ Ei).
Qed.

(** ** The front ends: nothing happens to the files before a yes *)

Lemma safe_of_plain {A} (m : M A) : plain m -> harmless m -> safe m.
Proof.
  intros [Hl Hx] Hh. split; [exact Hl|]. split.
  - intros w. right. apply Hh.
  - intros w code H. exfalso. exact (Hx w code H).
Qed.

Lemma safe_ret {A} (a : A) : safe (ret a).
Proof. apply safe_of_plain; [apply plain_ret | intros w; split; reflexivity]. Qed.

Lemma safe_raise {A} (e : exn) :
  (forall code, e <> SystemExit code) -> safe (@raise A e).
Proof.
  intros He. apply safe_of_plain; [apply plain_raise; exact He|].
  intros w; split; reflexivity.
Qed.

Lemma safe_lift {A} (r : result A) :
  (forall code, r <> Raise (SystemExit code)) -> safe (lift r).
Proof.
  intros Hr. apply safe_of_plain; [apply plain_lift; exact Hr|].
  intros w; split; reflexivity.
Qed.

Lemma safe_sys_exit {A} code : code = 0 \/ code = 1 -> safe (@sys_exit A code).
Proof.
  intros Hc. split; [intros w e H; exact H|]. split.
  - intros w. right. split; reflexivity.
  - intros w c H. inversion H. subst. exact Hc.
Qed.

Lemma safe_bind {A B} (m : M A) (f : A -> M B) :
  safe m -> (forall a, safe (f a)) -> safe (bind m f).
Proof.
  intros [Hl [Hs Hx]] Hf. split; [|split].
  - intros w e H. unfold bind. specialize (Hl w e H).
    destruct (m w) as [[a | e' |] w1]; simpl in *; try exact Hl.
    apply (proj1 (Hf a)). exact Hl.
  - intros w. unfold bind. specialize (Hs w).
    destruct (m w) as [[a | e' |] w1]; simpl in *; try exact Hs.
    destruct (Hf a) as [Hl' [Hs' _]].
    destruct Hs as [Hy | [Ht Hb]].
    + left. apply Hl'. exact Hy.
    + destruct (Hs' w1) as [Hy | [Ht' Hb']]; [left; exact Hy|].
      right. split; congruence.
  - intros w code. unfold bind. specialize (Hx w code).
    destruct (m w) as [[a | e' |] w1]; simpl in *.
    + apply (proj2 (proj2 (Hf a))).
    + intros H. apply Hx. inversion H. reflexivity.
    + discriminate.
Qed.

Lemma safe_try {A} (m : M A) (h : exn -> option (M A)) :
  safe m -> (forall e k, h e = Some k -> safe k) -> safe (try_except m h).
Proof.
  intros [Hl [Hs Hx]] Hh. split; [|split].
  - intros w e H. unfold try_except. specialize (Hl w e H).
    destruct (m w) as [[a | e' |] w1]; simpl in *; try exact Hl.
    destruct (h e') as [k |] eqn:Ek; [|exact Hl].
    apply (proj1 (Hh e' k Ek)). exact Hl.
  - intros w. unfold try_except. specialize (Hs w).
    destruct (m w) as [[a | e' |] w1]; simpl in *; try exact Hs.
    destruct (h e') as [k |] eqn:Ek; [|exact Hs].
    destruct (Hh e' k Ek) as [Hl' [Hs' _]].
    destruct Hs as [Hy | [Ht Hb]].
    + left. apply Hl'. exact Hy.
    + destruct (Hs' w1) as [Hy | [Ht' Hb']]; [left; exact Hy|].
      right. split; congruence.
  - intros w code. unfold try_except. specialize (Hx w code).
    destruct (m w) as [[a | e' |] w1]; simpl in *; try discriminate.
    destruct (h e') as [k |] eqn:Ek; [|exact Hx].
    apply (proj2 (proj2 (Hh e' k Ek))).
Qed.

(** After a prompt: what follows a yes may do anything that is plain, what
    follows a no must be safe itself. *)
Lemma safe_ask {A} default (k : bool -> M A) :
  plain (k true) -> safe (k false) -> safe (bind (ask_yes_no default) k).
Proof.
  intros [Hlt Hxt] [Hlf [Hsf Hxf]].
  destruct (plain_ask_yes_no default) as [Hla Hxa].
  assert (Hspec : forall w, 
            w_target (snd (ask_yes_no default w)) = w_target w /\
            w_backup (snd (ask_yes_no default w)) = w_backup w /\
            (fst (ask_yes_no default w) = Ret true ->
             In (Answered true) (w_log (snd (ask_yes_no default w))))).
  { intros w. destruct (ask_yes_no default w) as [r w1] eqn:E.
    destruct (ask_yes_no_spec _ _ _ _ E) as [Ht [Hb Hl]]. simpl.
    split; [exact Ht|]. split; [exact Hb|].
    intros ->. rewrite Hl. apply in_or_app. right. left. reflexivity. }
  split; [|split].
  - intros w e H. unfold bind. specialize (Hla w e H).
    destruct (ask_yes_no default w) as [[[|] | e' |] w1]; simpl in *;
      try exact Hla; [apply Hlt | apply Hlf]; exact Hla.
  - intros w. unfold bind. destruct (Hspec w) as [Ht [Hb Hy]].
    destruct (ask_yes_no default w) as [[[|] | e' |] w1]; simpl in *.
    + left. apply Hlt. apply Hy. reflexivity.
    + destruct (Hsf w1) as [Hy' | [Ht' Hb']]; [left; exact Hy'|].
      right. split; congruence.
    + right. auto.
    + right. auto.
  - intros w code. unfold bind. specialize (Hxa w code).
    destruct (ask_yes_no default w) as [[[|] | e' |] w1]; simpl in *.
    + intros H. exfalso. exact (Hxt w1 code H).
    + apply Hxf.
    + intros H. exfalso. apply Hxa. inversion H. reflexivity.
    + discriminate.
Qed.

Lemma safe_input : safe input.
Proof.
  apply safe_of_plain; [apply plain_input|].
  intros w. unfold input. destruct (w_stdin w) as [| [s |] rest]; split;
    reflexivity.
Qed.

Lemma safe_path_exists : safe path_exists.
Proof.
  apply safe_of_plain; [|intros w; split; reflexivity].
  apply plain_of_result. intros w. split; [reflexivity | discriminate].
Qed.

Lemma safe_path_is_file : safe path_is_file.
Proof.
  apply safe_of_plain; [|intros w; split; reflexivity].
  apply plain_of_result. intros w. split; [reflexivity | discriminate].
Qed.

Lemma safe_parse_step text (otherwise : M Z) :
  safe otherwise -> safe (parse_step text otherwise).
Proof.
  intros [Hl [Hs Hx]].
  assert (Hc : forall w, parse_step text otherwise w = otherwise w \/
                         exists k, parse_step text otherwise w = (Ret k, w)).
  { intros w.
    destruct (parse_step_cases text otherwise w)
      as [[k [_ [_ E]]] | [[n [_ [_ E]]] | [_ [_ E]]]]; eauto. }
  split; [|split].
  - intros w e H. destruct (Hc w) as [-> | [k ->]]; [apply Hl|]; exact H.
  - intros w. destruct (Hc w) as [-> | [k ->]]; [apply Hs|].
    right. split; reflexivity.
  - intros w code. destruct (Hc w) as [-> | [k ->]]; [apply Hx|].
    discriminate.
Qed.

Section SafeProgram.

Variable rand : nat -> Z.
Variable fault_at : nat -> fault.

Lemma safe_stat_size : safe (stat_size fault_at).
Proof.
  apply safe_of_plain; [apply plain_stat_size|].
  intros w. unfold stat_size, file_op.
  destruct (fault_at (w_io w)); simpl; try (split; reflexivity).
  destruct (w_target w) eqn:Ht; simpl; split; (exact Ht || reflexivity).
Qed.

Lemma safe_cli_run fuel args : safe (cli_run rand fault_at fuel args).
Proof.
  unfold cli_run.
  apply safe_bind; [apply safe_path_exists|].
  intros there. destruct (negb there); [apply safe_sys_exit; auto|].
  apply safe_bind; [apply safe_path_is_file|].
  intros is_file. destruct (negb is_file); [apply safe_sys_exit; auto|].
  apply safe_bind; [apply safe_parse_step, safe_sys_exit; auto|].
  intros step_kb. destruct (a_destroy args <=? 0); [apply safe_sys_exit; auto|].
  apply safe_bind.
  { destruct (a_no_backup args); [|apply safe_ret].
    apply safe_ask; [apply plain_ret | apply safe_sys_exit; auto]. }
  intros _. apply safe_bind; [apply safe_stat_size|].
  intros _. apply safe_ask; [apply plain_corrupt_file|].
  apply safe_sys_exit; auto.
Qed.

Lemma safe_interactive_mode fuel : safe (interactive_mode rand fault_at fuel).
Proof.
  unfold interactive_mode. apply safe_try.
  2:{ intros e k. destruct (is_Exception e); [|discriminate].
      intros E. inversion E; subst. apply safe_sys_exit; auto. }
  apply safe_bind; [apply safe_input|].
  intros file_path.
  destruct (Str.is_empty _); [apply safe_raise; discriminate|].
  apply safe_bind; [apply safe_path_exists|].
  intros there. destruct (negb there); [apply safe_raise; discriminate|].
  apply safe_bind; [apply safe_path_is_file|].
  intros is_file. destruct (negb is_file); [apply safe_raise; discriminate|].
  apply safe_bind; [apply safe_stat_size|].
  intros _. apply safe_bind; [apply safe_input|].
  intros step_line. apply safe_bind.
  { destruct (Str.is_empty _); [apply safe_ret|].
    apply safe_parse_step, safe_raise. discriminate. }
  intros step_kb. apply safe_bind; [apply safe_input|].
  intros destroy_line. apply safe_bind.
  { destruct (Str.is_empty _); [apply safe_ret|].
    apply safe_try.
    - apply safe_bind; [apply safe_lift; intros code; apply py_int_no_exit|].
      intros d. destruct (d <=? 0);
        [apply safe_raise; discriminate | apply safe_ret].
    - intros e k. destruct (is_ValueError e); [|discriminate].
      intros E. inversion E; subst. apply safe_raise. discriminate. }
  intros destroy_bytes. apply safe_bind; [apply safe_input|].
  intros disable_line. apply safe_ask; [apply plain_corrupt_file|].
  apply safe_ret.
Qed.

(** [argparse] leaves with the code 2 when it refuses the command line;
    every other way through a front end is safe. *)
Lemma main_usage_error fuel w :
  main rand fault_at fuel (CommandLine UsageError) w
  = (Raise (SystemExit 2), w).
Proof. reflexivity. Qed.

Lemma safe_cli_main fuel line :
  line <> UsageError -> safe (cli_main rand fault_at fuel line).
Proof.
  intros Hl. destruct line as [args | |].
  - rewrite cli_main_namespace. apply safe_cli_run.
  - congruence.
  - unfold cli_main.
    apply safe_bind; [apply (@safe_sys_exit cli_args 0); auto|].
    intros args. apply safe_cli_run.
Qed.

Lemma safe_main fuel m :
  m <> CommandLine UsageError -> safe (main rand fault_at fuel m).
Proof.
  intros Hm. unfold main. apply safe_try.
  - destruct m as [line |]; [|apply safe_interactive_mode].
    apply safe_cli_main. congruence.
  - intros e k E.
    assert (Hk : k = sys_exit 1).
    { destruct e; simpl in E; inversion E; reflexivity. }
    subst k. apply safe_sys_exit. auto.
Qed.

End SafeProgram.

Lemma mode_usage_error (m : mode) :
  m = CommandLine UsageError \/ m <> CommandLine UsageError.
Proof.
  destruct m as [[args | |] |]; (left; reflexivity) || (right; discriminate).
Qed.

(** X6: in every run of the program, in either front end and however it
    ends, when no prompt has been answered with yes (the empty line at the
    confirmation counts as yes) the target and the backup are what they
    were at the start. *)
Theorem files_untouched_without_a_yes
  (rand : nat -> Z) (fault_at : nat -> fault) (fuel : nat) (m : mode)
  (target : node) (backup : option (list Z)) (stdin : list input_event) :
  ~ In (Answered true)
       (w_log (snd (run rand fault_at fuel m target backup stdin))) ->
  w_target (snd (run rand fault_at fuel m target backup stdin)) = target /\
  w_backup (snd (run rand fault_at fuel m target backup stdin)) = backup.
Proof.
  unfold run.
  destruct (mode_usage_error m) as [-> | Hm].
  { rewrite main_usage_error. intros _. split; reflexivity. }
  destruct (safe_main rand fault_at fuel m Hm) as [_ [Hs _]].
  specialize (Hs (init_world target backup stdin)).
  destruct (main rand fault_at fuel m (init_world target backup stdin))
    as [r w']. simpl in *.
  intros Hno. destruct Hs as [Hy | Hsame]; [contradiction | exact Hsame].
Qed.

Lemma files_untouched_without_a_yes_witness :
  ~ In (Answered true)
       (w_log (snd (run counting no_fault 4
                      (CommandLine (Namespace (mkArgs "target.bin" "1KB" 4 false)))
                      (blank_file 3000) (Some [1; 2; 3]) [Line "n"]))) /\
  w_target (snd (run counting no_fault 4
                   (CommandLine (Namespace (mkArgs "target.bin" "1KB" 4 false)))
                   (blank_file 3000) (Some [1; 2; 3]) [Line "n"]))
  = blank_file 3000 /\
  w_backup (snd (run counting no_fault 4
                   (CommandLine (Namespace (mkArgs "target.bin" "1KB" 4 false)))
                   (blank_file 3000) (Some [1; 2; 3]) [Line "n"]))
  = Some [1; 2; 3].
Proof.
  assert (H : ~ In (Answered true)
                (w_log (snd (run counting no_fault 4
                      (CommandLine (Namespace (mkArgs "target.bin" "1KB" 4 false)))
                      (blank_file 3000) (Some [1; 2; 3]) [Line "n"])))).
  { vm_compute. intros [H | []]. discriminate H. }
  split; [exact H|].
  exact (files_untouched_without_a_yes counting no_fault 4
           (CommandLine (Namespace (mkArgs "target.bin" "1KB" 4 false)))
           (blank_file 3000) (Some [1; 2; 3]) [Line "n"] H).
Defined.

(** What the entry point can give: no exception leaves it, and the codes
    of [sys.exit] are 0 and 1, and 2 when [argparse] refuses the command
    line. *)
Lemma no_exception_cases
  (rand : nat -> Z) (fault_at : nat -> fault) (fuel : nat) (m : mode)
  (w : world) :
  fst (main rand fault_at fuel m w) = Ret tt \/
  fst (main rand fault_at fuel m w) = Raise (SystemExit 0) \/
  fst (main rand fault_at fuel m w) = Raise (SystemExit 1) \/
  fst (main rand fault_at fuel m w) = Raise (SystemExit 2) /\
  m = CommandLine UsageError \/
  fst (main rand fault_at fuel m w) = Diverge.
Proof.
  destruct (mode_usage_error m) as [-> | Hm].
  { right. right. right. left. split; reflexivity. }
  destruct (safe_main rand fault_at fuel m Hm) as [_ [_ Hx]].
  specialize (Hx w).
  assert (Hh : forall e w1,
            main rand fault_at fuel m w = (Raise e, w1) ->
            exists code, e = SystemExit code).
  { intros e w1. unfold main, try_except.
    destruct (match m with
              | CommandLine line => cli_main rand fault_at fuel line
              | Interactive => interactive_mode rand fault_at fuel
              end w) as [[[] | e1 |] w2]; try discriminate.
    destruct e1; simpl; intros E; inversion E; eauto. }
  destruct (main rand fault_at fuel m w) as [[[] | e |] w1] eqn:E; simpl in *;
    auto 6.
  destruct (Hh e w1 eq_refl) as [code ->].
  destruct (Hx code eq_refl) as [-> | ->]; auto.
Qed.

(** X7: no exception leaves the entry point: from every world, in either
    front end, whatever [argparse] makes of the command line, with any
    faults of the file operations and any input, the program returns, or
    leaves through [sys.exit(0)] or [sys.exit(1)], or leaves through the
    [sys.exit(2)] of [argparse], which happens exactly when [argparse]
    refuses the command line, or does not end; none of [ValueError],
    [ZeroDivisionError], [OverflowError], [OSError], [EOFError] and
    [KeyboardInterrupt] reaches the interpreter. *)
Theorem no_exception_escapes
  (rand : nat -> Z) (fault_at : nat -> fault) (fuel : nat) (m : mode)
  (w : world) :
  (fst (main rand fault_at fuel m w) = Ret tt \/
   fst (main rand fault_at fuel m w) = Raise (SystemExit 0) \/
   fst (main rand fault_at fuel m w) = Raise (SystemExit 1) \/
   fst (main rand fault_at fuel m w) = Raise (SystemExit 2) \/
   fst (main rand fault_at fuel m w) = Diverge) /\
  (fst (main rand fault_at fuel m w) = Raise (SystemExit 2) <->
   m = CommandLine UsageError).
Proof.
  pose proof (no_exception_cases rand fault_at fuel m w) as H.
  split.
  - destruct H as [H | [H | [H | [[H _] | H]]]]; auto.
  - split.
    + intros E. rewrite E in H.
      destruct H as [H | [H | [H | [[_ H] | H]]]];
        try discriminate H; exact H.
    + intros ->. reflexivity.
Qed.

(** ** The program ends *)

Lemma total_parse_step text (otherwise : M Z) :
  total otherwise -> total (parse_step text otherwise).
Proof.
  intros Ho w.
  destruct (parse_step_cases text otherwise w)
    as [[k [_ [_ E]]] | [[n [_ [_ E]]] | [_ [_ E]]]]; rewrite E;
    [discriminate | discriminate | apply Ho].
Qed.

Section ProgramEnds.

Variable rand : nat -> Z.
Variable fault_at : nat -> fault.
Hypothesis rand_fair : fair rand.

Lemma cli_run_converges args :
  converges (fun n => cli_run rand fault_at n args).
Proof.
  unfold cli_run.
  apply converges_bind_total; [apply total_path_exists | intros there].
  destruct (negb there); [apply total_converges, total_raise|].
  apply converges_bind_total; [apply total_path_is_file | intros is_file].
  destruct (negb is_file); [apply total_converges, total_raise|].
  apply converges_bind_total;
    [apply total_parse_step, total_raise | intros step_kb].
  destruct (a_destroy args <=? 0); [apply total_converges, total_raise|].
  apply converges_bind_total.
  { destruct (a_no_backup args); [|apply total_ret].
    apply total_bind; [apply total_ask_yes_no|].
    intros ok. destruct (negb ok); [apply total_raise | apply total_ret]. }
  intros _. apply converges_bind_total; [apply total_stat_size | intros _].
  apply converges_bind_total; [apply total_ask_yes_no | intros ok].
  destruct (negb ok); [apply total_converges, total_raise|].
  apply corrupt_file_converges, rand_fair.
Qed.

Lemma total_parse_args line : total (parse_args line).
Proof. destruct line; [apply total_ret | apply total_raise ..]. Qed.

Lemma cli_main_converges line :
  converges (fun n => cli_main rand fault_at n line).
Proof.
  unfold cli_main.
  apply converges_bind_total; [apply total_parse_args | intros args].
  apply cli_run_converges.
Qed.

Lemma interactive_mode_converges :
  converges (fun n => interactive_mode rand fault_at n).
Proof.
  unfold interactive_mode.
  apply (converges_try
           (fun n =>
              file_path <- input ;;
              if Str.is_empty (Str.strip_quotes file_path)
              then raise ValueError
              else
                there <- path_exists ;;
                if negb there then raise OSError
                else
                  is_file <- path_is_file ;;
                  if negb is_file then raise ValueError
                  else
                    _ <- stat_size fault_at ;;
                    step_line <- input ;;
                    step_kb <- (if Str.is_empty (Str.strip step_line)
                                then ret 1
                                else parse_step (Str.strip step_line)
                                       (raise ValueError)) ;;
                    destroy_line <- input ;;
                    destroy_bytes <-
                      (if Str.is_empty (Str.strip destroy_line) then ret 4
                       else
                         try_except
                           (d <- lift (Num.py_int (Str.strip destroy_line)) ;;
                            if d <=? 0 then raise ValueError else ret d)
                           (fun e => if is_ValueError e
                                     then Some (raise ValueError)
                                     else None)) ;;
                    disable_line <- input ;;
                    ok <- confirm_action ;;
                    if negb ok then ret tt
                    else corrupt_file rand fault_at n step_kb destroy_bytes
                           (negb (is_yes (Str.lower (Str.strip disable_line)))))).
  2:{ intros e k. destruct (is_Exception e); [|discriminate].
      intros E. inversion E; subst. apply total_raise. }
  apply converges_bind_total; [apply total_input | intros file_path].
  destruct (Str.is_empty _); [apply total_converges, total_raise|].
  apply converges_bind_total; [apply total_path_exists | intros there].
  destruct (negb there); [apply total_converges, total_raise|].
  apply converges_bind_total; [apply total_path_is_file | intros is_file].
  destruct (negb is_file); [apply total_converges, total_raise|].
  apply converges_bind_total; [apply total_stat_size | intros _].
  apply converges_bind_total; [apply total_input | intros step_line].
  apply converges_bind_total.
  { destruct (Str.is_empty _); [apply total_ret|].
    apply total_parse_step, total_raise. }
  intros step_kb.
  apply converges_bind_total; [apply total_input | intros destroy_line].
  apply converges_bind_total.
  { destruct (Str.is_empty _); [apply total_ret|].
    apply total_try.
    - apply total_bind; [apply total_lift, py_int_ends|].
      intros d. destruct (d <=? 0); [apply total_raise | apply total_ret].
    - intros e k. destruct (is_ValueError e); [|discriminate].
      intros E. inversion E; subst. apply total_raise. }
  intros destroy_bytes.
  apply converges_bind_total; [apply total_input | intros disable_line].
  apply converges_bind_total; [apply total_ask_yes_no | intros ok].
  destruct (negb ok); [apply total_converges, total_ret|].
  apply corrupt_file_converges, rand_fair.
Qed.

Lemma main_converges m : converges (fun n => main rand fault_at n m).
Proof.
  unfold main.
  apply (converges_try
           (fun n => match m with
                     | CommandLine line => cli_main rand fault_at n line
                     | Interactive => interactive_mode rand fault_at n
                     end)).
  - destruct m; [apply cli_main_converges | apply interactive_mode_converges].
  - intros e k E.
    assert (Hk : k = sys_exit 1).
    { destruct e; simpl in E; inversion E; reflexivity. }
    subst k. apply total_raise.
Qed.

End ProgramEnds.

(** X8: with a fair random source the program ends on every standard
    input that ends (a finite list of lines and interrupts; at its end
    [input] raises [EOFError]), whatever the faults of the file operations
    and whatever [argparse] makes of the command line: from some amount of
    fuel on every run gives the same result, and its exit status is 0, 1
    or 2, the last exactly when [argparse] refuses the command line. *)
Theorem program_ends_on_finite_input
  (rand : nat -> Z) (fault_at : nat -> fault) (m : mode)
  (target : node) (backup : option (list Z)) (stdin : list input_event) :
  fair rand ->
  exists fuel,
    (fst (run rand fault_at fuel m target backup stdin) = Some 0 \/
     fst (run rand fault_at fuel m target backup stdin) = Some 1 \/
     fst (run rand fault_at fuel m target backup stdin) = Some 2) /\
    (fst (run rand fault_at fuel m target backup stdin) = Some 2 <->
     m = CommandLine UsageError) /\
    forall fuel', (fuel <= fuel')%nat ->
      run rand fault_at fuel' m target backup stdin
      = run rand fault_at fuel m target backup stdin.
Proof.
  intros Hfair.
  destruct (main_converges rand fault_at Hfair m
              (init_world target backup stdin)) as [fuel [Hend Hstable]].
  exists fuel.
  assert (Hst : fst (run rand fault_at fuel m target backup stdin) = Some 0 \/
                fst (run rand fault_at fuel m target backup stdin) = Some 1 \/
                fst (run rand fault_at fuel m target backup stdin) = Some 2 /\
                m = CommandLine UsageError).
  { unfold run.
    destruct (no_exception_cases rand fault_at fuel m
                (init_world target backup stdin))
      as [H | [H | [H | [[H Hm] | H]]]];
      destruct (main rand fault_at fuel m (init_world target backup stdin))
        as [r w']; simpl in *; subst r; auto.
    contradiction. }
  split; [|split].
  - destruct Hst as [H | [H | [H _]]]; auto.
  - split.
    + intros E. rewrite E in Hst.
      destruct Hst as [H | [H | [_ H]]]; try discriminate H; exact H.
    + intros ->. reflexivity.
  - intros fuel' Hle. unfold run. rewrite (Hstable fuel' Hle). reflexivity.
Qed.

Lemma program_ends_on_finite_input_witness :
  fair counting /\
  exists fuel,
    (fst (run counting no_fault fuel
            (CommandLine (Namespace (mkArgs "target.bin" "1KB" 4 false)))
            (blank_file 3000) None [Line ""]) = Some 0 \/
     fst (run counting no_fault fuel
            (CommandLine (Namespace (mkArgs "target.bin" "1KB" 4 false)))
            (blank_file 3000) None [Line ""]) = Some 1 \/
     fst (run counting no_fault fuel
            (CommandLine (Namespace (mkArgs "target.bin" "1KB" 4 false)))
            (blank_file 3000) None [Line ""]) = Some 2) /\
    (fst (run counting no_fault fuel
            (CommandLine (Namespace (mkArgs "target.bin" "1KB" 4 false)))
            (blank_file 3000) None [Line ""]) = Some 2 <->
     CommandLine (Namespace (mkArgs "target.bin" "1KB" 4 false))
     = CommandLine UsageError) /\
    forall fuel', (fuel <= fuel')%nat ->
      run counting no_fault fuel'
        (CommandLine (Namespace (mkArgs "target.bin" "1KB" 4 false)))
        (blank_file 3000) None [Line ""]
      = run counting no_fault fuel
          (CommandLine (Namespace (mkArgs "target.bin" "1KB" 4 false)))
          (blank_file 3000) None [Line ""].
Proof.
  split; [exact counting_fair|].
  exact (program_ends_on_finite_input counting no_fault
           (CommandLine (Namespace (mkArgs "target.bin" "1KB" 4 false)))
           (blank_file 3000) None [Line ""] counting_fair).
Defined.

(** ** The checks of the command line *)

Lemma cli_main_rejects rand fault_at fuel args w :
  (forall c, w_target w <> Regular c) \/
  step_rejected (a_step args) \/
  a_destroy args <= 0 ->
  cli_main rand fault_at fuel (Namespace args) w = (Raise (SystemExit 1), w).
Proof.
  intros H. rewrite cli_main_namespace. unfold cli_run.
  unfold bind at 1. unfold path_exists at 1.
  destruct (w_target w) as [| size | c] eqn:Ht; [reflexivity | |].
  - simpl. unfold bind at 1. unfold path_is_file at 1. rewrite Ht.
    reflexivity.
  - simpl. unfold bind at 1. unfold path_is_file at 1. rewrite Ht. simpl.
    unfold bind at 1.
    destruct (parse_step_cases (a_step args) (sys_exit 1) w)
      as [[k [Hk [Ei E]]] | [[n [Hrej [Es E]]] | [Hrej [Hs E]]]];
      rewrite E; [| |reflexivity].
    + destruct H as [H | [[Hrej _] | H]].
      * exfalso. exact (H c eq_refl).
      * exfalso. destruct Hrej as [Hrej | [j [Hj Hle]]]; [congruence|].
        rewrite Ei in Hj. inversion Hj. lia.
      * assert (E0 : (a_destroy args <=? 0) = true) by (apply Z.leb_le; lia).
        rewrite E0. reflexivity.
    + destruct H as [H | [[_ Hs] | H]].
      * exfalso. exact (H c eq_refl).
      * exfalso. destruct Hs; congruence.
      * assert (E0 : (a_destroy args <=? 0) = true) by (apply Z.leb_le; lia).
        rewrite E0. reflexivity.
Qed.

(** X9: the command line is checked before anything else happens.  When
    the target is missing or is not a regular file, when the step is
    refused both by [int] (or is not positive) and by [parse_size_str], or
    when the destroy count is not positive, the program ends with the exit
    status 1; when [argparse] refuses the command line it ends with the
    exit status 2, and with 0 after [-h]; in each case the world is as it
    was at the start: no file operation has been made, no line of the
    input has been read, neither file has changed. *)
Theorem cli_rejects_before_any_effect
  (rand : nat -> Z) (fault_at : nat -> fault) (fuel : nat) (args : cli_args)
  (target : node) (backup : option (list Z)) (stdin : list input_event) :
  (forall c, target <> Regular c) \/
  step_rejected (a_step args) \/
  a_destroy args <= 0 ->
  run rand fault_at fuel (CommandLine (Namespace args)) target backup stdin
  = (Some 1, init_world target backup stdin) /\
  run rand fault_at fuel (CommandLine UsageError) target backup stdin
  = (Some 2, init_world target backup stdin) /\
  run rand fault_at fuel (CommandLine HelpRequested) target backup stdin
  = (Some 0, init_world target backup stdin).
Proof.
  intros H. split; [|split; reflexivity].
  unfold run, main, try_except.
  rewrite (cli_main_rejects rand fault_at fuel args
             (init_world target backup stdin) H).
  reflexivity.
Qed.

Lemma cli_rejects_before_any_effect_witness :
  ((forall c, blank_file 3000 <> Regular c) \/
   step_rejected "5MB" \/
   a_destroy (mkArgs "target.bin" "5MB" 4 false) <= 0) /\
  run counting no_fault 4
    (CommandLine (Namespace (mkArgs "target.bin" "5MB" 4 false)))
    (blank_file 3000) None [Line "y"]
  = (Some 1, init_world (blank_file 3000) None [Line "y"]).
Proof.
  assert (H : (forall c, blank_file 3000 <> Regular c) \/
              step_rejected "5MB" \/
              a_destroy (mkArgs "target.bin" "5MB" 4 false) <= 0).
  { right. left. split; [left; reflexivity | left; reflexivity]. }
  split; [exact H|].
  exact (proj1 (cli_rejects_before_any_effect counting no_fault 4
                  (mkArgs "target.bin" "5MB" 4 false)
                  (blank_file 3000) None [Line "y"] H)).
Defined.

(** ** The prompt *)

Lemma set_stdin_same w : set_stdin (w_stdin w) w = w.
Proof. destruct w; reflexivity. Qed.

(** The lines that give no answer are read and dropped, one per turn. *)
Lemma ask_yes_no_loop_skips default : forall junk turns w tail,
  Forall (fun s => answer_of default s = None) junk ->
  w_stdin w = map Line junk ++ tail ->
  ask_yes_no_loop (List.length junk + turns) default w
  = ask_yes_no_loop turns default (set_stdin tail w).
Proof.
  induction junk as [| s junk IH]; intros turns w tail Hj Hs.
  - simpl in *. rewrite <- Hs, set_stdin_same. reflexivity.
  - inversion Hj as [| s' junk' Hs1 Hj1]; subst.
    cbn [List.length Nat.add ask_yes_no_loop].
    unfold bind at 1. unfold input. rewrite Hs. cbn [map app].
    unfold answer_of in Hs1. cbv zeta in Hs1.
    assert (Hnext : ask_yes_no_loop (List.length junk + turns) default
                      (set_stdin (map Line junk ++ tail) w)
                    = ask_yes_no_loop turns default (set_stdin tail w)).
    { rewrite (IH turns (set_stdin (map Line junk ++ tail) w) tail Hj1
                 eq_refl). reflexivity. }
    destruct (Str.is_empty (Str.lower (Str.strip s))).
    + subst default. exact Hnext.
    + destruct (is_yes _); [discriminate|].
      destruct (is_no _); [discriminate | exact Hnext].
Qed.

Lemma ask_yes_no_loop_answers default turns w s rest b :
  w_stdin w = Line s :: rest ->
  answer_of default s = Some b ->
  ask_yes_no_loop (S turns) default w = (Ret b, set_stdin rest w).
Proof.
  intros Hs Ha. cbn [ask_yes_no_loop]. unfold bind at 1. unfold input.
  rewrite Hs. unfold answer_of in Ha. cbv zeta in Ha.
  destruct (Str.is_empty (Str.lower (Str.strip s))).
  - subst default. destruct b; reflexivity.
  - destruct (is_yes _); [inversion Ha; reflexivity|].
    destruct (is_no _); [inversion Ha; reflexivity | discriminate].
Qed.

(** X10: [ask_yes_no] reads the input line by line up to the first line
    that gives an answer, and no further: a line answers when, stripped and
    in lower case, it is y, yes, n or no, or when it is empty and there is
    a default; the lines before it are dropped, the lines after it are left
    in the input.  When control-C comes first the prompt raises
    [KeyboardInterrupt], and when the input ends first it raises
    [EOFError]. *)
Theorem ask_yes_no_reads_to_the_first_answer
  (default : option bool) (junk : list string) (w : world) :
  Forall (fun s => answer_of default s = None) junk ->
  (forall s b rest,
     w_stdin w = map Line junk ++ Line s :: rest ->
     answer_of default s = Some b ->
     ask_yes_no default w
     = (Ret b, add_log (Answered b) (set_stdin rest w))) /\
  (forall rest,
     w_stdin w = map Line junk ++ CtrlC :: rest ->
     ask_yes_no default w
     = (Raise KeyboardInterrupt, add_log Interrupted (set_stdin rest w))) /\
  (w_stdin w = map Line junk ->
   ask_yes_no default w = (Raise EOFError, set_stdin [] w)).
Proof.
  intros Hj.
  assert (Hturns : forall tail, w_stdin w = map Line junk ++ tail ->
            ask_yes_no_loop (S (List.length (w_stdin w))) default w
            = ask_yes_no_loop (S (List.length tail)) default
                (set_stdin tail w)).
  { intros tail Hs.
    rewrite <- (ask_yes_no_loop_skips default junk (S (List.length tail)) w
                  tail Hj Hs).
    f_equal. rewrite Hs, length_app, length_map. lia. }
  split; [|split].
  - intros s b rest Hs Ha. unfold ask_yes_no.
    unfold bind at 1. rewrite (Hturns _ Hs).
    rewrite (ask_yes_no_loop_answers default _
               (set_stdin (Line s :: rest) w) s rest b eq_refl Ha).
    reflexivity.
  - intros rest Hs. unfold ask_yes_no.
    unfold bind at 1. rewrite (Hturns _ Hs). reflexivity.
  - intros Hs. unfold ask_yes_no.
    unfold bind at 1. rewrite (Hturns [] ltac:(rewrite app_nil_r; exact Hs)).
    reflexivity.
Qed.

Lemma ask_yes_no_reads_to_the_first_answer_witness :
  Forall (fun s => answer_of None s = None) ["maybe"; "  "] /\
  ask_yes_no None
    (init_world Absent None [Line "maybe"; Line "  "; Line " YES "; Line "n"])
  = (Ret true,
     add_log (Answered true)
       (set_stdin [Line "n"]
          (init_world Absent None
             [Line "maybe"; Line "  "; Line " YES "; Line "n"]))).
Proof.
  assert (H : Forall (fun s => answer_of None s = None) ["maybe"; "  "]).
  { repeat constructor. }
  split; [exact H|].
  exact (proj1 (ask_yes_no_reads_to_the_first_answer None ["maybe"; "  "]
                  (init_world Absent None
                     [Line "maybe"; Line "  "; Line " YES "; Line "n"]) H)
           " YES " true [Line "n"] eq_refl eq_refl).
Defined.

(** ** Whole numbers as size literals *)

Lemma append_nil_r s : String.append s "" = s.
Proof. induction s as [| c s IH]; simpl; [|rewrite IH]; reflexivity. Qed.

Lemma append_assoc a b c :
  String.append (String.append a b) c = String.append a (String.append b c).
Proof. induction a as [| d a IH]; simpl; [|rewrite IH]; reflexivity. Qed.

Lemma rev_append_rev_append : forall s a b,
  Str.rev_append (Str.rev_append s a) b
  = Str.rev_append a (String.append s b).
Proof.
  induction s as [| c s IH]; intros a b; simpl; [reflexivity|].
  rewrite IH. reflexivity.
Qed.

Lemma rev_involutive s : Str.rev (Str.rev s) = s.
Proof.
  unfold Str.rev. rewrite rev_append_rev_append. simpl. apply append_nil_r.
Qed.

Lemma rev_append_app : forall a b acc,
  Str.rev_append (String.append a b) acc
  = Str.rev_append b (Str.rev_append a acc).
Proof.
  induction a as [| c a IH]; intros b acc; simpl; [reflexivity|]. apply IH.
Qed.

Lemma digit_not_space c : Str.isdigit c = true -> Str.isspace c = false.
Proof.
  unfold Str.isdigit, Str.isspace. cbv zeta. intros H.
  apply andb_true_iff in H. destruct H as [H1 H2].
  apply Nat.leb_le in H1. apply Nat.leb_le in H2.
  apply orb_false_iff. split; apply andb_false_iff; right;
    apply Nat.leb_gt; lia.
Qed.

Lemma digit_upper c : Str.isdigit c = true -> Str.upper_char c = c.
Proof.
  unfold Str.isdigit, Str.upper_char. cbv zeta. intros H.
  apply andb_true_iff in H. destruct H as [H1 H2].
  apply Nat.leb_le in H1. apply Nat.leb_le in H2.
  assert (E : (97 <=? Str.code c)%nat = false) by (apply Nat.leb_gt; lia).
  rewrite E. reflexivity.
Qed.

Lemma digit_numeric c : Str.isdigit c = true -> numeric c = true.
Proof. intros H. unfold numeric. rewrite H. reflexivity. Qed.

Lemma all_digits_numeric ds : all_digits ds = true -> all_numeric ds = true.
Proof.
  induction ds as [| c ds IH]; simpl; [reflexivity|]. intros H.
  apply andb_true_iff in H. destruct H as [H1 H2].
  rewrite (digit_numeric c H1), (IH H2). reflexivity.
Qed.

(** The reverse of a text that ends in digits starts with a digit. *)
Lemma rev_append_digits : forall ds acc,
  all_digits ds = true -> ds <> "" ->
  exists c t, Str.rev_append ds acc = String c t /\ Str.isdigit c = true.
Proof.
  induction ds as [| d ds IH]; intros acc Hd Hne; [congruence|].
  simpl in Hd. apply andb_true_iff in Hd. destruct Hd as [Hd Hds]. simpl.
  destruct ds as [| d' ds'].
  - simpl. eauto.
  - apply IH; [exact Hds | discriminate].
Qed.

(** A text whose first and last characters are not white space is its own
    [strip]. *)
Lemma strip_clean s c t c' t' :
  s = String c t -> Str.isspace c = false ->
  Str.rev s = String c' t' -> Str.isspace c' = false ->
  Str.strip s = s.
Proof.
  intros Hs Hc Hr Hc'. unfold Str.strip, Str.strip_by.
  assert (E1 : Str.lstrip_by Str.isspace s = s)
    by (rewrite Hs; simpl; rewrite Hc; reflexivity).
  rewrite E1.
  assert (E2 : Str.lstrip_by Str.isspace (Str.rev s) = Str.rev s)
    by (rewrite Hr; simpl; rewrite Hc'; reflexivity).
  rewrite E2. apply rev_involutive.
Qed.

Lemma strip_digits ds :
  all_digits ds = true -> ds <> "" -> Str.strip ds = ds.
Proof.
  intros Hd Hne.
  destruct (rev_append_digits ds "" Hd Hne) as [c' [t' [Hr Hc']]].
  destruct ds as [| c t]; [congruence|].
  simpl in Hd. apply andb_true_iff in Hd. destruct Hd as [Hc _].
  apply (strip_clean _ c t c' t' eq_refl (digit_not_space c Hc) Hr
           (digit_not_space c' Hc')).
Qed.

(** ** Whole numbers go through the binary64 number unchanged *)

Lemma round_half_even_whole x : Num.round_half_even x 1 = x.
Proof.
  unfold Num.round_half_even. rewrite Z.div_1_r, Z.mod_1_r. reflexivity.
Qed.

Lemma round64_whole n :
  0 <= n < 2 ^ 53 ->
  exists m e,
    Num.round64 n 1 = Num.Finite m e /\
    -52 <= e <= 0 /\ m = n * 2 ^ (- e).
Proof.
  intros [Hn0 Hn]. unfold Num.round64.
  destruct (n =? 0) eqn:E0.
  - apply Z.eqb_eq in E0. subst n. exists 0, 0. repeat split; lia.
  - apply Z.eqb_neq in E0. assert (Hpos : 0 < n) by lia.
    change (Z.log2 1) with 0. rewrite Z.sub_0_r.
    set (e := Z.log2 n).
    assert (He0 : 0 <= e) by apply Z.log2_nonneg.
    assert (He : e < 53) by (apply Z.log2_lt_pow2; assumption).
    destruct (Z.log2_spec n Hpos) as [Hlo Hhi]. fold e in Hlo, Hhi.
    assert (G : Num.ge_pow2 n 1 e = true).
    { unfold Num.ge_pow2, Num.pow2.
      assert (E : (0 <=? e) = true) by (apply Z.leb_le; lia).
      rewrite E. apply Z.leb_le. lia. }
    rewrite G.
    assert (U : Z.max (e - 52) (-1074) = e - 52) by lia.
    rewrite U.
    destruct (Z.eq_dec e 52) as [E52 | N52].
    + rewrite E52. change (52 - 52) with 0. change (0 <=? 0) with true.
      cbv iota. change (1 * Num.pow2 0) with 1.
      rewrite round_half_even_whole.
      assert (O : Num.overflows n 0 = false).
      { unfold Num.overflows, Num.pow2. change (2 ^ 0) with 1.
        rewrite Z.mul_1_r. apply andb_false_iff. right.
        apply Z.leb_gt.
        assert (2 ^ 53 < 2 ^ 1024) by (apply Z.pow_lt_mono_r; lia). lia. }
      rewrite O. exists n, 0. repeat split; lia.
    + assert (E : (0 <=? e - 52) = false) by (apply Z.leb_gt; lia).
      rewrite E. rewrite round_half_even_whole.
      assert (O : Num.overflows (n * Num.pow2 (- (e - 52))) (e - 52) = false).
      { unfold Num.overflows. rewrite E. reflexivity. }
      rewrite O. exists (n * 2 ^ (- (e - 52))), (e - 52).
      split; [reflexivity|]. split; [lia | reflexivity].
Qed.

(** [int(float(n) * 1024)] and [int(float(n))] for a whole number below
    [2 ^ 53]. *)
Lemma whole_kilobytes n :
  0 <= n < 2 ^ 53 ->
  Num.int_of_float (Num.mul1024 (Num.round64 n 1)) = Ret (n * 1024).
Proof.
  intros Hn. destruct (round64_whole n Hn) as [m [e [-> [He ->]]]].
  unfold Num.mul1024.
  assert (Hp : 0 < 2 ^ (- e)) by (apply Z.pow_pos_nonneg; lia).
  assert (O : Num.overflows (n * 2 ^ (- e)) (e + 10) = false).
  { unfold Num.overflows, Num.pow2.
    destruct (0 <=? e + 10) eqn:E; [|reflexivity]. apply Z.leb_le in E.
    simpl. apply Z.leb_gt.
    rewrite <- Z.mul_assoc, <- Z.pow_add_r by lia.
    replace (- e + (e + 10)) with 10 by lia.
    assert (2 ^ 53 * 2 ^ 10 < 2 ^ 1024).
    { rewrite <- Z.pow_add_r by lia. apply Z.pow_lt_mono_r; lia. }
    assert (0 < 2 ^ 10) by (apply Z.pow_pos_nonneg; lia). nia. }
  rewrite O. unfold Num.int_of_float, Num.pow2. f_equal.
  destruct (0 <=? e + 10) eqn:E.
  - apply Z.leb_le in E.
    rewrite <- Z.mul_assoc, <- Z.pow_add_r by lia.
    replace (- e + (e + 10)) with 10 by lia. reflexivity.
  - apply Z.leb_gt in E.
    replace (- e) with (10 + - (e + 10)) by lia.
    rewrite Z.pow_add_r by lia.
    rewrite Z.mul_assoc. rewrite Z.div_mul; [reflexivity|].
    apply Z.pow_nonzero; lia.
Qed.

Lemma whole_bytes n :
  0 <= n < 2 ^ 53 -> Num.int_of_float (Num.round64 n 1) = Ret n.
Proof.
  intros Hn. destruct (round64_whole n Hn) as [m [e [-> [He ->]]]].
  unfold Num.int_of_float, Num.pow2. f_equal.
  destruct (0 <=? e) eqn:E.
  - apply Z.leb_le in E. replace e with 0 by lia. simpl. lia.
  - rewrite Z.div_mul; [reflexivity|]. apply Z.pow_nonzero; lia.
Qed.

(** ** The digits of a literal *)

Lemma upper_append a b :
  Str.upper (String.append a b) = String.append (Str.upper a) (Str.upper b).
Proof.
  unfold Str.upper. induction a as [| c a IH]; simpl; [|rewrite IH];
    reflexivity.
Qed.

Lemma upper_digits ds : all_digits ds = true -> Str.upper ds = ds.
Proof.
  unfold Str.upper. induction ds as [| c ds IH]; simpl; [reflexivity|].
  intros H. apply andb_true_iff in H. destruct H as [H1 H2].
  rewrite (digit_upper c H1), (IH H2). reflexivity.
Qed.

Lemma decimal_digits : forall ds mant seen,
  all_digits ds = true -> seen = true \/ ds <> "" ->
  Num.decimal ds mant None seen = Some (digits_value ds mant, O).
Proof.
  induction ds as [| c ds IH]; intros mant seen Hd Hs; cbn [Num.decimal].
  - destruct Hs as [-> | Hs]; [reflexivity | congruence].
  - simpl in Hd. apply andb_true_iff in Hd. destruct Hd as [Hc Hd].
    rewrite Hc. cbn [option_map digits_value]. apply IH; auto.
Qed.

Lemma digits_us_digits : forall ds acc prev,
  all_digits ds = true -> prev = true \/ ds <> "" ->
  Num.digits_us ds acc prev = Some (digits_value ds acc).
Proof.
  induction ds as [| c ds IH]; intros acc prev Hd Hs; cbn [Num.digits_us].
  - destruct Hs as [-> | Hs]; [reflexivity | congruence].
  - simpl in Hd. apply andb_true_iff in Hd. destruct Hd as [Hc Hd].
    rewrite Hc. cbn [digits_value]. apply IH; auto.
Qed.

(** [int] refuses digits followed by a letter. *)
Lemma digits_us_letter : forall ds c rest acc prev,
  all_digits ds = true ->
  Str.isdigit c = false -> (Str.code c =? 95)%nat = false ->
  Num.digits_us (String.append ds (String c rest)) acc prev = None.
Proof.
  induction ds as [| d ds IH]; intros c rest acc prev Hd Hc Hu.
  - simpl. rewrite Hc, Hu. reflexivity.
  - simpl in Hd. apply andb_true_iff in Hd. destruct Hd as [Hd1 Hd].
    cbn [String.append Num.digits_us]. rewrite Hd1. apply IH; assumption.
Qed.

(** *** What [strip] takes away *)

Lemma rev_append_rev s acc :
  Str.rev_append s acc = String.append (Str.rev s) acc.
Proof.
  unfold Str.rev.
  revert acc. induction s as [| c s IH]; intros acc; simpl; [reflexivity|].
  rewrite (IH (String c acc)), (IH (String c "")), append_assoc.
  reflexivity.
Qed.

Lemma rev_app a b :
  Str.rev (String.append a b) = String.append (Str.rev b) (Str.rev a).
Proof.
  unfold Str.rev at 1. rewrite rev_append_app. apply rev_append_rev.
Qed.

Lemma all_chars_app p a b :
  all_chars p (String.append a b) = all_chars p a && all_chars p b.
Proof.
  induction a as [| c a IH]; simpl; [reflexivity|].
  rewrite IH, andb_assoc. reflexivity.
Qed.

Lemma all_chars_rev p s : all_chars p (Str.rev s) = all_chars p s.
Proof.
  induction s as [| c s IH]; [reflexivity|].
  change (String c s) with (String.append (String c "") s).
  rewrite rev_app, !all_chars_app, IH. apply andb_comm.
Qed.

Lemma all_chars_weaken (p q : ascii -> bool) s :
  (forall c, q c = true -> p c = true) ->
  all_chars q s = true -> all_chars p s = true.
Proof.
  intros Hqp. induction s as [| c s IH]; simpl; [reflexivity|].
  intros H. apply andb_true_iff in H. destruct H as [H1 H2].
  rewrite (Hqp c H1), (IH H2). reflexivity.
Qed.

(** The characters that [lstrip] takes away are all of the class. *)
Lemma lstrip_by_split p s :
  exists a, s = String.append a (Str.lstrip_by p s) /\ all_chars p a = true.
Proof.
  induction s as [| c s [a [Hs Ha]]]; [exists ""; split; reflexivity|].
  simpl. destruct (p c) eqn:Hc.
  - exists (String c a). simpl. rewrite Hc, Ha, <- Hs. split; reflexivity.
  - exists "". split; reflexivity.
Qed.

Lemma lstrip_by_pad p a s :
  all_chars p a = true ->
  Str.lstrip_by p (String.append a s) = Str.lstrip_by p s.
Proof.
  induction a as [| c a IH]; simpl; [reflexivity|]. intros H.
  apply andb_true_iff in H. destruct H as [Hc Ha]. rewrite Hc. apply IH, Ha.
Qed.

Lemma lstrip_by_all p a : all_chars p a = true -> Str.lstrip_by p a = "".
Proof.
  intros H. rewrite <- (append_nil_r a), (lstrip_by_pad p a "" H).
  reflexivity.
Qed.

Lemma lstrip_by_app p x b :
  Str.lstrip_by p (String.append x b)
  = match Str.lstrip_by p x with
    | EmptyString => Str.lstrip_by p b
    | String c l => String.append (String c l) b
    end.
Proof.
  induction x as [| c x IH]; simpl; [reflexivity|].
  destruct (p c); [exact IH | reflexivity].
Qed.

(** A text is its [strip] between two runs of characters of the class. *)
Lemma strip_by_split p s :
  exists a b,
    s = String.append a (String.append (Str.strip_by p s) b) /\
    all_chars p a = true /\ all_chars p b = true.
Proof.
  destruct (lstrip_by_split p s) as [a [Hs Ha]].
  destruct (lstrip_by_split p (Str.rev (Str.lstrip_by p s))) as [b [Hl Hb]].
  exists a, (Str.rev b). split; [|split].
  - rewrite Hs at 1. f_equal. unfold Str.strip_by.
    rewrite <- rev_app, <- Hl, rev_involutive. reflexivity.
  - exact Ha.
  - rewrite all_chars_rev. exact Hb.
Qed.

(** Characters of the class around a text do not change its [strip]. *)
Lemma strip_by_pad p a x b :
  all_chars p a = true -> all_chars p b = true ->
  Str.strip_by p (String.append a (String.append x b)) = Str.strip_by p x.
Proof.
  intros Ha Hb. unfold Str.strip_by. rewrite (lstrip_by_pad p a _ Ha).
  rewrite lstrip_by_app.
  destruct (Str.lstrip_by p x) as [| c l] eqn:El.
  - rewrite (lstrip_by_all p b Hb). reflexivity.
  - rewrite rev_app, lstrip_by_pad; [reflexivity|].
    rewrite all_chars_rev. exact Hb.
Qed.

(** Taking away a smaller class first changes nothing. *)
Lemma strip_by_strip_by (p q : ascii -> bool) s :
  (forall c, q c = true -> p c = true) ->
  Str.strip_by p (Str.strip_by q s) = Str.strip_by p s.
Proof.
  intros Hqp. destruct (strip_by_split q s) as [a [b [Hs [Ha Hb]]]].
  rewrite Hs at 2. symmetry. apply strip_by_pad.
  - exact (all_chars_weaken p q a Hqp Ha).
  - exact (all_chars_weaken p q b Hqp Hb).
Qed.

Lemma isspace_c_isspace c : Num.isspace_c c = true -> Str.isspace c = true.
Proof.
  unfold Num.isspace_c, Str.isspace. cbv zeta. intros H.
  apply orb_true_iff in H. apply orb_true_iff.
  destruct H as [H | H]; [left; exact H | right].
  apply Nat.eqb_eq in H. rewrite H. reflexivity.
Qed.

(** *** What [int] accepts *)

(** A text that [digits_us] accepts ends in a digit. *)
Lemma digits_us_last : forall t acc prev k x,
  Num.digits_us t acc prev = Some k -> t <> "" ->
  exists c r, Str.rev_append t x = String c r /\ Str.isdigit c = true.
Proof.
  induction t as [| c t IH]; intros acc prev k x H Hne; [congruence|].
  cbn [Num.digits_us] in H. cbn [Str.rev_append].
  destruct (Str.isdigit c) eqn:Hc.
  - destruct t as [| d t'].
    + exists c, x. split; [reflexivity | exact Hc].
    + apply (IH _ _ _ _ H). discriminate.
  - destruct ((Str.code c =? 95)%nat && prev); [|discriminate].
    destruct t as [| d t']; [discriminate|].
    destruct (Str.isdigit d); [|discriminate].
    apply (IH _ _ _ _ H). discriminate.
Qed.

Lemma digits_us_first c t acc k :
  Num.digits_us (String c t) acc false = Some k -> Str.isdigit c = true.
Proof.
  cbn [Num.digits_us]. destruct (Str.isdigit c); [reflexivity|].
  rewrite andb_false_r. discriminate.
Qed.

Lemma sign_not_space c :
  (Str.code c =? 45)%nat = true \/ (Str.code c =? 43)%nat = true ->
  Str.isspace c = false.
Proof.
  unfold Str.isspace. cbv zeta.
  intros [H | H]; apply Nat.eqb_eq in H; rewrite H; reflexivity.
Qed.

(** A text that [int] accepts has no white space of [str.strip] left
    around the number once [int] has dropped its own: on such a text the
    two ways of stripping agree. *)
Lemma py_int_clean s k :
  Num.py_int s = Ret k -> Str.strip_by Num.isspace_c s = Str.strip s.
Proof.
  intros H.
  assert (Hc : Str.strip (Str.strip_by Num.isspace_c s)
               = Str.strip_by Num.isspace_c s).
  { unfold Num.py_int in H. cbv zeta in H.
    destruct (Str.strip_by Num.isspace_c s) as [| c t]; [discriminate|].
    assert (Hbody : forall u,
              (if Num.max_str_digits <? Num.count_digits u then None
               else Num.digits_us u 0 false) <> None ->
              exists k', Num.digits_us u 0 false = Some k').
    { intros u.
      destruct (Num.max_str_digits <? Num.count_digits u);
        [intros Hu; exfalso; apply Hu; reflexivity|].
      destruct (Num.digits_us u 0 false) as [k' |]; [eauto|].
      intros Hu. exfalso. apply Hu. reflexivity. }
    assert (Hsigned : forall c' r,
              Str.isspace c = false ->
              Str.rev_append t (String c "") = String c' r ->
              Str.isdigit c' = true ->
              Str.strip (String c t) = String c t).
    { intros c' r Hsp Hr Hc'.
      apply (strip_clean _ c t c' r eq_refl Hsp Hr (digit_not_space c' Hc')). }
    destruct (Str.code c =? 45)%nat eqn:H45;
      [|destruct (Str.code c =? 43)%nat eqn:H43].
    - destruct (Hbody t) as [k' Hk'].
      { intros E. rewrite E in H. discriminate H. }
      assert (Hne : t <> "") by (intros ->; discriminate Hk').
      destruct (digits_us_last t 0 false k' (String c "") Hk' Hne)
        as [c' [r [Hr Hc']]].
      apply (Hsigned c' r (sign_not_space c (or_introl H45)) Hr Hc').
    - destruct (Hbody t) as [k' Hk'].
      { intros E. rewrite E in H. discriminate H. }
      assert (Hne : t <> "") by (intros ->; discriminate Hk').
      destruct (digits_us_last t 0 false k' (String c "") Hk' Hne)
        as [c' [r [Hr Hc']]].
      apply (Hsigned c' r (sign_not_space c (or_intror H43)) Hr Hc').
    - destruct (Hbody (String c t)) as [k' Hk'].
      { intros E. rewrite E in H. discriminate H. }
      assert (Hne : String c t <> "") by discriminate.
      destruct (digits_us_last (String c t) 0 false k' "" Hk' Hne)
        as [c' [r [Hr Hc']]].
      apply (Hsigned c' r (digit_not_space c (digits_us_first c t 0 k' Hk'))
               Hr Hc'). }
  rewrite <- Hc.
  apply (strip_by_strip_by Str.isspace Num.isspace_c s isspace_c_isspace).
Qed.

Lemma digit_not_sign c :
  Str.isdigit c = true ->
  (Str.code c =? 45)%nat = false /\ (Str.code c =? 43)%nat = false.
Proof.
  unfold Str.isdigit. cbv zeta. intros Hc. apply andb_true_iff in Hc.
  destruct Hc as [Hc _]. apply Nat.leb_le in Hc.
  split; apply Nat.eqb_neq; lia.
Qed.

(** [int] reads a text of digits as the number that they denote, unless
    it refuses the text (white space that only [str.strip] drops, too many
    digits). *)
Lemma py_int_digits s ds :
  Str.strip s = ds -> all_digits ds = true -> ds <> "" ->
  Num.py_int s = Ret (digits_value ds 0) \/ Num.py_int s = Raise ValueError.
Proof.
  intros Hs Hd Hne.
  destruct (Num.py_int s) as [k | e |] eqn:E.
  - left. pose proof (py_int_clean s k E) as Hc. rewrite Hs in Hc.
    unfold Num.py_int in E. cbv zeta in E. rewrite Hc in E.
    destruct ds as [| c t]; [congruence|].
    pose proof Hd as Hd'. simpl in Hd'. apply andb_true_iff in Hd'.
    destruct Hd' as [Hd1 _].
    destruct (digit_not_sign c Hd1) as [H45 H43]. rewrite H45, H43 in E.
    rewrite (digits_us_digits (String c t) 0 false Hd (or_intror Hne)) in E.
    destruct (_ <? _); [discriminate E|]. symmetry. exact E.
  - right. f_equal. exact (py_int_raises s e E).
  - exfalso. exact (py_int_ends s E).
Qed.

Lemma py_int_digits_letter s ds c rest :
  Str.strip s = String.append ds (String c rest) ->
  all_digits ds = true -> ds <> "" ->
  Str.isdigit c = false -> (Str.code c =? 95)%nat = false ->
  Num.py_int s = Raise ValueError.
Proof.
  intros Hs Hd Hne Hc Hu.
  destruct (Num.py_int s) as [k | e |] eqn:E.
  - exfalso. pose proof (py_int_clean s k E) as Hcl. rewrite Hs in Hcl.
    unfold Num.py_int in E. cbv zeta in E. rewrite Hcl in E.
    destruct ds as [| d t]; [congruence|].
    pose proof Hd as Hd'. simpl in Hd'. apply andb_true_iff in Hd'.
    destruct Hd' as [Hd1 _].
    destruct (digit_not_sign d Hd1) as [H45 H43].
    cbn [String.append] in E. rewrite H45, H43 in E.
    change (String d (String.append t (String c rest)))
      with (String.append (String d t) (String c rest)) in E.
    rewrite (digits_us_letter (String d t) c rest 0 false Hd Hc Hu) in E.
    destruct (_ <? _); discriminate E.
  - f_equal. exact (py_int_raises s e E).
  - exfalso. exact (py_int_ends s E).
Qed.

(** The loop of [parse_size_str] on digits followed by a unit, or by
    nothing. *)
Lemma scan_size_digits s : forall ds num,
  all_digits ds = true ->
  scan_size s ds num = (String.append num ds, "KB").
Proof.
  induction ds as [| d ds IH]; intros num Hd; cbn [scan_size].
  - rewrite append_nil_r. reflexivity.
  - simpl in Hd. apply andb_true_iff in Hd. destruct Hd as [Hd1 Hd].
    rewrite Hd1. cbn [orb]. rewrite (IH _ Hd).
    rewrite append_assoc_char. reflexivity.
Qed.

Lemma scan_size_digits_unit s c rest : forall ds num,
  all_digits ds = true -> numeric c = false ->
  scan_size s (String.append ds (String c rest)) num
  = (String.append num ds, Str.upper (Str.drop (Str.index c s) s)).
Proof.
  induction ds as [| d ds IH]; intros num Hd Hc;
    cbn [String.append scan_size].
  - fold (numeric c). rewrite Hc, append_nil_r. reflexivity.
  - simpl in Hd. apply andb_true_iff in Hd. destruct Hd as [Hd1 Hd].
    rewrite Hd1. cbn [orb]. rewrite (IH _ Hd Hc).
    rewrite append_assoc_char. reflexivity.
Qed.

Lemma digits_value_nonneg : forall ds acc,
  all_digits ds = true -> 0 <= acc -> 0 <= digits_value ds acc.
Proof.
  induction ds as [| c ds IH]; intros acc Hd Ha; cbn [digits_value];
    [exact Ha|].
  simpl in Hd. apply andb_true_iff in Hd. destruct Hd as [Hc Hd].
  apply IH; [exact Hd|]. pose proof (digit_val_nonneg c Hc). lia.
Qed.

(** The letters of the two units, in either case. *)
Lemma upper_char_K k :
  Str.upper_char k = "K"%char -> k = "K"%char \/ k = "k"%char.
Proof.
  destruct k as [b0 b1 b2 b3 b4 b5 b6 b7].
  destruct b0, b1, b2, b3, b4, b5, b6, b7; vm_compute; intros H;
    try discriminate H; auto.
Qed.

Lemma upper_char_B b :
  Str.upper_char b = "B"%char -> b = "B"%char \/ b = "b"%char.
Proof.
  destruct b as [b0 b1 b2 b3 b4 b5 b6 b7].
  destruct b0, b1, b2, b3, b4, b5, b6, b7; vm_compute; intros H;
    try discriminate H; auto.
Qed.

Lemma upper_KB u :
  Str.upper u = "KB" ->
  exists k b, u = String k (String b "") /\
              (k = "K"%char \/ k = "k"%char).
Proof.
  unfold Str.upper. destruct u as [| k [| b [| c u]]]; simpl; intros H;
    try discriminate H.
  injection H as Hk Hb.
  exists k, b. split; [reflexivity|]. apply upper_char_K. exact Hk.
Qed.

Lemma upper_B u :
  Str.upper u = "B" ->
  exists b, u = String b "" /\ (b = "B"%char \/ b = "b"%char).
Proof.
  unfold Str.upper. destruct u as [| b [| c u]]; simpl; intros H;
    try discriminate H.
  injection H as Hb.
  exists b. split; [reflexivity|]. apply upper_char_B. exact Hb.
Qed.

(** [parse_size_str] on digits followed by a unit in capitals. *)
Lemma parse_size_str_digits s ds :
  all_digits ds = true -> ds <> "" ->
  (Str.upper (Str.strip s) = ds \/
   Str.upper (Str.strip s) = String.append ds "KB" ->
   parse_size_str s
   = Num.int_of_float (Num.mul1024 (Num.round64 (digits_value ds 0) 1))) /\
  (Str.upper (Str.strip s) = String.append ds "B" ->
   parse_size_str s = Num.int_of_float (Num.round64 (digits_value ds 0) 1)).
Proof.
  intros Hd Hne.
  assert (Hf : Num.py_float ds = Ret (Num.round64 (digits_value ds 0) 1)).
  { unfold Num.py_float.
    rewrite (decimal_digits ds 0 false Hd (or_intror Hne)). reflexivity. }
  assert (He : Str.is_empty ds = false)
    by (destruct ds; [congruence | reflexivity]).
  pose proof (all_digits_numeric ds Hd) as Hnum.
  split.
  - intros [Hs | Hs]; unfold parse_size_str; rewrite Hs.
    + rewrite (scan_size_digits ds ds "" Hd).
      change (String.append "" ds) with ds. rewrite He, Hf. reflexivity.
    + change (String.append ds "KB")
        with (String.append ds (String "K" "B")).
      rewrite (scan_size_digits_unit _ "K" "B" ds "" Hd eq_refl).
      rewrite (drop_index_after_numeric "K" "B" eq_refl ds Hnum).
      change (String.append "" ds) with ds. rewrite He, Hf. reflexivity.
  - intros Hs. unfold parse_size_str. rewrite Hs.
    change (String.append ds "B") with (String.append ds (String "B" "")).
    rewrite (scan_size_digits_unit _ "B" "" ds "" Hd eq_refl).
    rewrite (drop_index_after_numeric "B" "" eq_refl ds Hnum).
    change (String.append "" ds) with ds. rewrite He, Hf. reflexivity.
Qed.

Lemma parse_step_of text (otherwise : M Z) w :
  (forall k, Num.py_int text = Ret k -> 0 < k ->
             parse_step text otherwise w = (Ret k, w)) /\
  (forall n, int_rejected text -> parse_size_str text = Ret n ->
             parse_step text otherwise w = (Ret (n / 1024), w)).
Proof.
  destruct (parse_step_cases text otherwise w)
    as [[k [Hk [Ei E]]] | [[n [Hrej [Es E]]] | [Hrej [Hs E]]]]; split.
  - intros k' Ei' _. rewrite Ei in Ei'. inversion Ei'; subst. exact E.
  - intros n [Hrej | [j [Hj Hle]]] _; [congruence|].
    rewrite Ei in Hj. inversion Hj. lia.
  - intros k' Ei' Hk'. destruct Hrej as [Hrej | [j [Hj Hle]]]; [congruence|].
    rewrite Ei' in Hj. inversion Hj. lia.
  - intros n' _ Es'. rewrite Es in Es'. inversion Es'; subst. exact E.
  - intros k' Ei' Hk'. destruct Hrej as [Hrej | [j [Hj Hle]]]; [congruence|].
    rewrite Ei' in Hj. inversion Hj. lia.
  - intros n' _ Es'. destruct Hs; congruence.
Qed.

(** X11: a whole number below [2 ^ 53] written in digits is read without
    any rounding, although the value goes through a binary64 number: with
    the unit KB (in either case) or with no unit, [parse_size_str] gives
    the number times 1024 and both front ends take the number as the step;
    with the unit B, [parse_size_str] gives the number and the step is the
    number divided by 1024, rounded down.  White space around the text is
    ignored. *)
Theorem whole_number_literals (s ds u : string) :
  Str.strip s = String.append ds u ->
  all_digits ds = true -> ds <> "" ->
  digits_value ds 0 < 2 ^ 53 ->
  (u = "" \/ Str.upper u = "KB" ->
   parse_size_str s = Ret (digits_value ds 0 * 1024) /\
   forall (otherwise : M Z) w,
     parse_step s otherwise w = (Ret (digits_value ds 0), w)) /\
  (Str.upper u = "B" ->
   parse_size_str s = Ret (digits_value ds 0) /\
   forall (otherwise : M Z) w,
     parse_step s otherwise w = (Ret (digits_value ds 0 / 1024), w)).
Proof.
  intros Hs Hd Hne Hlt.
  pose proof (digits_value_nonneg ds 0 Hd (Z.le_refl 0)) as H0.
  set (n := digits_value ds 0) in *.
  assert (Hn : 0 <= n < 2 ^ 53) by (split; assumption).
  destruct (parse_size_str_digits s ds Hd Hne) as [Hkb Hb].
  assert (Hup : Str.upper (Str.strip s)
                = String.append ds (Str.upper u)).
  { rewrite Hs, upper_append, (upper_digits ds Hd). reflexivity. }
  split.
  - intros Hu.
    assert (Hp : parse_size_str s = Ret (n * 1024)).
    { rewrite Hkb; [apply whole_kilobytes; exact Hn|].
      destruct Hu as [-> | Hu].
      - left. rewrite Hup. apply append_nil_r.
      - right. rewrite Hup, Hu. reflexivity. }
    split; [exact Hp|]. intros otherwise w.
    destruct (parse_step_of s otherwise w) as [Hint Hsize].
    assert (Hdiv : n * 1024 / 1024 = n) by (apply Z.div_mul; lia).
    destruct Hu as [-> | Hu].
    + rewrite append_nil_r in Hs.
      destruct (py_int_digits s ds Hs Hd Hne) as [Hi | Hi].
      * fold n in Hi. destruct (Z.eq_dec n 0) as [Hz | Hnz].
        -- rewrite <- Hdiv at 1. apply Hsize; [|exact Hp].
           right. exists n. split; [exact Hi | lia].
        -- apply Hint; [exact Hi | lia].
      * rewrite <- Hdiv at 1. apply Hsize; [|exact Hp]. left. exact Hi.
    + destruct (upper_KB u Hu) as [k [b [-> Hk]]].
      rewrite <- Hdiv at 1. apply Hsize; [|exact Hp]. left.
      apply (py_int_digits_letter s ds k (String b "") Hs Hd Hne);
        destruct Hk as [-> | ->]; reflexivity.
  - intros Hu.
    assert (Hp : parse_size_str s = Ret n).
    { rewrite Hb; [apply whole_bytes; exact Hn|].
      rewrite Hup, Hu. reflexivity. }
    split; [exact Hp|]. intros otherwise w.
    destruct (parse_step_of s otherwise w) as [_ Hsize].
    apply Hsize; [|exact Hp]. left.
    destruct (upper_B u Hu) as [b [-> Hbb]].
    apply (py_int_digits_letter s ds b "" Hs Hd Hne);
      destruct Hbb as [-> | ->]; reflexivity.
Qed.

Lemma whole_number_literals_witness :
  Str.strip " 4kb " = String.append "4" "kb" /\
  all_digits "4" = true /\ "4" <> "" /\
  digits_value "4" 0 < 2 ^ 53 /\
  parse_size_str " 4kb " = Ret (digits_value "4" 0 * 1024) /\
  forall (otherwise : M Z) w,
    parse_step " 4kb " otherwise w = (Ret (digits_value "4" 0), w).
Proof.
  assert (H3 : "4" <> "") by discriminate.
  assert (H4 : digits_value "4" 0 < 2 ^ 53) by (vm_compute; reflexivity).
  split; [reflexivity|]. split; [reflexivity|]. split; [exact H3|].
  split; [exact H4|].
  exact (proj1 (whole_number_literals " 4kb " "4" "kb" eq_refl eq_refl H3 H4)
           (or_intror eq_refl)).
Defined.

(** X12: [parse_size_str] returns a number that is not negative, or raises
    [ValueError] or [OverflowError], and nothing else; the step computed by
    a front end from a text is therefore never negative, and computing it
    has no effect on the world. *)
Theorem parsed_sizes_are_not_negative (text : string) :
  ((exists n, parse_size_str text = Ret n /\ 0 <= n) \/
   parse_size_str text = Raise ValueError \/
   parse_size_str text = Raise OverflowError) /\
  (forall (otherwise : M Z) w k w',
     parse_step text otherwise w = (Ret k, w') ->
     0 <= k /\ w' = w \/ otherwise w = (Ret k, w')).
Proof.
  split.
  - destruct (parse_size_str text) as [n | e |] eqn:E.
    + left. exists n. split; [reflexivity|].
      apply (parse_size_str_nonneg text n E).
    + right. destruct (parse_size_str_raises text e E) as [-> | ->]; auto.
    + exfalso. exact (parse_size_str_ends text E).
  - intros otherwise w k w' E.
    destruct (parse_step_cases text otherwise w)
      as [[j [Hj [_ Ej]]] | [[n [_ [Es En]]] | [_ [_ Eo]]]].
    + rewrite Ej in E. inversion E; subst. left. split; [lia | reflexivity].
    + rewrite En in E. inversion E; subst. left. split; [|reflexivity].
      apply Z.div_pos; [|lia]. apply (parse_size_str_nonneg text n Es).
    + right. rewrite <- Eo. exact E.
Qed.

(** ** The two front ends *)

(** The text of a step is accepted or refused whatever the front end. *)
Lemma parse_step_either text :
  (exists k, forall (o : M Z) w, parse_step text o w = (Ret k, w)) \/
  (step_rejected text /\ forall (o : M Z) w, parse_step text o w = o w).
Proof.
  destruct (parse_step_cases text (ret 0) (init_world Absent None []))
    as [[k [Hk [Ei _]]] | [[n [Hrej [Es _]]] | [Hrej [Hs _]]]].
  - left. exists k. intros o w.
    apply (proj1 (parse_step_of text o w) k Ei Hk).
  - left. exists (n / 1024). intros o w.
    apply (proj2 (parse_step_of text o w) n Hrej Es).
  - right. split; [split; assumption|]. intros o w.
    destruct (parse_step_cases text o w)
      as [[k [Hk [Ei E]]] | [[n [_ [Es E]]] | [_ [_ E]]]].
    + exfalso. destruct Hrej as [Hrej | [j [Hj Hle]]]; [congruence|].
      rewrite Ei in Hj. inversion Hj. lia.
    + exfalso. destruct Hs; congruence.
    + exact E.
Qed.

(** The handlers of the entry point and of the interactive front end turn
    an exception into [sys.exit(1)]: they change neither the exit status
    nor the world. *)
Lemma run_status rand fault_at fuel m target backup stdin :
  run rand fault_at fuel m target backup stdin
  = (exit_status
       (fst (match m with
             | CommandLine line => cli_main rand fault_at fuel line
             | Interactive => interactive_mode rand fault_at fuel
             end (init_world target backup stdin))),
     snd (match m with
          | CommandLine line => cli_main rand fault_at fuel line
          | Interactive => interactive_mode rand fault_at fuel
          end (init_world target backup stdin))).
Proof.
  unfold run, main, try_except.
  destruct (match m with
            | CommandLine line => cli_main rand fault_at fuel line
            | Interactive => interactive_mode rand fault_at fuel
            end (init_world target backup stdin)) as [[[] | e |] w'];
    try reflexivity.
  destruct e; reflexivity.
Qed.

Lemma except_status (m : M unit) w :
  exit_status
    (fst (try_except m
            (fun e => if is_Exception e then Some (sys_exit 1) else None) w))
  = exit_status (fst (m w)) /\
  snd (try_except m
         (fun e => if is_Exception e then Some (sys_exit 1) else None) w)
  = snd (m w).
Proof.
  unfold try_except. destruct (m w) as [[[] | e |] w']; auto.
  destruct e; auto.
Qed.

Lemma cli_main_accepts rand fault_at fuel args w c k :
  w_target w = Regular c ->
  (forall (o : M Z) w, parse_step (a_step args) o w = (Ret k, w)) ->
  0 < a_destroy args -> a_no_backup args = false ->
  cli_main rand fault_at fuel (Namespace args) w
  = (_ <- stat_size fault_at ;;
     ok <- confirm_action ;;
     if negb ok then sys_exit 0
     else corrupt_file rand fault_at fuel k (a_destroy args) true) w.
Proof.
  intros Ht Hk Hd Hnb. rewrite cli_main_namespace. unfold cli_run.
  unfold bind at 1. unfold path_exists at 1. rewrite Ht. cbn [negb].
  unfold bind at 1. unfold path_is_file at 1. rewrite Ht. cbn [negb].
  unfold bind at 1. rewrite Hk.
  assert (E : (a_destroy args <=? 0) = false) by (apply Z.leb_gt; lia).
  rewrite E, Hnb. cbn [negb].
  unfold bind at 1. unfold ret at 1. reflexivity.
Qed.

(** X13: the two front ends do the same thing with the same parameters.
    When the interactive front end is given a path, a step, a destroy count
    and no request to disable the backup, and the command line is given
    the same step and destroy count (an empty step line standing for the
    default [1KB], an empty destroy line for the default 4), the two runs,
    with the same random source, the same faults and the same remaining
    input, end with the same exit status; they end in the very same world
    (files, position, random draws, file operations, input left, log),
    unless both end with the status 1 and leave the target and the backup
    as they were. *)
Theorem front_ends_agree
  (rand : nat -> Z) (fault_at : nat -> fault) (fuel : nat) (args : cli_args)
  (path step_line destroy_line disable_line : string)
  (target : node) (backup : option (list Z)) (rest : list input_event) :
  Str.is_empty (Str.strip_quotes path) = false ->
  (Str.is_empty (Str.strip step_line) = true /\ a_step args = "1KB" \/
   Str.is_empty (Str.strip step_line) = false /\
   a_step args = Str.strip step_line) ->
  (Str.is_empty (Str.strip destroy_line) = true /\ a_destroy args = 4 \/
   Str.is_empty (Str.strip destroy_line) = false /\
   Num.py_int (Str.strip destroy_line) = Ret (a_destroy args)) ->
  is_yes (Str.lower (Str.strip disable_line)) = false ->
  a_no_backup args = false ->
  agree target backup
    (run rand fault_at fuel Interactive target backup
       (Line path :: Line step_line :: Line destroy_line
          :: Line disable_line :: rest))
    (run rand fault_at fuel (CommandLine (Namespace args)) target backup rest).
Proof.
  intros Hpath Hstep Hdestroy Hdisable Hnb.
  (* the step, on both sides *)
  assert (Hstep' :
    (exists k,
       (forall w, (if Str.is_empty (Str.strip step_line) then ret 1
                   else parse_step (Str.strip step_line) (raise ValueError)) w
                  = (Ret k, w)) /\
       (forall (o : M Z) w, parse_step (a_step args) o w = (Ret k, w))) \/
    ((forall w, (if Str.is_empty (Str.strip step_line) then ret 1
                 else parse_step (Str.strip step_line) (raise ValueError)) w
                = (Raise ValueError, w)) /\
     step_rejected (a_step args))).
  { destruct Hstep as [[He Ha] | [He Ha]]; rewrite He, Ha.
    - left. exists 1. split; [reflexivity|]. intros o w.
      apply (proj1 (parse_step_literals o w)).
    - destruct (parse_step_either (Str.strip step_line))
        as [[k Hk] | [Hrej Ho]].
      + left. exists k. split; [intros w; apply Hk | exact Hk].
      + right. split; [intros w; apply Ho | exact Hrej]. }
  (* the destroy count, on both sides *)
  assert (Hdestroy' :
    (0 < a_destroy args /\
     forall w, (if Str.is_empty (Str.strip destroy_line) then ret 4
                else
                  try_except
                    (d <- lift (Num.py_int (Str.strip destroy_line)) ;;
                     if d <=? 0 then raise ValueError else ret d)
                    (fun e => if is_ValueError e then Some (raise ValueError)
                              else None)) w
               = (Ret (a_destroy args), w)) \/
    (a_destroy args <= 0 /\
     forall w, (if Str.is_empty (Str.strip destroy_line) then ret 4
                else
                  try_except
                    (d <- lift (Num.py_int (Str.strip destroy_line)) ;;
                     if d <=? 0 then raise ValueError else ret d)
                    (fun e => if is_ValueError e then Some (raise ValueError)
                              else None)) w
               = (Raise ValueError, w))).
  { destruct Hdestroy as [[He Ha] | [He Ha]]; rewrite He.
    - left. rewrite Ha. split; [lia | reflexivity].
    - unfold try_except, bind, lift. rewrite Ha.
      destruct (a_destroy args <=? 0) eqn:Ed.
      + right. apply Z.leb_le in Ed. split; [exact Ed | reflexivity].
      + left. apply Z.leb_gt in Ed. split; [exact Ed | reflexivity]. }
  clear Hstep Hdestroy.
  rewrite !run_status. unfold agree. cbn [fst snd].
  unfold interactive_mode.
  match goal with
  | |- context [try_except ?m _ ?w] =>
      destruct (except_status m w) as [E1 E2]; rewrite E1, E2; clear E1 E2;
      remember (m w) as x eqn:Ex
  end.
  remember (cli_main rand fault_at fuel (Namespace args) (init_world target backup rest))
    as y eqn:Ey.
  unfold bind at 1 in Ex. unfold input at 1 in Ex.
  cbn [w_stdin init_world] in Ex. rewrite Hpath in Ex.
  unfold bind at 1 in Ex. unfold path_exists at 1 in Ex.
  cbn [w_target set_stdin init_world] in Ex.
  assert (Hreject : forall rx wx,
            (forall c, target <> Regular c) \/ step_rejected (a_step args) \/
            a_destroy args <= 0 ->
            x = (rx, wx) -> exit_status rx = Some 1 ->
            w_target wx = target -> w_backup wx = backup ->
            exit_status (fst x) = exit_status (fst y) /\
            (snd x = snd y \/
             exit_status (fst y) = Some 1 /\
             w_target (snd x) = target /\
             w_backup (snd x) = backup /\
             w_target (snd y) = target /\ w_backup (snd y) = backup)).
  { intros rx wx Hbad Hx Hrx Htx Hbx.
    rewrite (cli_main_rejects rand fault_at fuel args
               (init_world target backup rest) Hbad) in Ey.
    rewrite Hx, Ey. cbn [fst snd]. split; [exact Hrx|]. right.
    repeat split; try assumption; reflexivity. }
  destruct target as [| size | c].
  { subst x. eapply Hreject;
      [left; discriminate | reflexivity | reflexivity | reflexivity
      | reflexivity]. }
  { cbn [negb] in Ex. unfold bind at 1 in Ex. unfold path_is_file at 1 in Ex.
    cbn [w_target set_stdin init_world negb] in Ex.
    subst x. eapply Hreject;
      [left; discriminate | reflexivity | reflexivity | reflexivity
      | reflexivity]. }
  cbn [negb] in Ex. unfold bind at 1 in Ex. unfold path_is_file at 1 in Ex.
  cbn [w_target set_stdin init_world negb] in Ex.
  (* the arguments are refused by both front ends, or accepted by both *)
  assert (Hargs :
    step_rejected (a_step args) \/ a_destroy args <= 0 \/
    exists k,
      (forall w, (if Str.is_empty (Str.strip step_line) then ret 1
                  else parse_step (Str.strip step_line) (raise ValueError)) w
                 = (Ret k, w)) /\
      0 < a_destroy args /\
      cli_main rand fault_at fuel (Namespace args) (init_world (Regular c) backup rest)
      = (_ <- stat_size fault_at ;;
         ok <- confirm_action ;;
         if negb ok then sys_exit 0
         else corrupt_file rand fault_at fuel k (a_destroy args) true)
          (init_world (Regular c) backup rest)).
  { destruct Hstep' as [[k [HkL HkR]] | [_ Hrej]]; [|left; exact Hrej].
    destruct Hdestroy' as [[Hd _] | [Hd _]]; [|right; left; exact Hd].
    right. right. exists k. split; [exact HkL|]. split; [exact Hd|].
    apply (cli_main_accepts rand fault_at fuel args
             (init_world (Regular c) backup rest) c k eq_refl HkR Hd Hnb). }
  unfold bind at 1 in Ex. unfold stat_size at 1, file_op at 1 in Ex.
  unfold set_stdin, bump_io, init_world in Ex.
  cbn [w_target w_backup w_pos w_rng w_io w_stdin w_log] in Ex.
  destruct (fault_at 0%nat) eqn:F.
  - (* the size is read *)
    unfold bind at 1 in Ex. unfold input at 1 in Ex.
    unfold set_stdin, bump_io, init_world in Ex.
    cbn [w_target w_backup w_pos w_rng w_io w_stdin w_log] in Ex.
    unfold bind at 1 in Ex.
    destruct Hstep' as [[k [HkL HkR]] | [HrL Hrej]].
    2:{ rewrite HrL in Ex. subst x. eapply Hreject;
          [right; left; exact Hrej | reflexivity | reflexivity
          | reflexivity | reflexivity]. }
    rewrite HkL in Ex.
    unfold bind at 1 in Ex. unfold input at 1 in Ex.
    unfold set_stdin, bump_io, init_world in Ex.
    cbn [w_target w_backup w_pos w_rng w_io w_stdin w_log] in Ex.
    unfold bind at 1 in Ex.
    destruct Hdestroy' as [[Hd HdL] | [Hd HdL]].
    2:{ rewrite HdL in Ex. subst x. eapply Hreject;
          [right; right; exact Hd | reflexivity | reflexivity
          | reflexivity | reflexivity]. }
    rewrite HdL in Ex.
    unfold bind at 1 in Ex. unfold input at 1 in Ex.
    unfold set_stdin, bump_io, init_world in Ex.
    cbn [w_target w_backup w_pos w_rng w_io w_stdin w_log] in Ex.
    rewrite Hdisable in Ex. cbn [negb] in Ex.
    rewrite (cli_main_accepts rand fault_at fuel args
             (init_world (Regular c) backup rest) c k eq_refl HkR Hd Hnb)
      in Ey.
    unfold bind at 1 in Ey. unfold stat_size at 1, file_op at 1 in Ey.
    unfold set_stdin, bump_io, init_world in Ey.
    cbn [w_target w_backup w_pos w_rng w_io w_stdin w_log] in Ey.
    rewrite F in Ey.
    unfold bind at 1 in Ex. unfold bind at 1 in Ey.
    clear Hreject Hargs.
    match type of Ex with
    | context [confirm_action ?W] =>
        destruct (confirm_action W) as [[[|] | e |] w']
    end; cbn [negb] in Ex, Ey; subst x y; cbn [fst snd].
    + split; [reflexivity | left; reflexivity].
    + split; [reflexivity | left; reflexivity].
    + split; [reflexivity | left; reflexivity].
    + split; [reflexivity | left; reflexivity].
  - (* the size cannot be read *)
    destruct Hargs as [Hrej | [Hd | [k [_ [_ Hy]]]]].
    + subst x. eapply Hreject;
        [right; left; exact Hrej | reflexivity | reflexivity
        | reflexivity | reflexivity].
    + subst x. eapply Hreject;
        [right; right; exact Hd | reflexivity | reflexivity
        | reflexivity | reflexivity].
    + rewrite Hy in Ey.
      unfold bind at 1 in Ey. unfold stat_size at 1, file_op at 1 in Ey.
      unfold set_stdin, bump_io, init_world in Ey.
      cbn [w_target w_backup w_pos w_rng w_io w_stdin w_log] in Ey.
      rewrite F in Ey. subst x y. cbn [fst snd].
      split; [reflexivity|]. right. repeat split; reflexivity.
  - (* an interrupt while the size is read *)
    destruct Hargs as [Hrej | [Hd | [k [_ [_ Hy]]]]].
    + subst x. eapply Hreject;
        [right; left; exact Hrej | reflexivity | reflexivity
        | reflexivity | reflexivity].
    + subst x. eapply Hreject;
        [right; right; exact Hd | reflexivity | reflexivity
        | reflexivity | reflexivity].
    + rewrite Hy in Ey.
      unfold bind at 1 in Ey. unfold stat_size at 1, file_op at 1 in Ey.
      unfold set_stdin, bump_io, init_world in Ey.
      cbn [w_target w_backup w_pos w_rng w_io w_stdin w_log] in Ey.
      rewrite F in Ey. subst x y. cbn [fst snd].
      split; [reflexivity|]. right. repeat split; reflexivity.
Qed.

Lemma front_ends_agree_witness :
  Str.is_empty (Str.strip_quotes "target.bin") = false /\
  (Str.is_empty (Str.strip " 2KB ") = true /\
   a_step (mkArgs "target.bin" "2KB" 4 false) = "1KB" \/
   Str.is_empty (Str.strip " 2KB ") = false /\
   a_step (mkArgs "target.bin" "2KB" 4 false) = Str.strip " 2KB ") /\
  (Str.is_empty (Str.strip "4") = true /\
   a_destroy (mkArgs "target.bin" "2KB" 4 false) = 4 \/
   Str.is_empty (Str.strip "4") = false /\
   Num.py_int (Str.strip "4")
   = Ret (a_destroy (mkArgs "target.bin" "2KB" 4 false))) /\
  is_yes (Str.lower (Str.strip "n")) = false /\
  a_no_backup (mkArgs "target.bin" "2KB" 4 false) = false /\
  agree (blank_file 5000) None
    (run counting no_fault 4 Interactive (blank_file 5000) None
       [Line "target.bin"; Line " 2KB "; Line "4"; Line "n"; Line ""])
    (run counting no_fault 4
       (CommandLine (Namespace (mkArgs "target.bin" "2KB" 4 false)))
       (blank_file 5000) None [Line ""]).
Proof.
  split; [reflexivity|].
  split; [right; split; reflexivity|].
  split; [right; split; reflexivity|].
  split; [reflexivity|]. split; [reflexivity|].
  apply (front_ends_agree counting no_fault 4
           (mkArgs "target.bin" "2KB" 4 false)
           "target.bin" " 2KB " "4" "n" (blank_file 5000) None [Line ""]);
    [reflexivity | right; split; reflexivity | right; split; reflexivity
    | reflexivity | reflexivity].
Defined.

(** ** The damage is confined to the windows that were visited *)

Lemma confined_start c w :
  w_target w = Regular c -> confined c w.
Proof.
  intros Ht. exists c. split; [exact Ht|]. split; [reflexivity|].
  intros i _ _. reflexivity.
Qed.

(** What leaves the target alone and only adds to the log. *)
Lemma confines_of_fixes c {A} (m : M A) :
  fixes_target m -> log_grows m -> confines c m.
Proof.
  intros Hf Hl w [c' [Ht [Hlen Hn]]]. exists c'.
  split; [rewrite Hf; exact Ht|]. split; [exact Hlen|].
  intros i Hi Hout. apply Hn; [exact Hi|].
  intros idx pos Hin. apply (Hout idx pos). apply Hl. exact Hin.
Qed.

Lemma confines_ret c {A} (a : A) : confines c (ret a).
Proof. intros w H. exact H. Qed.

Lemma confines_raise c {A} (e : exn) : confines c (@raise A e).
Proof. intros w H. exact H. Qed.

Lemma confines_lift c {A} (r : result A) : confines c (lift r).
Proof. intros w H. exact H. Qed.

Lemma confines_bind c {A B} (m : M A) (f : A -> M B) :
  confines c m -> (forall a, confines c (f a)) -> confines c (bind m f).
Proof.
  intros Hm Hf w Hw. unfold bind. specialize (Hm w Hw).
  destruct (m w) as [[a | e |] w1]; simpl in *; try exact Hm.
  apply Hf. exact Hm.
Qed.

(** The same, when the rest needs to know what the first part returned. *)
Lemma confines_bind_with c {A B} (Q : A -> Prop) (m : M A) (f : A -> M B) :
  (forall w, confined c w ->
     confined c (snd (m w)) /\ forall a, fst (m w) = Ret a -> Q a) ->
  (forall a, Q a -> confines c (f a)) -> confines c (bind m f).
Proof.
  intros Hm Hf w Hw. unfold bind. destruct (Hm w Hw) as [H1 H2].
  destruct (m w) as [[a | e |] w1]; simpl in *; try exact H1.
  apply Hf; [apply H2; reflexivity | exact H1].
Qed.

Lemma confines_try c {A} (m : M A) (h : exn -> option (M A)) :
  confines c m -> (forall e k, h e = Some k -> confines c k) ->
  confines c (try_except m h).
Proof.
  intros Hm Hh w Hw. unfold try_except. specialize (Hm w Hw).
  destruct (m w) as [[a | e |] w1]; simpl in *; try exact Hm.
  destruct (h e) as [k |] eqn:Ek; [apply (Hh e k Ek)|]; exact Hm.
Qed.

Lemma confines_for_each c {A} (l : list A) (body : A -> M unit) :
  (forall x, confines c (body x)) -> confines c (for_each l body).
Proof.
  intros Hb. induction l as [| x l IH]; cbn [for_each].
  - apply confines_ret.
  - apply confines_bind; [apply Hb | intros _; exact IH].
Qed.

Lemma confines_input c : confines c input.
Proof.
  apply confines_of_fixes; [|apply plain_input].
  intros w. unfold input. destruct (w_stdin w) as [| [s |] rest]; reflexivity.
Qed.

Lemma confines_ask_yes_no c default : confines c (ask_yes_no default).
Proof.
  apply confines_of_fixes; [|apply plain_ask_yes_no].
  intros w. destruct (ask_yes_no default w) as [r w'] eqn:E.
  apply (ask_yes_no_spec _ _ _ _ E).
Qed.

Lemma confines_parse_step c text (otherwise : M Z) :
  confines c otherwise -> confines c (parse_step text otherwise).
Proof.
  intros Ho w Hw.
  destruct (parse_step_cases text otherwise w)
    as [[k [_ [_ E]]] | [[n [_ [_ E]]] | [_ [_ E]]]]; rewrite E;
    [exact Hw | exact Hw | apply Ho; exact Hw].
Qed.

Section Confined.

Variable rand : nat -> Z.
Variable fault_at : nat -> fault.

Lemma fixes_target_stat_size : fixes_target (stat_size fault_at).
Proof.
  intros w. unfold stat_size, file_op.
  destruct (fault_at (w_io w)); simpl; try reflexivity.
  destruct (w_target w) eqn:Ht; simpl; exact Ht.
Qed.

Lemma confines_stat_size c : confines c (stat_size fault_at).
Proof.
  apply confines_of_fixes;
    [apply fixes_target_stat_size | apply plain_stat_size].
Qed.

(** On a file that is confined, [stat] returns the length of the
    original. *)
Lemma stat_size_confined c w :
  confined c w ->
  confined c (snd (stat_size fault_at w)) /\
  forall a, fst (stat_size fault_at w) = Ret a ->
            a = Z.of_nat (List.length c).
Proof.
  intros Hw. split; [apply confines_stat_size; exact Hw|].
  destruct Hw as [c' [Ht [Hlen _]]].
  unfold stat_size, file_op.
  destruct (fault_at (w_io w)); simpl; try discriminate.
  rewrite Ht. simpl. intros a E. inversion E. rewrite Hlen. reflexivity.
Qed.

Lemma confines_open_rw c : confines c (open_rw fault_at).
Proof.
  apply confines_of_fixes; [|apply plain_open_rw].
  intros w. unfold open_rw, file_op.
  destruct (fault_at (w_io w)); simpl; try reflexivity.
  destruct (w_target w) eqn:Ht; simpl; exact Ht.
Qed.

Lemma confines_backup_step c make_backup :
  confines c (backup_step fault_at make_backup).
Proof.
  apply confines_of_fixes; [|apply plain_backup_step].
  intros w. destruct (backup_step fault_at make_backup w) as [r w'] eqn:E.
  apply (backup_step_spec fault_at _ _ _ _ E).
Qed.

(** One turn of the loop: the window is logged before anything is written,
    and what is written lies in the window. *)
Lemma confines_corrupt_step c fuel (step_bytes destroy_bytes idx : Z) :
  confines c
    (corrupt_step rand fault_at fuel (Z.of_nat (List.length c)) step_bytes
       destroy_bytes idx).
Proof.
  intros w [c1 [Ht [Hlen Hn]]].
  set (pos := 1024 + idx * step_bytes).
  assert (Hlogged : forall w1,
            In (Window idx pos)
               (w_log (snd (corrupt_step rand fault_at fuel
                              (Z.of_nat (List.length c)) step_bytes
                              destroy_bytes idx w1)))).
  { intros w1.
    pose proof (plain_corrupt_step rand fault_at fuel
                  (Z.of_nat (List.length c)) step_bytes destroy_bytes idx)
      as Hp.
    unfold corrupt_step in *. fold pos in Hp. fold pos.
    rewrite bind_log.
    assert (Hrest : plain
              (plan <- protect_region_check rand (Z.of_nat (List.length c))
                         pos destroy_bytes ;;
               let '(actual_pos, num_to_corrupt) := plan in
               if num_to_corrupt <=? 0 then ret tt
               else
                 f_seek fault_at actual_pos ;;
                 original_bytes <- f_read fault_at num_to_corrupt ;;
                 new_bytes <- mutate rand fuel original_bytes ;;
                 f_seek fault_at actual_pos ;;
                 f_write fault_at new_bytes)).
    { apply plain_bind; [apply plain_protect_region_check | intros [a num]].
      destruct (num <=? 0); [apply plain_ret|].
      apply plain_bind; [apply plain_f_seek | intros _].
      apply plain_bind; [apply plain_f_read | intros ob].
      apply plain_bind; [apply plain_mutate | intros nb].
      apply plain_bind; [apply plain_f_seek | intros _; apply plain_f_write]. }
    apply (proj1 Hrest). simpl. apply in_or_app. right. left. reflexivity. }
  assert (Hgrows : forall e, In e (w_log w) ->
            In e (w_log (snd (corrupt_step rand fault_at fuel
                                (Z.of_nat (List.length c)) step_bytes
                                destroy_bytes idx w)))).
  { intros e. apply (proj1 (plain_corrupt_step rand fault_at fuel
                              (Z.of_nat (List.length c)) step_bytes
                              destroy_bytes idx)). }
  specialize (Hlogged w).
  destruct (corrupt_step rand fault_at fuel (Z.of_nat (List.length c))
              step_bytes destroy_bytes idx w) as [r w'] eqn:E.
  cbn [snd] in *.
  destruct (Z_le_gt_dec (Z.of_nat (List.length c)) 2048) as [Hsmall | Hbig].
  - rewrite (corrupt_step_small rand fault_at fuel _ step_bytes destroy_bytes
               idx w Hsmall) in E. inversion E; subst.
    exists c1. split; [exact Ht|]. split; [exact Hlen|].
    intros i Hi Hout. apply Hn; [exact Hi|].
    intros idx' pos' Hin. apply (Hout idx' pos'). simpl. apply in_or_app.
    left. exact Hin.
  - rewrite <- Hlen in E, Hbig.
    destruct (corrupt_step_precise rand fault_at fuel step_bytes
                destroy_bytes idx w c1 r w' Ht Hbig E)
      as [a [c' [Ht' [Hlo [Hhi [Hc0 [Hin [[Hlen' Hso] _]]]]]]]].
    fold pos in Hlo, Hhi, Hc0, Hin, Hso.
    exists c'. split; [exact Ht'|]. split; [congruence|].
    intros i Hi Hout. rewrite Hso; [|exact Hi|].
    + apply Hn; [exact Hi|]. intros idx' pos' Hin'.
      apply (Hout idx' pos'). apply Hgrows. exact Hin'.
    + specialize (Hout idx pos Hlogged). rewrite <- Hlen in Hout.
      unfold window_end in Hout. subst pos.
      destruct (Z.eq_dec
                  (window_count (Z.of_nat (List.length c1))
                     (1024 + idx * step_bytes) destroy_bytes)
                  0) as [E0 | E0].
      * rewrite E0. lia.
      * assert (Hpos : 0 < window_count (Z.of_nat (List.length c1))
                             (1024 + idx * step_bytes) destroy_bytes) by lia.
        specialize (Hin Hpos). lia.
Qed.

Lemma confines_corrupt_file c fuel step_kb destroy_bytes make_backup :
  confines c
    (corrupt_file rand fault_at fuel step_kb destroy_bytes make_backup).
Proof.
  unfold corrupt_file.
  apply (confines_bind_with c (fun a => a = Z.of_nat (List.length c)));
    [apply stat_size_confined|].
  intros file_size ->.
  apply confines_bind; [apply confines_lift | intros total].
  apply confines_bind; [apply confines_backup_step | intros go_on].
  destruct (negb go_on); [apply confines_ret|].
  apply confines_bind; [apply confines_open_rw | intros _].
  apply confines_for_each. intros idx. apply confines_corrupt_step.
Qed.

Lemma confines_cli_main c fuel line :
  confines c (cli_main rand fault_at fuel line).
Proof.
  unfold cli_main.
  apply confines_bind;
    [destruct line; [apply confines_ret | apply confines_raise ..]|].
  intros args. unfold cli_run.
  apply confines_bind; [intros w H; exact H|].
  intros there. destruct (negb there); [apply confines_raise|].
  apply confines_bind; [intros w H; exact H|].
  intros is_file. destruct (negb is_file); [apply confines_raise|].
  apply confines_bind; [apply confines_parse_step, confines_raise|].
  intros step_kb. destruct (a_destroy args <=? 0); [apply confines_raise|].
  apply confines_bind.
  { destruct (a_no_backup args); [|apply confines_ret].
    apply confines_bind; [apply confines_ask_yes_no|].
    intros ok. destruct (negb ok); [apply confines_raise | apply confines_ret]. }
  intros _. apply confines_bind; [apply confines_stat_size|].
  intros _. apply confines_bind; [apply confines_ask_yes_no|].
  intros ok. destruct (negb ok); [apply confines_raise|].
  apply confines_corrupt_file.
Qed.

Lemma confines_interactive_mode c fuel :
  confines c (interactive_mode rand fault_at fuel).
Proof.
  unfold interactive_mode. apply confines_try.
  2:{ intros e k. destruct (is_Exception e); [|discriminate].
      intros E. inversion E; subst. apply confines_raise. }
  apply confines_bind; [apply confines_input|].
  intros file_path. destruct (Str.is_empty _); [apply confines_raise|].
  apply confines_bind; [intros w H; exact H|].
  intros there. destruct (negb there); [apply confines_raise|].
  apply confines_bind; [intros w H; exact H|].
  intros is_file. destruct (negb is_file); [apply confines_raise|].
  apply confines_bind; [apply confines_stat_size|].
  intros _. apply confines_bind; [apply confines_input|].
  intros step_line. apply confines_bind.
  { destruct (Str.is_empty _); [apply confines_ret|].
    apply confines_parse_step, confines_raise. }
  intros step_kb. apply confines_bind; [apply confines_input|].
  intros destroy_line. apply confines_bind.
  { destruct (Str.is_empty _); [apply confines_ret|].
    apply confines_try.
    - apply confines_bind; [apply confines_lift|].
      intros d. destruct (d <=? 0); [apply confines_raise | apply confines_ret].
    - intros e k. destruct (is_ValueError e); [|discriminate].
      intros E. inversion E; subst. apply confines_raise. }
  intros destroy_bytes. apply confines_bind; [apply confines_input|].
  intros disable_line. apply confines_bind; [apply confines_ask_yes_no|].
  intros ok. destruct (negb ok); [apply confines_ret|].
  apply confines_corrupt_file.
Qed.

Lemma confines_main c fuel m : confines c (main rand fault_at fuel m).
Proof.
  unfold main. apply confines_try.
  - destruct m; [apply confines_cli_main | apply confines_interactive_mode].
  - intros e k E.
    assert (Hk : k = sys_exit 1).
    { destruct e; simpl in E; inversion E; reflexivity. }
    subst k. apply confines_raise.
Qed.

End Confined.

(** ** The windows that a run records *)

Lemma windows_in l idx pos :
  In (Window idx pos) l <-> In (idx, pos) (windows l).
Proof.
  induction l as [| [i p | b |] l IH]; simpl.
  - tauto.
  - rewrite <- IH. split; intros [H | H]; auto; left; congruence.
  - rewrite <- IH. split; [intros [H | H]; [discriminate | exact H] | auto].
  - rewrite <- IH. split; [intros [H | H]; [discriminate | exact H] | auto].
Qed.

Lemma windowless_ret {A} (a : A) : windowless (ret a).
Proof. intros w. reflexivity. Qed.

Lemma windowless_raise {A} (e : exn) : windowless (@raise A e).
Proof. intros w. reflexivity. Qed.

Lemma windowless_lift {A} (r : result A) : windowless (lift r).
Proof. intros w. reflexivity. Qed.

Lemma windowless_bind {A B} (m : M A) (f : A -> M B) :
  windowless m -> (forall a, windowless (f a)) -> windowless (bind m f).
Proof.
  intros Hm Hf w. unfold bind. specialize (Hm w).
  destruct (m w) as [[a | e |] w1]; simpl in *; try exact Hm.
  rewrite Hf. exact Hm.
Qed.

Lemma windowless_try {A} (m : M A) (h : exn -> option (M A)) :
  windowless m -> (forall e k, h e = Some k -> windowless k) ->
  windowless (try_except m h).
Proof.
  intros Hm Hh w. unfold try_except. specialize (Hm w).
  destruct (m w) as [[a | e |] w1]; simpl in *; try exact Hm.
  destruct (h e) as [k |] eqn:Ek; [|exact Hm].
  rewrite (Hh e k Ek). exact Hm.
Qed.

Lemma windowless_of_log {A} (m : M A) :
  (forall w, w_log (snd (m w)) = w_log w \/
             w_log (snd (m w)) = w_log w ++ [Interrupted]) ->
  windowless m.
Proof.
  intros H w. destruct (H w) as [-> | ->]; [reflexivity|].
  rewrite windows_app. simpl. apply app_nil_r.
Qed.

Lemma windowless_ask_yes_no default : windowless (ask_yes_no default).
Proof.
  intros w. destruct (ask_yes_no default w) as [r w'] eqn:E.
  destruct (ask_yes_no_spec _ _ _ _ E) as [_ [_ Hl]]. simpl.
  destruct r as [b | e |]; [| |contradiction].
  - rewrite Hl, windows_app. simpl. apply app_nil_r.
  - destruct e; rewrite Hl; try reflexivity.
    rewrite windows_app. simpl. apply app_nil_r.
Qed.

Section Windows.

Variable rand : nat -> Z.
Variable fault_at : nat -> fault.

Lemma windowless_file_op {A} (ok : M A) failed :
  windowless ok ->
  (forall n w, w_log (failed n w) = w_log w) ->
  windowless (file_op fault_at ok failed).
Proof.
  intros Hok Hfail w. unfold file_op.
  destruct (fault_at (w_io w)); simpl.
  - apply (Hok (bump_io w)).
  - rewrite Hfail. reflexivity.
  - rewrite windows_app. simpl. apply app_nil_r.
Qed.

Lemma windowless_stat_size : windowless (stat_size fault_at).
Proof.
  apply windowless_file_op; [|reflexivity].
  intros w. destruct (w_target w); reflexivity.
Qed.

Lemma windowless_copy2 : windowless (copy2 fault_at).
Proof.
  apply windowless_file_op.
  - intros w. destruct (w_target w); reflexivity.
  - intros n w. destruct (w_target w); [| |destruct n]; reflexivity.
Qed.

Lemma windowless_open_rw : windowless (open_rw fault_at).
Proof.
  apply windowless_file_op; [|reflexivity].
  intros w. destruct (w_target w); reflexivity.
Qed.

Lemma windowless_f_seek p : windowless (f_seek fault_at p).
Proof.
  apply windowless_file_op; [|reflexivity].
  intros w. destruct (p <? 0); reflexivity.
Qed.

Lemma windowless_f_read n : windowless (f_read fault_at n).
Proof.
  apply windowless_file_op; [|reflexivity].
  intros w. destruct (w_target w); reflexivity.
Qed.

Lemma windowless_f_write data : windowless (f_write fault_at data).
Proof.
  apply windowless_file_op.
  - intros w. unfold put_bytes. destruct (w_target w); reflexivity.
  - intros n w. unfold put_bytes. destruct (w_target w); reflexivity.
Qed.

Lemma windowless_randint lo hi : windowless (randint rand lo hi).
Proof. intros w. unfold randint. destruct (hi <? lo); reflexivity. Qed.

Lemma windowless_mutate fuel original_bytes :
  windowless (mutate rand fuel original_bytes).
Proof.
  intros w. destruct (mutate rand fuel original_bytes w) as [r w'] eqn:E.
  destruct (mutate_spec rand fuel original_bytes w r w' E) as [Hf _].
  simpl. destruct (rng_only_fields _ _ Hf) as [_ [_ [_ [_ [_ ->]]]]].
  reflexivity.
Qed.

Lemma windowless_protect_region_check file_size pos destroy_count :
  windowless (protect_region_check rand file_size pos destroy_count).
Proof.
  unfold protect_region_check.
  destruct (_ <=? _); [apply windowless_raise|].
  destruct (_ || _); [apply windowless_ret|].
  destruct (_ <=? _); [apply windowless_ret|].
  apply windowless_bind; [|intros; apply windowless_ret].
  destruct (_ <? _); [|apply windowless_ret].
  apply windowless_bind; [apply windowless_randint|].
  intros; apply windowless_ret.
Qed.

Lemma windowless_backup_step make_backup :
  windowless (backup_step fault_at make_backup).
Proof.
  unfold backup_step. destruct make_backup; [|apply windowless_ret].
  apply windowless_try.
  - apply windowless_bind; [apply windowless_copy2|].
    intros _; apply windowless_ret.
  - intros e k. destruct (is_Exception e); [|discriminate].
    intros E. inversion E; subst. apply windowless_ask_yes_no.
Qed.

(** One turn of the loop records its window, and nothing else. *)
Lemma corrupt_step_windows fuel (file_size step_bytes destroy_bytes idx : Z)
  w :
  windows (w_log (snd (corrupt_step rand fault_at fuel file_size step_bytes
                         destroy_bytes idx w)))
  = windows (w_log w) ++ [(idx, 1024 + idx * step_bytes)].
Proof.
  unfold corrupt_step. rewrite bind_log.
  match goal with
  | |- windows (w_log (snd (?m ?w0))) = _ =>
      assert (H : windowless m); [|rewrite (H w0)]
  end.
  { apply windowless_bind;
      [apply windowless_protect_region_check | intros [a num]].
    destruct (num <=? 0); [apply windowless_ret|].
    apply windowless_bind; [apply windowless_f_seek | intros _].
    apply windowless_bind; [apply windowless_f_read | intros ob].
    apply windowless_bind; [apply windowless_mutate | intros nb].
    apply windowless_bind; [apply windowless_f_seek | intros _].
    apply windowless_f_write. }
  simpl. rewrite windows_app. reflexivity.
Qed.

(** The walk records the windows of the turns that it has begun: those of
    the first indices of the list. *)
Lemma walk_windows fuel (file_size step_bytes destroy_bytes : Z) :
  forall (l : list Z) w,
  exists k,
    windows (w_log (snd (for_each l
                           (corrupt_step rand fault_at fuel file_size
                              step_bytes destroy_bytes) w)))
    = windows (w_log w)
      ++ map (fun i => (i, 1024 + i * step_bytes)) (firstn k l).
Proof.
  induction l as [| x l IH]; intros w; cbn [for_each].
  - exists O. simpl. rewrite app_nil_r. reflexivity.
  - unfold bind.
    pose proof (corrupt_step_windows fuel file_size step_bytes destroy_bytes
                  x w) as Hx.
    destruct (corrupt_step rand fault_at fuel file_size step_bytes
                destroy_bytes x w) as [[[] | e |] w1]; simpl in Hx.
    + destruct (IH w1) as [k Hk]. exists (S k). rewrite Hk, Hx.
      cbn [firstn map]. rewrite <- app_assoc. reflexivity.
    + exists 1%nat. simpl. exact Hx.
    + exists 1%nat. simpl. exact Hx.
Qed.

Lemma firstn_of_seq : forall (k start len : nat),
  firstn k (seq start len) = seq start (Nat.min k len).
Proof.
  induction k as [| k IH]; intros start len; [reflexivity|].
  destruct len as [| len]; [reflexivity|].
  cbn [seq firstn Nat.min]. rewrite IH. reflexivity.
Qed.

Lemma firstn_py_range (k : nat) (n : Z) :
  firstn k (py_range n) = py_range (Z.of_nat (Nat.min k (Z.to_nat n))).
Proof.
  unfold py_range. rewrite firstn_map, firstn_of_seq, Nat2Z.id. reflexivity.
Qed.

Lemma corrupt_file_windows fuel (step_kb destroy_bytes : Z) make_backup w :
  exists k,
    0 <= k /\
    windows (w_log (snd (corrupt_file rand fault_at fuel step_kb
                           destroy_bytes make_backup w)))
    = windows (w_log w)
      ++ map (fun i => (i, 1024 + i * (step_kb * 1024))) (py_range k).
Proof.
  assert (Hnone : forall w1 : world,
            windows (w_log w1) = windows (w_log w) ->
            exists k, 0 <= k /\
              windows (w_log w1)
              = windows (w_log w)
                ++ map (fun i => (i, 1024 + i * (step_kb * 1024)))
                     (py_range k)).
  { intros w1 H. exists 0. split; [lia|]. rewrite H.
    simpl. rewrite app_nil_r. reflexivity. }
  unfold corrupt_file. unfold bind at 1.
  pose proof (windowless_stat_size w) as H1.
  destruct (stat_size fault_at w) as [[file_size | e |] w1]; simpl in H1;
    try (apply Hnone; exact H1).
  unfold bind at 1. unfold lift at 1.
  destruct (total_steps file_size (step_kb * 1024)) as [total | e |];
    try (apply Hnone; exact H1).
  unfold bind at 1.
  pose proof (windowless_backup_step make_backup w1) as H2.
  destruct (backup_step fault_at make_backup w1) as [[go_on | e |] w2];
    simpl in H2; try (apply Hnone; simpl; congruence).
  destruct (negb go_on); [apply Hnone; simpl; congruence|].
  unfold bind at 1.
  pose proof (windowless_open_rw w2) as H3.
  destruct (open_rw fault_at w2) as [[[] | e |] w3]; simpl in H3;
    try (apply Hnone; simpl; congruence).
  destruct (walk_windows fuel file_size (step_kb * 1024) destroy_bytes
              (py_range total) w3) as [k Hk].
  exists (Z.of_nat (Nat.min k (Z.to_nat total))). split; [lia|].
  rewrite Hk, firstn_py_range. congruence.
Qed.

End Windows.

(** X14: whatever is damaged lies in a window that was visited.  In every
    run of the program on a regular file, in either front end and however
    the run ends (completion, refusal, fault, partial write, interrupt, a
    loop that does not end), the file keeps its length, and a byte can
    differ from the original only at an offset that lies, for some window
    whose turn of the loop has begun, in the first 1024 bytes from the
    start of that window and before the last 1024 bytes of the file (the
    log of a run starts empty, and a window is recorded when its turn
    begins); the same holds for [corrupt_file] alone, with the windows that
    the log of its final world records.  A run that is cut short has not
    touched the windows that it did not reach. *)
Theorem damage_is_confined_to_visited_windows
  (rand : nat -> Z) (fault_at : nat -> fault) (fuel : nat) (c : list Z) :
  (forall m backup stdin,
     confined c (snd (run rand fault_at fuel m (Regular c) backup stdin))) /\
  (forall step_kb destroy_bytes make_backup w,
     w_target w = Regular c ->
     confined c (snd (corrupt_file rand fault_at fuel step_kb destroy_bytes
                        make_backup w))).
Proof.
  split.
  - intros m backup stdin. unfold run.
    pose proof (confines_main rand fault_at c fuel m
                  (init_world (Regular c) backup stdin)
                  (confined_start c (init_world (Regular c) backup stdin)
                     eq_refl)) as H.
    destruct (main rand fault_at fuel m (init_world (Regular c) backup stdin))
      as [r w']. exact H.
  - intros step_kb destroy_bytes make_backup w Ht.
    apply confines_corrupt_file. apply confined_start. exact Ht.
Qed.


(** X15: a run of [corrupt_file] that is cut short has not touched the part
    of the file that it did not reach.  On a regular file and with a
    positive step, however the run ends, the turns of the loop that have
    begun are those of the windows 0 .. k - 1 for some k, and every byte
    from the offset [1024 + k * step_bytes] on, the start of the first
    window that was not begun, is the byte of the original. *)
Theorem untouched_beyond_the_last_window
  (rand : nat -> Z) (fault_at : nat -> fault) (fuel : nat)
  (step_kb destroy_bytes : Z) (make_backup : bool) (w : world) (c : list Z) :
  w_target w = Regular c ->
  0 < step_kb ->
  windows (w_log w) = [] ->
  exists k c',
    0 <= k /\
    windows (w_log (snd (corrupt_file rand fault_at fuel step_kb
                           destroy_bytes make_backup w)))
    = map (fun i => (i, 1024 + i * (step_kb * 1024))) (py_range k) /\
    w_target (snd (corrupt_file rand fault_at fuel step_kb destroy_bytes
                     make_backup w)) = Regular c' /\
    List.length c' = List.length c /\
    forall i, 1024 + k * (step_kb * 1024) <= i ->
      nth (Z.to_nat i) c' 0 = nth (Z.to_nat i) c 0.
Proof.
  intros Ht Hstep Hlog.
  destruct (corrupt_file_windows rand fault_at fuel step_kb destroy_bytes
              make_backup w) as [k [Hk Hw]].
  rewrite Hlog in Hw. cbn [app] in Hw.
  destruct (confines_corrupt_file rand fault_at c fuel step_kb destroy_bytes
              make_backup w (confined_start c w Ht)) as [c' [Ht' [Hlen Hn]]].
  exists k, c'. split; [exact Hk|]. split; [exact Hw|].
  split; [exact Ht'|]. split; [exact Hlen|].
  intros i Hi. apply Hn; [lia|].
  intros idx pos Hin. apply windows_in in Hin. rewrite Hw in Hin.
  apply in_map_iff in Hin. destruct Hin as [j [Hj Hin]].
  cbv beta in Hj.
  assert (Hidx : idx = j) by congruence.
  assert (Hpos : pos = 1024 + j * (step_kb * 1024)) by congruence.
  clear Hj. subst idx pos.
  apply py_range_bounds in Hin.
  unfold window_end.
  assert (H1 : 1024 <= step_kb * 1024) by lia.
  assert (H2 : (j + 1) * (step_kb * 1024) <= k * (step_kb * 1024))
    by (apply Z.mul_le_mono_nonneg_r; lia).
  lia.
Qed.

Lemma untouched_beyond_the_last_window_witness :
  w_target (init_world (blank_file 5000) None []) = blank_file 5000 /\
  0 < 1 /\
  windows (w_log (init_world (blank_file 5000) None [])) = [] /\
  exists k c',
    0 <= k /\
    windows
      (w_log (snd (corrupt_file counting
                     (fun n => if (n =? 7)%nat then IOFault 2 else NoFault)
                     4 1 4 true (init_world (blank_file 5000) None []))))
    = map (fun i => (i, 1024 + i * (1 * 1024))) (py_range k) /\
    w_target
      (snd (corrupt_file counting
              (fun n => if (n =? 7)%nat then IOFault 2 else NoFault)
              4 1 4 true (init_world (blank_file 5000) None [])))
    = Regular c' /\
    List.length c' = List.length (repeat 0 (Z.to_nat 5000)) /\
    forall i, 1024 + k * (1 * 1024) <= i ->
      nth (Z.to_nat i) c' 0 = nth (Z.to_nat i) (repeat 0 (Z.to_nat 5000)) 0.
Proof.
  split; [reflexivity|]. split; [lia|]. split; [reflexivity|].
  apply (untouched_beyond_the_last_window counting
           (fun n => if (n =? 7)%nat then IOFault 2 else NoFault)
           4 1 4 true (init_world (blank_file 5000) None [])
           (repeat 0 (Z.to_nat 5000)));
    [reflexivity | lia | reflexivity].
Defined.

(** ** The sizes that are printed *)

Lemma round_half_even_multiple k q :
  0 < q -> Num.round_half_even (k * q) q = k.
Proof.
  intros Hq. unfold Num.round_half_even.
  rewrite Z.div_mul, Z.mod_mul by lia.
  assert (E : (2 * 0 <? q) = true) by (apply Z.ltb_lt; lia).
  rewrite E. reflexivity.
Qed.

Lemma round_half_even_scale a b c :
  0 < b -> 0 < c ->
  Num.round_half_even (a * c) (b * c) = Num.round_half_even a b.
Proof.
  intros Hb Hc. unfold Num.round_half_even.
  rewrite Z.div_mul_cancel_r by lia.
  rewrite Z.mul_mod_distr_r by lia.
  assert (E1 : (2 * (a mod b * c) <? b * c) = (2 * (a mod b) <? b)).
  { destruct (2 * (a mod b) <? b) eqn:E.
    - apply Z.ltb_lt in E. apply Z.ltb_lt. nia.
    - apply Z.ltb_ge in E. apply Z.ltb_ge. nia. }
  assert (E2 : (b * c <? 2 * (a mod b * c)) = (b <? 2 * (a mod b))).
  { destruct (b <? 2 * (a mod b)) eqn:E.
    - apply Z.ltb_lt in E. apply Z.ltb_lt. nia.
    - apply Z.ltb_ge in E. apply Z.ltb_ge. nia. }
  rewrite E1, E2. reflexivity.
Qed.

(** A whole number below [2 ^ 53] divided by a power of two that is not
    greater is a binary64 number: the division does not round. *)
Lemma round64_normal p b :
  0 < p < 2 ^ 53 -> 0 <= b <= Z.log2 p ->
  Num.round64 p (2 ^ b)
  = Num.Finite (p * 2 ^ (52 - Z.log2 p)) (Z.log2 p - b - 52).
Proof.
  intros [Hp0 Hp] [Hb0 Hb]. unfold Num.round64.
  assert (E0 : (p =? 0) = false) by (apply Z.eqb_neq; lia).
  rewrite E0. rewrite Z.log2_pow2 by lia.
  set (L := Z.log2 p) in *.
  assert (HL : L < 53) by (apply Z.log2_lt_pow2; assumption).
  destruct (Z.log2_spec p Hp0) as [Hlo Hhi]. fold L in Hlo, Hhi.
  assert (G : Num.ge_pow2 p (2 ^ b) (L - b) = true).
  { unfold Num.ge_pow2, Num.pow2.
    assert (E : (0 <=? L - b) = true) by (apply Z.leb_le; lia).
    rewrite E. apply Z.leb_le.
    rewrite <- Z.pow_add_r by lia. replace (b + (L - b)) with L by lia.
    exact Hlo. }
  rewrite G.
  assert (U : Z.max (L - b - 52) (-1074) = L - b - 52) by lia.
  rewrite U.
  destruct (0 <=? L - b - 52) eqn:E.
  - apply Z.leb_le in E.
    assert (HL52 : L = 52) by lia. assert (Hb00 : b = 0) by lia.
    rewrite HL52, Hb00. change (52 - 0 - 52) with 0. change (52 - 52) with 0.
    unfold Num.pow2. change (2 ^ 0) with 1. change (1 * 1) with 1.
    rewrite Z.mul_1_r, round_half_even_whole.
    assert (O : Num.overflows p 0 = false).
    { unfold Num.overflows, Num.pow2. change (2 ^ 0) with 1.
      rewrite Z.mul_1_r. apply andb_false_iff. right. apply Z.leb_gt.
      assert (2 ^ 53 < 2 ^ 1024) by (apply Z.pow_lt_mono_r; lia). lia. }
    rewrite O. reflexivity.
  - apply Z.leb_gt in E. unfold Num.pow2.
    replace (- (L - b - 52)) with (52 - L + b) by lia.
    rewrite Z.pow_add_r by lia. rewrite Z.mul_assoc.
    rewrite round_half_even_multiple by (apply Z.pow_pos_nonneg; lia).
    assert (O : Num.overflows (p * 2 ^ (52 - L)) (L - b - 52) = false).
    { unfold Num.overflows.
      assert (E' : (0 <=? L - b - 52) = false) by (apply Z.leb_gt; lia).
      rewrite E'. reflexivity. }
    rewrite O. reflexivity.
Qed.

Lemma pow_1024 j : 0 <= j -> 1024 ^ j = 2 ^ (10 * j).
Proof. intros Hj. rewrite Z.pow_mul_r by lia. reflexivity. Qed.

Section Sizes.

Variable n : Z.
Hypothesis n_range : 0 < n < 2 ^ 53.

Lemma log2_range : 0 <= Z.log2 n < 53 /\ 2 ^ Z.log2 n <= n < 2 ^ (Z.log2 n + 1).
Proof.
  destruct n_range as [H0 H1]. split.
  - split; [apply Z.log2_nonneg | apply Z.log2_lt_pow2; assumption].
  - replace (Z.log2 n + 1) with (Z.succ (Z.log2 n)) by lia.
    apply Z.log2_spec. exact H0.
Qed.

Lemma log2_of_power j : 0 <= j -> 1024 ^ j <= n -> 10 * j <= Z.log2 n.
Proof.
  intros Hj Hle. rewrite pow_1024 in Hle by exact Hj.
  apply Z.log2_le_pow2; [lia | exact Hle].
Qed.

Lemma scaled_mantissa :
  2 ^ 52 <= n * 2 ^ (52 - Z.log2 n) < 2 ^ 53.
Proof.
  destruct log2_range as [[HL0 HL] [Hlo Hhi]].
  assert (Hs : 0 < 2 ^ (52 - Z.log2 n)) by (apply Z.pow_pos_nonneg; lia).
  assert (E1 : 2 ^ 52 = 2 ^ Z.log2 n * 2 ^ (52 - Z.log2 n)).
  { rewrite <- Z.pow_add_r by lia. f_equal. lia. }
  assert (E2 : 2 ^ 53 = 2 ^ (Z.log2 n + 1) * 2 ^ (52 - Z.log2 n)).
  { rewrite <- Z.pow_add_r by lia. f_equal. lia. }
  rewrite E1, E2. split; nia.
Qed.

Lemma below_scaled j :
  1 <= j ->
  below_1024 (scaled n j) = (n <? 1024 ^ (j + 1)).
Proof.
  intros Hj. destruct log2_range as [[HL0 HL] _].
  unfold scaled, below_1024, Num.pow2.
  assert (E : (0 <=? Z.log2 n - 10 * j - 52) = false)
    by (apply Z.leb_gt; lia).
  rewrite E.
  assert (Hs : 0 < 2 ^ (52 - Z.log2 n)) by (apply Z.pow_pos_nonneg; lia).
  assert (Hq : 1024 * 2 ^ (- (Z.log2 n - 10 * j - 52))
               = 1024 ^ (j + 1) * 2 ^ (52 - Z.log2 n)).
  { rewrite pow_1024 by lia. change 1024 with (2 ^ 10).
    rewrite <- !Z.pow_add_r by lia. f_equal. lia. }
  rewrite Hq.
  destruct (n <? 1024 ^ (j + 1)) eqn:En.
  - apply Z.ltb_lt in En. apply Z.ltb_lt. nia.
  - apply Z.ltb_ge in En. apply Z.ltb_ge. nia.
Qed.

Lemma div_scaled j :
  1 <= j -> 10 * (j + 1) <= Z.log2 n ->
  div_1024 (scaled n j) = Ret (scaled n (j + 1)).
Proof.
  intros Hj Hfit. destruct log2_range as [[HL0 HL] _].
  pose proof scaled_mantissa as Hm.
  unfold scaled, div_1024, Num.pow2.
  assert (E : (0 <=? Z.log2 n - 10 * j - 52) = false)
    by (apply Z.leb_gt; lia).
  rewrite E.
  assert (Hq : 2 ^ (- (Z.log2 n - 10 * j - 52)) * 1024
               = 2 ^ (62 + 10 * j - Z.log2 n)).
  { change 1024 with (2 ^ 10). rewrite <- Z.pow_add_r by lia. f_equal. lia. }
  rewrite Hq.
  assert (Hlog : Z.log2 (n * 2 ^ (52 - Z.log2 n)) = 52)
    by (apply Z.log2_unique; [lia | exact Hm]).
  rewrite round64_normal; [|lia | rewrite Hlog; lia].
  rewrite Hlog. change (52 - 52) with 0. change (2 ^ 0) with 1.
  rewrite Z.mul_1_r. do 3 f_equal. lia.
Qed.

Lemma div_int :
  1024 <= n -> div_1024 (IntNum n) = Ret (scaled n 1).
Proof.
  intros Hbig. unfold div_1024, scaled.
  assert (H10 : 10 <= Z.log2 n)
    by (apply Z.log2_le_pow2; [lia | exact Hbig]).
  change 1024 with (2 ^ 10).
  rewrite round64_normal; [|exact n_range | lia].
  do 3 f_equal.
Qed.

Lemma format_scaled j :
  1 <= j ->
  format_number (scaled n j)
  = Ret (two_decimals (Num.round_half_even (100 * n) (1024 ^ j))).
Proof.
  intros Hj. destruct log2_range as [[HL0 HL] _].
  unfold scaled, format_number, format_float, Num.pow2.
  assert (E : (0 <=? Z.log2 n - 10 * j - 52) = false)
    by (apply Z.leb_gt; lia).
  rewrite E.
  assert (Hq : 2 ^ (- (Z.log2 n - 10 * j - 52))
               = 1024 ^ j * 2 ^ (52 - Z.log2 n)).
  { rewrite pow_1024 by lia. rewrite <- Z.pow_add_r by lia. f_equal. lia. }
  rewrite Hq, Z.mul_assoc.
  rewrite round_half_even_scale;
    [reflexivity | apply Z.pow_pos_nonneg; lia | apply Z.pow_pos_nonneg; lia].
Qed.

Lemma format_int_exact :
  format_int n = Ret (two_decimals (100 * n)).
Proof.
  destruct log2_range as [[HL0 HL] _]. destruct n_range as [H0 H1].
  unfold format_int, float_of_int.
  assert (E : (n <? 0) = false) by (apply Z.ltb_ge; lia).
  rewrite E. change 1 with (2 ^ 0) at 1.
  rewrite round64_normal; [|exact n_range | lia].
  cbn [rbind]. unfold format_float, Num.pow2. f_equal. f_equal.
  rewrite Z.sub_0_r.
  destruct (0 <=? Z.log2 n - 52) eqn:E52.
  - apply Z.leb_le in E52. replace (Z.log2 n) with 52 by lia.
    change (52 - 52) with 0. change (2 ^ 0) with 1. lia.
  - rewrite Z.mul_assoc.
    replace (- (Z.log2 n - 52)) with (52 - Z.log2 n) by lia.
    apply round_half_even_multiple. apply Z.pow_pos_nonneg; lia.
Qed.

(** The loop, from the unit of index [j] on, prints the size in the unit of
    index [k]: the first for which the size is below 1024 of it, or the
    last one. *)
Lemma format_units_scaled : forall (units : list string) (j k : Z),
  1 <= j <= k -> 1024 ^ k <= n ->
  k - j = Z.of_nat (List.length units) \/
  k - j < Z.of_nat (List.length units) /\ n < 1024 ^ (k + 1) ->
  format_units units (scaled n j)
  = Ret (String.append
           (two_decimals (Num.round_half_even (100 * n) (1024 ^ k)))
           (String " " (nth (Z.to_nat (k - j)) units "PB"))).
Proof.
  induction units as [| u units IH]; intros j k Hjk Hk Hlast;
    cbn [format_units].
  - assert (k = j) by (simpl in Hlast; lia). subst k.
    rewrite format_scaled by lia. replace (j - j) with 0 by lia.
    reflexivity.
  - destruct (Z.eq_dec k j) as [-> | Hne].
    + assert (Hlt : n < 1024 ^ (j + 1)).
      { destruct Hlast as [Hlast | [_ Hlast]]; [|exact Hlast].
        rewrite Z.sub_diag in Hlast. simpl in Hlast. lia. }
      rewrite below_scaled by lia.
      assert (E : (n <? 1024 ^ (j + 1)) = true) by (apply Z.ltb_lt; exact Hlt).
      rewrite E, format_scaled by lia. replace (j - j) with 0 by lia.
      reflexivity.
    + assert (Hge : 1024 ^ (j + 1) <= n).
      { apply Z.le_trans with (1024 ^ k); [|exact Hk].
        apply Z.pow_le_mono_r; lia. }
      rewrite below_scaled by lia.
      assert (E : (n <? 1024 ^ (j + 1)) = false)
        by (apply Z.ltb_ge; exact Hge).
      rewrite E.
      rewrite div_scaled; [|lia | apply log2_of_power; [lia | exact Hge]].
      cbn [rbind]. rewrite (IH (j + 1) k); [|lia | exact Hk|].
      * replace (Z.to_nat (k - j)) with (S (Z.to_nat (k - (j + 1))))
          by lia. reflexivity.
      * cbn [List.length] in Hlast. lia.
Qed.

End Sizes.

Lemma format_units_step u units v :
  format_units (u :: units) v
  = if below_1024 v
    then rbind (format_number v)
           (fun s => Ret (String.append s (String " " u)))
    else rbind (div_1024 v) (format_units units).
Proof. reflexivity. Qed.

(** X16: [format_size] prints a size below [2 ^ 53] bytes without any
    error of the floating-point arithmetic.  The unit is the first of B,
    KB, MB, GB, TB for which the size is below 1024 units, else PB; the
    number printed is the size divided by the [k]-th power of 1024, for the
    unit of index [k], rounded to two decimals, ties to the even digit.
    The rounding can reach 1024.00: 1048575 bytes are printed as
    1024.00 KB. *)
Theorem format_size_exact (n k : Z) :
  0 <= n < 2 ^ 53 -> 0 <= k <= 5 ->
  k = 0 \/ 1024 ^ k <= n ->
  k = 5 \/ n < 1024 ^ (k + 1) ->
  format_size n
  = Ret (String.append
           (two_decimals (Num.round_half_even (100 * n) (1024 ^ k)))
           (String " " (unit_of k))).
Proof.
  intros [Hn0 Hn] Hk Hlo Hhi.
  unfold format_size. rewrite format_units_step. cbn [below_1024].
  destruct (Z.eq_dec k 0) as [-> | Hk0].
  - assert (Hsmall : n < 1024) by (destruct Hhi as [Hhi | Hhi]; lia).
    assert (E : (n <? 1024) = true) by (apply Z.ltb_lt; exact Hsmall).
    rewrite E. change (1024 ^ 0) with 1. rewrite round_half_even_whole.
    destruct (Z.eq_dec n 0) as [-> | Hnz]; [reflexivity|].
    cbn [format_number]. rewrite format_int_exact by lia. reflexivity.
  - assert (Hge : 1024 ^ k <= n) by (destruct Hlo as [Hlo | Hlo]; lia).
    assert (Hbig : 1024 <= n).
    { apply Z.le_trans with (1024 ^ k); [|exact Hge].
      change 1024 with (1024 ^ 1) at 1. apply Z.pow_le_mono_r; lia. }
    assert (E : (n <? 1024) = false) by (apply Z.ltb_ge; exact Hbig).
    rewrite E. rewrite div_int by lia. cbn [rbind].
    rewrite (format_units_scaled n ltac:(lia) _ 1 k); [|lia | exact Hge|].
    + unfold unit_of.
      replace (Z.to_nat k) with (S (Z.to_nat (k - 1))) by lia. reflexivity.
    + cbn [List.length]. destruct (Z.eq_dec k 5) as [-> | Hk5];
        [left; reflexivity|].
      right. split; [lia|]. destruct Hhi as [Hhi | Hhi]; [lia | exact Hhi].
Qed.

Lemma format_size_exact_witness :
  0 <= 1048575 < 2 ^ 53 /\ 0 <= 1 <= 5 /\
  (1 = 0 \/ 1024 ^ 1 <= 1048575) /\
  (1 = 5 \/ 1048575 < 1024 ^ (1 + 1)) /\
  format_size 1048575 = Ret "1024.00 KB".
Proof.
  assert (H1 : 0 <= 1048575 < 2 ^ 53) by (split; [lia | reflexivity]).
  assert (H2 : 0 <= 1 <= 5) by lia.
  assert (H3 : 1 = 0 \/ 1024 ^ 1 <= 1048575) by (right; discriminate).
  assert (H4 : 1 = 5 \/ 1048575 < 1024 ^ (1 + 1)) by (right; reflexivity).
  split; [exact H1|]. split; [exact H2|]. split; [exact H3|].
  split; [exact H4|].
  rewrite (format_size_exact 1048575 1 H1 H2 H3 H4). reflexivity.
Defined.

(** ** [format_size] returns *)

Lemma round_half_even_le p q :
  0 <= p -> 0 < q -> Num.round_half_even p q <= p / q + 1.
Proof.
  intros Hp Hq. unfold Num.round_half_even.
  destruct (2 * (p mod q) <? q); [lia|].
  destruct (q <? 2 * (p mod q)); [lia|].
  destruct (Z.even (p / q)); lia.
Qed.

(** A quotient below [2 ^ 1023] is rounded to a finite binary64 number. *)
Lemma round64_finite p q :
  0 <= p -> 0 < q -> p < q * 2 ^ 1023 ->
  exists m e, Num.round64 p q = Num.Finite m e.
Proof.
  intros Hp Hq Hlt. unfold Num.round64.
  destruct (p =? 0) eqn:E0; [eauto|].
  apply Z.eqb_neq in E0. assert (Hp0 : 0 < p) by lia.
  set (e0 := Z.log2 p - Z.log2 q).
  set (e := if Num.ge_pow2 p q e0 then e0 else e0 - 1).
  set (u := Z.max (e - 52) (-1074)).
  match goal with
  | |- exists m' e', (if Num.overflows ?m u then _ else _) = _ =>
      set (mm := m)
  end.
  assert (O : Num.overflows mm u = false); [|rewrite O; eauto].
  unfold Num.overflows, Num.pow2.
  destruct (0 <=? u) eqn:Eu; [|reflexivity].
  apply Z.leb_le in Eu. cbn [andb]. apply Z.leb_gt.
  assert (He52 : 52 <= e) by (unfold u in Eu; lia).
  (* [q * 2 ^ e <= p] *)
  destruct (Z.log2_spec p Hp0) as [Hplo Hphi].
  destruct (Z.log2_spec q Hq) as [Hqlo Hqhi].
  assert (Hle : q * 2 ^ e <= p).
  { unfold e in *. destruct (Num.ge_pow2 p q e0) eqn:G.
    - unfold Num.ge_pow2, Num.pow2 in G.
      assert (E : (0 <=? e0) = true) by (apply Z.leb_le; lia).
      rewrite E in G. apply Z.leb_le in G. exact G.
    - pose proof (Z.log2_nonneg q) as Hq0.
      assert (H1 : 2 ^ Z.succ (Z.log2 q) * 2 ^ (e0 - 1) = 2 ^ Z.log2 p).
      { rewrite <- Z.pow_add_r by lia.
        f_equal. unfold e0. lia. }
      assert (H2 : 0 < 2 ^ (e0 - 1)) by (apply Z.pow_pos_nonneg; lia).
      nia. }
  assert (He : e < 1023).
  { destruct (Z_lt_ge_dec e 1023) as [H | H]; [exact H|].
    assert (2 ^ 1023 <= 2 ^ e) by (apply Z.pow_le_mono_r; lia). nia. }
  assert (Hu : u = e - 52) by (unfold u; lia).
  assert (Hpu : 0 < 2 ^ u) by (apply Z.pow_pos_nonneg; lia).
  assert (Hmm : mm = Num.round_half_even p (q * 2 ^ u)).
  { reflexivity. }
  pose proof (round_half_even_le p (q * 2 ^ u) Hp ltac:(nia)) as Hround.
  rewrite <- Hmm in Hround.
  assert (Hdiv : p / (q * 2 ^ u) * (q * 2 ^ u) <= p).
  { rewrite Z.mul_comm. apply Z.mul_div_le. nia. }
  assert (Hd0 : 0 <= p / (q * 2 ^ u)) by (apply Z.div_pos; nia).
  assert (H1 : p / (q * 2 ^ u) * 2 ^ u < 2 ^ 1023) by nia.
  assert (H2 : 2 ^ u < 2 ^ 1023) by (apply Z.pow_lt_mono_r; lia).
  assert (H3 : 2 ^ 1024 = 2 ^ 1023 + 2 ^ 1023).
  { change 1024 with (Z.succ 1023). rewrite Z.pow_succ_r by lia. lia. }
  nia.
Qed.

Lemma format_units_float_returns : forall units x,
  exists s, format_units units (FloatNum x) = Ret s.
Proof.
  induction units as [| u units IH]; intros x; cbn [format_units].
  - cbn [format_number rbind]. eauto.
  - destruct (below_1024 (FloatNum x)).
    + cbn [format_number rbind]. eauto.
    + destruct x as [m e |]; cbn [div_1024 rbind]; apply IH.
Qed.

Lemma float_of_int_returns n :
  0 <= n < 2 ^ 1023 -> exists x, float_of_int n = Ret x.
Proof.
  intros [H0 H1]. unfold float_of_int.
  destruct (round64_finite n 1 H0 ltac:(lia) ltac:(lia)) as [m [e ->]].
  eauto.
Qed.

Lemma float_of_int_raises n e :
  float_of_int n = Raise e -> e = OverflowError.
Proof.
  unfold float_of_int. destruct (Num.round64 n 1); intros H; inversion H.
  reflexivity.
Qed.

(** X17: [format_size] returns a text for every size that a file can have:
    it returns for every integer between [- 2 ^ 1023] and [2 ^ 1033], it
    always ends, and the only exception that it can raise is the
    [OverflowError] of the conversion of an integer that is too large for
    a float. *)
Theorem format_size_returns (n : Z) :
  (- 2 ^ 1023 < n < 2 ^ 1033 -> exists s, format_size n = Ret s) /\
  format_size n <> Diverge /\
  (forall e, format_size n = Raise e -> e = OverflowError).
Proof.
  unfold format_size. rewrite format_units_step. cbn [below_1024].
  destruct (n <? 1024) eqn:E.
  - cbn [format_number]. unfold format_int.
    split; [|split].
    + intros [Hlo Hhi]. apply Z.ltb_lt in E.
      destruct (n <? 0) eqn:E0.
      * apply Z.ltb_lt in E0.
        destruct (float_of_int_returns (- n) ltac:(lia)) as [x ->].
        cbn [rbind]. eauto.
      * apply Z.ltb_ge in E0.
        assert (H1024 : 1024 < 2 ^ 1023).
        { change 1024 with (2 ^ 10). apply Z.pow_lt_mono_r; lia. }
        destruct (float_of_int_returns n ltac:(lia)) as [x ->].
        cbn [rbind]. eauto.
    + destruct (n <? 0).
      * destruct (float_of_int (- n)) as [x | e |] eqn:Ef; cbn [rbind];
          try discriminate.
        unfold float_of_int in Ef. destruct (Num.round64 (- n) 1);
          discriminate.
      * destruct (float_of_int n) as [x | e |] eqn:Ef; cbn [rbind];
          try discriminate.
        unfold float_of_int in Ef. destruct (Num.round64 n 1); discriminate.
    + intros e. destruct (n <? 0).
      * destruct (float_of_int (- n)) as [x | e' |] eqn:Ef; cbn [rbind];
          try discriminate.
        intros H. inversion H; subst. apply (float_of_int_raises _ _ Ef).
      * destruct (float_of_int n) as [x | e' |] eqn:Ef; cbn [rbind];
          try discriminate.
        intros H. inversion H; subst. apply (float_of_int_raises _ _ Ef).
  - apply Z.ltb_ge in E. cbn [div_1024].
    split; [|split].
    + intros [Hlo Hhi].
      assert (Hq : 1024 * 2 ^ 1023 = 2 ^ 1033).
      { change 1024 with (2 ^ 10). rewrite <- Z.pow_add_r by lia.
        reflexivity. }
      destruct (round64_finite n 1024 ltac:(lia) ltac:(lia) ltac:(lia))
        as [m [e ->]].
      cbn [rbind]. apply format_units_float_returns.
    + destruct (Num.round64 n 1024) as [m e |]; cbn [rbind];
        [|discriminate].
      destruct (format_units_float_returns ["KB"; "MB"; "GB"; "TB"]
                  (Num.Finite m e)) as [s ->]. discriminate.
    + intros e. destruct (Num.round64 n 1024) as [m e' |]; cbn [rbind].
      * destruct (format_units_float_returns ["KB"; "MB"; "GB"; "TB"]
                    (Num.Finite m e')) as [s ->]. discriminate.
      * intros H. inversion H. reflexivity.
Qed.

(** ** The substitute byte is the first draw that differs *)

Lemma bytes_eqb_eq a b : bytes_eqb a b = true <-> a = b.
Proof.
  unfold bytes_eqb. destruct (list_eq_dec Z.eq_dec a b); split; auto;
    discriminate.
Qed.

Lemma after_draws_bump k w :
  after_draws k (bump_rng w) = after_draws (S k) w.
Proof.
  unfold after_draws, bump_rng. simpl. f_equal. lia.
Qed.

Lemma generate_first_other rand original : forall (j fuel : nat) w,
  (forall i, (i < j)%nat -> [rand (w_rng w + i)%nat mod 256] = original) ->
  [rand (w_rng w + j)%nat mod 256] <> original ->
  (j < fuel)%nat ->
  generate_random_byte_not_equal_to rand fuel original w
  = (Ret [rand (w_rng w + j)%nat mod 256], after_draws (S j) w).
Proof.
  induction j as [| j IH]; intros fuel w Hsame Hdiff Hfuel;
    (destruct fuel as [| fuel]; [lia|]); rewrite generate_step.
  - rewrite Nat.add_0_r in *.
    destruct (bytes_eqb _ original) eqn:E;
      [apply bytes_eqb_eq in E; contradiction|].
    f_equal. unfold after_draws, bump_rng. f_equal. lia.
  - assert (E : bytes_eqb [rand (w_rng w) mod 256] original = true).
    { apply bytes_eqb_eq. rewrite <- (Hsame O ltac:(lia)).
      rewrite Nat.add_0_r. reflexivity. }
    rewrite E.
    assert (Hr : forall i, (w_rng (bump_rng w) + i = w_rng w + S i)%nat)
      by (intros i; simpl; lia).
    rewrite (IH fuel (bump_rng w)).
    + rewrite Hr, after_draws_bump. reflexivity.
    + intros i Hi. rewrite Hr. apply Hsame. lia.
    + rewrite Hr. exact Hdiff.
    + lia.
Qed.

Lemma generate_out_of_fuel rand original : forall (fuel : nat) w,
  (forall i, (i < fuel)%nat ->
     [rand (w_rng w + i)%nat mod 256] = original) ->
  generate_random_byte_not_equal_to rand fuel original w
  = (Diverge, after_draws fuel w).
Proof.
  induction fuel as [| fuel IH]; intros w Hsame.
  - simpl. unfold diverge, after_draws. f_equal. destruct w; simpl.
    f_equal. lia.
  - rewrite generate_step.
    assert (E : bytes_eqb [rand (w_rng w) mod 256] original = true).
    { apply bytes_eqb_eq. rewrite <- (Hsame O ltac:(lia)).
      rewrite Nat.add_0_r. reflexivity. }
    rewrite E, IH.
    + rewrite after_draws_bump. reflexivity.
    + intros i Hi.
      assert (Hr : (w_rng (bump_rng w) + i = w_rng w + S i)%nat)
        by (simpl; lia).
      rewrite Hr. apply Hsame. lia.
Qed.

(** X18: [generate_random_byte_not_equal_to] returns the first byte drawn
    that is not the original, and it has then made exactly the draws up to
    that one; nothing else in the world changes.  An original that is not
    one byte long (the empty one, for instance) is never equal to a drawn
    byte, so that the first draw is returned.  As long as the draws give
    the original the loop goes on. *)
Theorem substitute_is_the_first_other_draw
  (rand : nat -> Z) (original : list Z) (j fuel : nat) (w : world) :
  (forall i, (i < j)%nat -> [rand (w_rng w + i)%nat mod 256] = original) ->
  ([rand (w_rng w + j)%nat mod 256] <> original ->
   (j < fuel)%nat ->
   generate_random_byte_not_equal_to rand fuel original w
   = (Ret [rand (w_rng w + j)%nat mod 256], after_draws (S j) w)) /\
  ((fuel <= j)%nat ->
   generate_random_byte_not_equal_to rand fuel original w
   = (Diverge, after_draws fuel w)) /\
  (List.length original <> 1%nat ->
   generate_random_byte_not_equal_to rand (S fuel) original w
   = (Ret [rand (w_rng w) mod 256], after_draws 1 w)).
Proof.
  intros Hsame. split; [|split].
  - intros Hdiff Hfuel. apply generate_first_other; assumption.
  - intros Hfuel. apply generate_out_of_fuel.
    intros i Hi. apply Hsame. lia.
  - intros Hlen.
    rewrite <- (Nat.add_0_r (w_rng w)).
    apply (generate_first_other rand original O (S fuel) w).
    + intros i Hi. lia.
    + intros H. apply Hlen. rewrite <- H. reflexivity.
    + lia.
Qed.

Lemma substitute_is_the_first_other_draw_witness :
  (forall i, (i < 7)%nat ->
     [(fun k => Z.of_nat (k / 7)) (w_rng (init_world Absent None []) + i)%nat
        mod 256] = [0]) /\
  generate_random_byte_not_equal_to (fun k => Z.of_nat (k / 7)) 10 [0]
    (init_world Absent None [])
  = (Ret [1], after_draws 8 (init_world Absent None [])).
Proof.
  assert (H : forall i, (i < 7)%nat ->
            [(fun k => Z.of_nat (k / 7))
               (w_rng (init_world Absent None []) + i)%nat mod 256] = [0]).
  { intros i Hi. simpl.
    do 7 (destruct i as [| i]; [reflexivity|]). lia. }
  split; [exact H|].
  apply (proj1 (substitute_is_the_first_other_draw
                  (fun k => Z.of_nat (k / 7)) [0] 7 10
                  (init_world Absent None []) H));
    [discriminate | lia].
Defined.

(** * The size literal and the exit statuses, in general *)

(** ** What [int] refuses *)

(** [int] drops the blanks around the number, and refuses the separators
    28..31 that [str.strip] drops. *)
Example py_int_blanks : Num.py_int " 5 " = Ret 5.
Proof. vm_compute. reflexivity. Qed.

Example py_int_separator :
  Num.py_int (String (ascii_of_nat 31) "+5") = Raise ValueError /\
  Str.strip (String (ascii_of_nat 31) "+5") = "+5".
Proof. split; vm_compute; reflexivity. Qed.

(** [int] reads 4300 digits and refuses 4301, whatever their value; the
    size literal has no such limit, so that both front ends take 4301
    zeros followed by 5 as a step of 5 KB. *)
Example py_int_digit_limit :
  Num.py_int (zeros 4300) = Ret 0 /\
  Num.py_int (zeros 4301) = Raise ValueError /\
  forall (otherwise : M Z) w,
    parse_step (String.append (zeros 4301) "5") otherwise w = (Ret 5, w).
Proof.
  split; [vm_compute; reflexivity|]. split; [vm_compute; reflexivity|].
  intros otherwise w.
  assert (Ei : Num.py_int (String.append (zeros 4301) "5")
               = Raise ValueError) by (vm_compute; reflexivity).
  assert (Es : parse_size_str (String.append (zeros 4301) "5")
               = Ret 5120) by (vm_compute; reflexivity).
  apply (proj2 (parse_step_of _ otherwise w) 5120 (or_introl Ei) Es).
Qed.

(** ** The size literal, in general *)

Lemma numeric_not_space c : numeric c = true -> Str.isspace c = false.
Proof.
  unfold numeric. intros H. apply orb_true_iff in H.
  destruct H as [H | H]; [apply digit_not_space, H|].
  apply Nat.eqb_eq in H. unfold Str.isspace. cbv zeta. rewrite H.
  reflexivity.
Qed.

Lemma numeric_upper c : numeric c = true -> Str.upper_char c = c.
Proof.
  unfold numeric. intros H. apply orb_true_iff in H.
  destruct H as [H | H]; [apply digit_upper, H|].
  apply Nat.eqb_eq in H. unfold Str.upper_char. cbv zeta. rewrite H.
  reflexivity.
Qed.

Lemma upper_numeric ds : all_numeric ds = true -> Str.upper ds = ds.
Proof.
  induction ds as [| c ds IH]; simpl; [reflexivity|]. intros H.
  apply andb_true_iff in H. destruct H as [H1 H2].
  unfold Str.upper in *. cbn [Str.map_string].
  rewrite (numeric_upper c H1), (IH H2). reflexivity.
Qed.

Lemma scan_size_numeric s : forall ds num,
  all_numeric ds = true ->
  scan_size s ds num = (String.append num ds, "KB").
Proof.
  induction ds as [| d ds IH]; intros num Hd; cbn [scan_size].
  - rewrite append_nil_r. reflexivity.
  - simpl in Hd. apply andb_true_iff in Hd. destruct Hd as [Hd1 Hd].
    fold (numeric d). rewrite Hd1, (IH _ Hd), append_assoc_char.
    reflexivity.
Qed.

Lemma scan_size_numeric_unit s c rest : forall ds num,
  all_numeric ds = true -> numeric c = false ->
  scan_size s (String.append ds (String c rest)) num
  = (String.append num ds, Str.upper (Str.drop (Str.index c s) s)).
Proof.
  induction ds as [| d ds IH]; intros num Hd Hc;
    cbn [String.append scan_size].
  - fold (numeric c). rewrite Hc, append_nil_r. reflexivity.
  - simpl in Hd. apply andb_true_iff in Hd. destruct Hd as [Hd1 Hd].
    fold (numeric d). rewrite Hd1, (IH _ Hd Hc), append_assoc_char.
    reflexivity.
Qed.

(** A number without a unit is read as the same number with the unit KB,
    whatever the number: digits and dots, of any length. *)
Lemma bare_number_is_kilobytes t :
  all_numeric (Str.strip t) = true ->
  size_unit t = "KB" /\
  parse_size_str t = parse_size_str (String.append (Str.strip t) "KB").
Proof.
  intros Hn. set (num := Str.strip t) in *.
  assert (Hstrip : Str.strip (String.append num "KB")
                   = String.append num "KB").
  { assert (Hr : Str.rev (String.append num "KB")
                 = String "B" (String "K" (Str.rev num)))
      by (rewrite rev_app; reflexivity).
    destruct num as [| c r] eqn:En.
    - reflexivity.
    - simpl in Hn. apply andb_true_iff in Hn. destruct Hn as [Hc _].
      apply (strip_clean _ c (String.append r "KB") "B"
               (String "K" (Str.rev (String c r))) eq_refl
               (numeric_not_space c Hc) Hr eq_refl). }
  assert (Hupper : Str.upper (String.append num "KB")
                   = String.append num "KB")
    by (rewrite upper_append, (upper_numeric num Hn); reflexivity).
  assert (Hscan : scan_size num num "" = (num, "KB"))
    by (rewrite (scan_size_numeric num num "" Hn); reflexivity).
  assert (Hscan' : scan_size (String.append num "KB")
                     (String.append num "KB") "" = (num, "KB")).
  { rewrite (scan_size_numeric_unit _ "K" "B" num "" Hn eq_refl).
    rewrite (drop_index_after_numeric "K" "B" eq_refl num Hn).
    reflexivity. }
  split.
  - unfold size_unit. fold num. rewrite (upper_numeric num Hn), Hscan.
    reflexivity.
  - unfold parse_size_str. fold num.
    rewrite Hstrip, Hupper, (upper_numeric num Hn), Hscan, Hscan'.
    reflexivity.
Qed.

(** C8: the parser of size literals reads 2KB as 2048 bytes and the bare
    number 512 as 512 kilobytes, 512 * 1024 bytes, the unit being KB by
    default: every number without a unit (digits and dots, of any length)
    is read as the same number followed by KB, and every whole number [n]
    below [2 ^ 53], written in digits, is read as [n * 1024] bytes without
    a unit or with the unit KB, and as [n] bytes with the unit B.  A
    literal whose unit (the text from the first character that is neither
    a digit nor a dot, in capitals) is neither KB nor B is refused with
    [ValueError], and every literal that is accepted has one of these two
    units.  Both front ends turn the two literals into steps of 2 and of
    512 kilobytes. *)
Theorem step_literal_parser (s : string) :
  size_unit s <> "KB" -> size_unit s <> "B" ->
  parse_size_str s = Raise ValueError /\
  parse_size_str "2KB" = Ret 2048 /\
  parse_size_str "512" = Ret (512 * 1024) /\
  size_unit "512" = "KB" /\
  (forall t, all_numeric (Str.strip t) = true ->
     size_unit t = "KB" /\
     parse_size_str t
     = parse_size_str (String.append (Str.strip t) "KB")) /\
  (forall t ds u,
     Str.strip t = String.append ds u ->
     all_digits ds = true -> ds <> "" -> digits_value ds 0 < 2 ^ 53 ->
     (u = "" \/ Str.upper u = "KB" ->
      parse_size_str t = Ret (digits_value ds 0 * 1024)) /\
     (Str.upper u = "B" -> parse_size_str t = Ret (digits_value ds 0))) /\
  (forall t n, parse_size_str t = Ret n ->
               size_unit t = "KB" \/ size_unit t = "B") /\
  (forall t, size_unit t
             = match unit_suffix (Str.upper (Str.strip t)) with
               | None => "KB"
               | Some u => u
               end) /\
  (forall otherwise w,
     parse_step "2KB" otherwise w = (Ret 2, w) /\
     parse_step "512" otherwise w = (Ret 512, w)).
Proof.
  intros H1 H2.
  split; [apply (proj1 (parse_size_str_unit s)); assumption|].
  split; [vm_compute; reflexivity|].
  split; [vm_compute; reflexivity|].
  split; [vm_compute; reflexivity|].
  split; [exact bare_number_is_kilobytes|].
  split.
  { intros t ds u Hs Hd Hne Hlt.
    pose proof (digits_value_nonneg ds 0 Hd (Z.le_refl 0)) as H0.
    assert (Hn : 0 <= digits_value ds 0 < 2 ^ 53) by (split; assumption).
    destruct (parse_size_str_digits t ds Hd Hne) as [Hkb Hb].
    assert (Hup : Str.upper (Str.strip t) = String.append ds (Str.upper u))
      by (rewrite Hs, upper_append, (upper_digits ds Hd); reflexivity).
    split.
    - intros Hu. rewrite Hkb; [apply whole_kilobytes; exact Hn|].
      destruct Hu as [-> | Hu].
      + left. rewrite Hup. apply append_nil_r.
      + right. rewrite Hup, Hu. reflexivity.
    - intros Hu. rewrite Hb; [apply whole_bytes; exact Hn|].
      rewrite Hup, Hu. reflexivity. }
  split; [intros t n; apply (proj2 (parse_size_str_unit t))|].
  split; [exact size_unit_spec|].
  intros otherwise w. split; reflexivity.
Qed.

Lemma step_literal_parser_witness :
  size_unit "5MB" <> "KB" /\ size_unit "5MB" <> "B" /\
  parse_size_str "5MB" = Raise ValueError.
Proof.
  assert (H1 : size_unit "5MB" <> "KB") by (vm_compute; discriminate).
  assert (H2 : size_unit "5MB" <> "B") by (vm_compute; discriminate).
  split; [exact H1|]. split; [exact H2|].
  exact (proj1 (step_literal_parser "5MB" H1 H2)).
Defined.

(** ** The failure of a file operation *)














Section Failures.

Variable rand : nat -> Z.
Variable fault_at : nat -> fault.






(** *** The rules of [io_fatal] *)









(** *** The file operations *)




















End Failures.


(** ** What the front ends refuse *)






(** ** Cancelling and the exit status *)



